(** * The LevelDB store facade of search-indexer: snapshot registry and leases

    A shallow embedding of package [leveldb] (type [DB] with [OpenDB],
    [Close], [TakeSnapshot], [GetSnapshot], [Put], [Get], [Delete], [Scan]
    and [releaseSnapInternal]) together with a small executable model of the
    goleveldb engine it drives.

    - Go's [int] is a 64-bit two's complement integer (as on amd64 and
      arm64): module [GoInt].
    - [[]byte] is [list Byte.byte]; a nil-able slice result is an [option].
      Where [Scan] copies out of the iterator, slices are addresses of byte
      arrays in a memory: module [Mem].
    - [*leveldb.Snapshot] is [option nat]: [None] is the nil pointer,
      [Some h] the snapshot the engine allocated as number [h].
    - [map[*leveldb.Snapshot]int] is a [gmap] keyed by such pointers.
    - The heap objects the code shares (the engine, the [DB] struct, the
      [Snap] values captured by release closures) live in one [World]
      that every operation threads through.
    - Failures of the engine are inputs: an operation takes the [Fault]
      the engine answers the call with.
    - Every method holds [d.mutex] from its first statement to its return,
      so a method is one step on the [World]; which mode of the lock each
      method takes, and what that allows, is module [Locking].

    Two callers' packages follow: package [conf] ([Load], [Get]) in module
    [Conf], and the demo run of package [indexer] in module [Indexer]. What
    they take from outside (the file system, the YAML decoder, the parser,
    the shutdown flag) is a record of functions or a list of answers. *)

From Stdlib Require Import ZArith List Bool Strings.Byte String Sorted Lia.
From stdpp Require Import base option list gmap.
Import ListNotations.

(** ** Go's [int] *)

Module GoInt.
Local Open Scope Z_scope.

Definition min_int : Z := - 2 ^ 63.
Definition max_int : Z := 2 ^ 63 - 1.

(** Reduction of a mathematical integer to the 64-bit signed range. *)
Definition wrap (z : Z) : Z := (z + 2 ^ 63) mod 2 ^ 64 - 2 ^ 63.

Definition add (x y : Z) : Z := wrap (x + y).
Definition sub (x y : Z) : Z := wrap (x - y).

Definition in_range (z : Z) : Prop := min_int <= z <= max_int.
End GoInt.

(** ** Byte strings *)

Definition bytes := list Byte.byte.

Definition byte_compare (a b : Byte.byte) : comparison :=
  N.compare (Byte.to_N a) (Byte.to_N b).

(** The engine's default comparer: bytewise lexicographic order. *)
Fixpoint bytes_compare (a b : bytes) : comparison :=
  match a, b with
  | [], [] => Eq
  | [], _ :: _ => Lt
  | _ :: _, [] => Gt
  | x :: a', y :: b' =>
      match byte_compare x y with
      | Eq => bytes_compare a' b'
      | c => c
      end
  end.

Definition bytes_lt (a b : bytes) : Prop := bytes_compare a b = Lt.

Fixpoint has_prefix (p k : bytes) : bool :=
  match p, k with
  | [], _ => true
  | _ :: _, [] => false
  | x :: p', y :: k' =>
      match byte_compare x y with
      | Eq => has_prefix p' k'
      | _ => false
      end
  end.

(** [c + 1] on a byte below [0xff]. *)
Definition byte_succ (c : Byte.byte) : Byte.byte :=
  match Byte.of_N (Byte.to_N c + 1) with
  | Some c' => c'
  | None => c
  end.

(** goleveldb's [util.Range]: the keys from [Start] on and below [Limit];
    a nil [Limit] is no bound. *)
Record Range : Type := mkRange {
  Start : bytes;
  Limit : option bytes
}.

(** The limit [util.BytesPrefix] computes: the prefix cut after its last
    byte below [0xff], with that byte incremented; nil if there is no such
    byte. *)
Fixpoint prefix_limit (prefix : bytes) : option bytes :=
  match prefix with
  | [] => None
  | c :: rest =>
      match prefix_limit rest with
      | Some l => Some (c :: l)
      | None => if (Byte.to_N c <? 255)%N then Some [byte_succ c] else None
      end
  end.

Definition BytesPrefix (prefix : bytes) : Range :=
  mkRange prefix (prefix_limit prefix).

Definition within (r : Range) (k : bytes) : bool :=
  match bytes_compare (Start r) k with
  | Gt => false
  | _ =>
      match Limit r with
      | None => true
      | Some l =>
          match bytes_compare k l with
          | Lt => true
          | _ => false
          end
      end
  end.

(** [make([]byte, n)]: a zeroed slice of length [n]. *)
Definition make_bytes (n : nat) : bytes := repeat x00 n.

(** [copy(dst, src)]: overwrites the first [min (len dst) (len src)]
    elements of [dst]; the result is the new content of [dst]. *)
Definition copy (dst src : bytes) : bytes :=
  let n := Nat.min (length dst) (length src) in
  firstn n src ++ skipn n dst.

(** ** Byte slices in memory *)

Module Mem.

(** The byte arrays allocated so far; an address is a position. *)
Definition Heap : Type := list bytes.

(** A [[]byte] value: the array it views. Every slice met here views a
    whole array from its start, as the slices [make] returns do; two
    slices share storage exactly when they are the same address. *)
Definition Slice : Type := nat.

Definition read (s : Slice) (m : Heap) : bytes := default [] (m !! s).

(** The array of [s] is overwritten with [b]. *)
Definition write (s : Slice) (b : bytes) (m : Heap) : Heap := <[s := b]> m.

(** [make([]byte, n)]: a slice over a new zeroed array. *)
Definition make (n : nat) (m : Heap) : Heap * Slice :=
  (m ++ [make_bytes n], length m).

(** [copy(dst, src)]: writes into the array of [dst]. *)
Definition copy (dst src : Slice) (m : Heap) : Heap :=
  write dst (copy (read dst m) (read src m)) m.

End Mem.

(** ** The engine (goleveldb), as the facade sees it *)

Inductive EngineErr : Type :=
| ErrNotFound                  (* leveldb.ErrNotFound *)
| ErrEngineClosed              (* leveldb.ErrClosed *)
| ErrIO (msg : string).        (* any other failure *)

(** What the environment makes an engine call fail with, if anything. *)
Definition Fault := option EngineErr.

Definition entry : Type := bytes * bytes.

Module Table.
(** The live contents: entries in strictly ascending key order. *)

Fixpoint get (k : bytes) (t : list entry) : option bytes :=
  match t with
  | [] => None
  | (k', v') :: t' =>
      match bytes_compare k k' with
      | Eq => Some v'
      | _ => get k t'
      end
  end.

Fixpoint put (k v : bytes) (t : list entry) : list entry :=
  match t with
  | [] => [(k, v)]
  | (k', v') :: t' =>
      match bytes_compare k k' with
      | Lt => (k, v) :: t
      | Eq => (k, v) :: t'
      | Gt => (k', v') :: put k v t'
      end
  end.

Fixpoint delete (k : bytes) (t : list entry) : list entry :=
  match t with
  | [] => []
  | (k', v') :: t' =>
      match bytes_compare k k' with
      | Eq => t'
      | _ => (k', v') :: delete k t'
      end
  end.

(** The entries an iterator over the range [r] walks. *)
Definition slice (r : Range) (t : list entry) : list entry :=
  List.filter (fun kv => within r (fst kv)) t.

Definition keys (t : list entry) : list bytes := List.map fst t.

Definition ascending (t : list entry) : Prop :=
  StronglySorted bytes_lt (keys t).
End Table.

Record LevelDB : Type := mkLevelDB {
  table : list entry;              (* live key/value pairs *)
  ldb_closed : bool;               (* the engine itself has been closed *)
  snapshots : list (list entry);   (* snapshot [h] froze the contents at position [h] *)
  released : list nat              (* Snapshot.Release() calls, latest first *)
}.

Module Engine.

(** [leveldb.OpenFile]: the engine over what the directory holds. *)
Definition OpenFile (disk : list entry) : LevelDB :=
  mkLevelDB disk false [] [].

Definition Get (f : Fault) (key : bytes) (e : LevelDB)
  : option bytes * option EngineErr :=
  if ldb_closed e then (None, Some ErrEngineClosed)
  else match f with
       | Some err => (None, Some err)
       | None =>
           match Table.get key (table e) with
           | Some v => (Some v, None)
           | None => (None, Some ErrNotFound)
           end
       end.

Definition Put (f : Fault) (key value : bytes) (e : LevelDB)
  : LevelDB * option EngineErr :=
  if ldb_closed e then (e, Some ErrEngineClosed)
  else match f with
       | Some err => (e, Some err)
       | None =>
           (mkLevelDB (Table.put key value (table e)) (ldb_closed e)
                      (snapshots e) (released e), None)
       end.

Definition Delete (f : Fault) (key : bytes) (e : LevelDB)
  : LevelDB * option EngineErr :=
  if ldb_closed e then (e, Some ErrEngineClosed)
  else match f with
       | Some err => (e, Some err)
       | None =>
           (mkLevelDB (Table.delete key (table e)) (ldb_closed e)
                      (snapshots e) (released e), None)
       end.

(** The number the next snapshot will get. *)
Definition next_snapshot (e : LevelDB) : nat := length (snapshots e).

(** [db.GetSnapshot()]: a snapshot never handed out before, frozen at
    the present contents, or an error. *)
Definition GetSnapshot (f : Fault) (e : LevelDB)
  : LevelDB * option nat * option EngineErr :=
  if ldb_closed e then (e, None, Some ErrEngineClosed)
  else match f with
       | Some err => (e, None, Some err)
       | None =>
           (mkLevelDB (table e) (ldb_closed e)
                      (snapshots e ++ [table e]) (released e),
            Some (next_snapshot e), None)
       end.

(** [snap.Get(key, nil)] on a snapshot that is still held. *)
Definition SnapshotGet (h : nat) (key : bytes) (e : LevelDB) : option bytes :=
  match nth_error (snapshots e) h with
  | Some frozen => Table.get key frozen
  | None => None
  end.

(** [snap.Release()]. *)
Definition Release (h : nat) (e : LevelDB) : LevelDB :=
  mkLevelDB (table e) (ldb_closed e) (snapshots e) (h :: released e).

(** [db.Close()]: the engine is closed afterwards whether or not the
    shutdown reported an error. *)
Definition Close (f : Fault) (e : LevelDB) : LevelDB * option EngineErr :=
  if ldb_closed e then (e, Some ErrEngineClosed)
  else (mkLevelDB (table e) true (snapshots e) (released e), f).

(** [db.NewIterator(r, nil)]: the entries the iterator has yet to yield,
    and the error it starts with (an iterator over a closed engine is
    empty and reports [ErrEngineClosed]). *)
Definition NewIterator (r : Range) (e : LevelDB)
  : list entry * option EngineErr :=
  if ldb_closed e then ([], Some ErrEngineClosed)
  else (Table.slice r (table e), None).

(** The iterator keeps the key and the value it stands on in two arrays
    of its own. [iter.Key()] and [iter.Value()] return slices over these
    arrays, every move of the iterator overwrites them, and so does
    [iter.Release()]: what such a slice reads is only good until the next
    call on the iterator. *)
Definition iter_key : Mem.Slice := 0%nat.
Definition iter_value : Mem.Slice := 1%nat.

(** The memory a new iterator comes with: its two arrays, empty. *)
Definition iter_memory : Mem.Heap := [[]; []].

(** A successful [iter.Next()] onto the entry [(k, v)]. *)
Definition iter_move (k v : bytes) (m : Mem.Heap) : Mem.Heap :=
  Mem.write iter_value v (Mem.write iter_key k m).

(** [iter.Release()]. *)
Definition iter_release (m : Mem.Heap) : Mem.Heap := iter_move [] [] m.

(** Snapshot [h] has been created and never released. *)
Definition alive (h : nat) (e : LevelDB) : Prop :=
  (h < next_snapshot e)%nat /\ ~ In h (released e).

End Engine.

(** ** The structs of package [leveldb] *)

(** [*leveldb.Snapshot]: [None] is nil. *)
Abbreviation SnapshotPtr := (option nat).

(** [d.db] is nil or points to the engine the store was opened on. *)
Inductive EngineRef : Type := the_engine.

Record DB : Type := mkDB {
  path : string;
  db : option EngineRef;
  closed : bool;
  snap : SnapshotPtr;
  activeSnaps : gmap (option nat) Z
}.

(** A [Snap] value; its [db] field always points to the one store. *)
Record Snap : Type := mkSnap {
  snap_of : SnapshotPtr        (* field [snap] *)
}.

(** The heap: the engine object, the [DB] struct and the [Snap] values
    allocated so far, addressed by their position. *)
Record World : Type := mkWorld {
  engine : LevelDB;
  store : DB;
  leases : list Snap
}.

Definition with_engine (e : LevelDB) (w : World) : World :=
  mkWorld e (store w) (leases w).
Definition with_store (d : DB) (w : World) : World :=
  mkWorld (engine w) d (leases w).
Definition with_leases (l : list Snap) (w : World) : World :=
  mkWorld (engine w) (store w) l.

Definition set_db (r : option EngineRef) (d : DB) : DB :=
  mkDB (path d) r (closed d) (snap d) (activeSnaps d).
Definition set_closed (b : bool) (d : DB) : DB :=
  mkDB (path d) (db d) b (snap d) (activeSnaps d).
Definition set_snap (s : SnapshotPtr) (d : DB) : DB :=
  mkDB (path d) (db d) (closed d) s (activeSnaps d).
Definition set_activeSnaps (m : gmap (option nat) Z) (d : DB) : DB :=
  mkDB (path d) (db d) (closed d) (snap d) m.

(** [m[k]] on a Go map: the zero value when [k] is absent. *)
Definition count_of (m : gmap (option nat) Z) (k : SnapshotPtr) : Z :=
  default 0%Z (m !! k).

(** The errors the facade builds with [fmt.Errorf]. *)
Inductive Error : Type :=
| ErrDatabaseClosed                      (* "database is closed" *)
| ErrActiveSnapshots (n : nat)           (* "cannot close database with %d active snapshots" *)
| ErrCloseFailed (e : EngineErr)         (* "failed to close leveldb: %v" *)
| ErrSnapshotFailed (e : EngineErr)      (* "failed to create snapshot: %v" *)
| ErrPutFailed (e : EngineErr)           (* "failed to put data: %v" *)
| ErrGetFailed (e : EngineErr)           (* "failed to get data: %v" *)
| ErrDeleteFailed (e : EngineErr)        (* "failed to delete data: %v" *)
| ErrScanFailed (e : EngineErr)          (* "scan failed: %v" *)
| ErrAbsPath                             (* "failed to get absolute path: %v" *)
| ErrOpenFailed (e : EngineErr).         (* "failed to open leveldb: %v" *)

(** A call either returns or panics on a nil pointer dereference. *)
Inductive Outcome (A : Type) : Type :=
| Returns (a : A)
| Panics.
Arguments Returns {A} a.
Arguments Panics {A}.

(** ** The operations *)

Definition releaseSnapInternal (snap : SnapshotPtr) (w : World) : World :=
  match snap with
  | None => w
  | Some h =>
      let d := store w in
      let shared :=
        match activeSnaps d !! snap with
        | Some count => (1 <? count)%Z
        | None => false
        end in
      if shared then
        with_store
          (set_activeSnaps
             (<[snap := GoInt.sub (count_of (activeSnaps d) snap) 1]>
                (activeSnaps d)) d) w
      else
        with_store
          (set_activeSnaps (delete snap (activeSnaps d)) d)
          (with_engine (Engine.Release h (engine w)) w)
  end.

Definition Close (f : Fault) (w : World) : World * option Error :=
  let d := store w in
  if closed d then (w, Some ErrDatabaseClosed)
  else if (1 <? size (activeSnaps d))%nat
          || (1 <? count_of (activeSnaps d) (snap d))%Z
  then (w, Some (ErrActiveSnapshots (size (activeSnaps d))))
  else
    let w1 := releaseSnapInternal (snap d) w in
    let w2 := with_store (set_closed true (set_snap None (store w1))) w1 in
    match db (store w2) with
    | Some _ =>
        let (e', err) := Engine.Close f (engine w2) in
        match err with
        | Some e => (with_engine e' w2, Some (ErrCloseFailed e))
        | None => (with_store (set_db None (store w2)) (with_engine e' w2), None)
        end
    | None => (w2, None)
    end.

Definition IsClosed (w : World) : bool := closed (store w).

Definition TakeSnapshot (f : Fault) (w : World) : Outcome (World * option Error) :=
  let d := store w in
  if closed d then Returns (w, Some ErrDatabaseClosed)
  else
    match db d with
    | None => Panics
    | Some _ =>
        match Engine.GetSnapshot f (engine w) with
        | (_, _, Some err) => Returns (w, Some (ErrSnapshotFailed err))
        | (e', snap', None) =>
            let w1 := releaseSnapInternal (snap d) (with_engine e' w) in
            let d1 := set_snap snap' (store w1) in
            Returns
              (with_store (set_activeSnaps (<[snap' := 1%Z]> (activeSnaps d1)) d1) w1,
               None)
        end
    end.

(** The closure [GetSnapshot] returns for the [Snap] at address [a]. *)
Definition release_lease (a : nat) (w : World) : World :=
  match leases w !! a with
  | Some s =>
      let w1 := releaseSnapInternal (snap_of s) w in
      with_leases (<[a := mkSnap None]> (leases w1)) w1
  | None => w
  end.

(** The closure [func() {}]. *)
Definition release_nothing (w : World) : World := w.

(** Returns the address of the new [Snap] (nil on a closed store) and the
    release closure. *)
Definition GetSnapshot (w : World) : World * option nat * (World -> World) :=
  let d := store w in
  if closed d then (w, None, release_nothing)
  else
    let m := <[snap d := GoInt.add (count_of (activeSnaps d) (snap d)) 1]>
               (activeSnaps d) in
    let a := length (leases w) in
    (with_leases (leases w ++ [mkSnap (snap d)])
       (with_store (set_activeSnaps m d) w),
     Some a, release_lease a).

Definition Put (f : Fault) (key value : bytes) (w : World)
  : Outcome (World * option Error) :=
  let d := store w in
  if closed d then Returns (w, Some ErrDatabaseClosed)
  else
    match db d with
    | None => Panics
    | Some _ =>
        match Engine.Put f key value (engine w) with
        | (e', Some err) => Returns (with_engine e' w, Some (ErrPutFailed err))
        | (e', None) => Returns (with_engine e' w, None)
        end
    end.

Definition Get (f : Fault) (key : bytes) (w : World)
  : Outcome (option bytes * option Error) :=
  let d := store w in
  if closed d then Returns (None, Some ErrDatabaseClosed)
  else
    match db d with
    | None => Panics
    | Some _ =>
        match Engine.Get f key (engine w) with
        | (_, Some ErrNotFound) => Returns (None, None)
        | (_, Some err) => Returns (None, Some (ErrGetFailed err))
        | (value, None) => Returns (value, None)
        end
    end.

Definition Delete (f : Fault) (key : bytes) (w : World)
  : Outcome (World * option Error) :=
  let d := store w in
  if closed d then Returns (w, Some ErrDatabaseClosed)
  else
    match db d with
    | None => Panics
    | Some _ =>
        match Engine.Delete f key (engine w) with
        | (e', Some err) => Returns (with_engine e' w, Some (ErrDeleteFailed err))
        | (e', None) => Returns (with_engine e' w, None)
        end
    end.

(** The body of the loop of [Scan]: two new slices as long as the key and
    the value under the iterator, filled from them. *)
Definition copy_entry (m : Mem.Heap) : Mem.Heap * (Mem.Slice * Mem.Slice) :=
  let (m1, key) := Mem.make (length (Mem.read Engine.iter_key m)) m in
  let (m2, value) := Mem.make (length (Mem.read Engine.iter_value m1)) m1 in
  let m3 := Mem.copy key Engine.iter_key m2 in
  let m4 := Mem.copy value Engine.iter_value m3 in
  (m4, (key, value)).

(** The loop of [Scan], over the memory [m] that holds the iterator's
    arrays and the slices made so far. Each round is one [iter.Next()],
    answered by the head of [fs] (no fault once [fs] is used up): a failing
    [Next] leaves the loop with the iterator's error set, an exhausted
    iterator leaves it without, and otherwise the iterator moves onto the
    next entry, which is either past the limit ([break]) or copied and
    appended. *)
Fixpoint scan_loop (limit : Z) (fs : list Fault) (pending : list entry)
    (m : Mem.Heap) (results : list (Mem.Slice * Mem.Slice))
  : Mem.Heap * list (Mem.Slice * Mem.Slice) * option EngineErr :=
  match hd None fs with
  | Some err => (m, results, Some err)
  | None =>
      match pending with
      | [] => (m, results, None)
      | (k, v) :: pending' =>
          let m := Engine.iter_move k v m in
          if (0 <? limit)%Z && (limit <=? Z.of_nat (length results))%Z
          then (m, results, None)
          else
            let (m, kv) := copy_entry m in
            scan_loop limit (tl fs) pending' m (results ++ [kv])
      end
  end.

(** [Scan], with the slices it returns and the memory it leaves them in
    once the deferred [iter.Release()] has run. *)
Definition Scan_slices (fs : list Fault) (prefix : bytes) (limit : Z) (w : World)
  : Outcome (Mem.Heap * list (Mem.Slice * Mem.Slice) * option Error) :=
  let d := store w in
  if closed d then Returns ([], [], Some ErrDatabaseClosed)
  else
    match db d with
    | None => Panics
    | Some _ =>
        match Engine.NewIterator (BytesPrefix prefix) (engine w) with
        | (_, Some err) =>
            Returns (Engine.iter_release Engine.iter_memory, [], Some (ErrScanFailed err))
        | (pending, None) =>
            match scan_loop limit fs pending Engine.iter_memory [] with
            | (m, _, Some err) =>
                Returns (Engine.iter_release m, [], Some (ErrScanFailed err))
            | (m, results, None) => Returns (Engine.iter_release m, results, None)
            end
        end
    end.

(** What the slices [results] read in the memory [m]. *)
Definition contents (m : Mem.Heap) (results : list (Mem.Slice * Mem.Slice))
  : list entry :=
  map (fun kv => (Mem.read (fst kv) m, Mem.read (snd kv) m)) results.

(** [Scan] as its caller reads the result. *)
Definition Scan (fs : list Fault) (prefix : bytes) (limit : Z) (w : World)
  : Outcome (list entry * option Error) :=
  match Scan_slices fs prefix limit w with
  | Returns (m, results, err) => Returns (contents m results, err)
  | Panics => Panics
  end.

(** [OpenDB]: [abs] is what [filepath.Abs] answers, [disk] what the
    directory holds; [fopen], [fsnap] and [fclose] are the faults of
    [leveldb.OpenFile], of the first snapshot and of the [db.Close()] that
    follows a failed first snapshot. *)
Definition OpenDB (abs : option string) (fopen fsnap fclose : Fault)
    (disk : list entry) : Outcome (option World * option Error) :=
  match abs with
  | None => Returns (None, Some ErrAbsPath)
  | Some absPath =>
      match fopen with
      | Some err => Returns (None, Some (ErrOpenFailed err))
      | None =>
          let ldb := mkDB absPath (Some the_engine) false None ∅ in
          match TakeSnapshot fsnap (mkWorld (Engine.OpenFile disk) ldb []) with
          | Returns (w, Some err) =>
              let _ := Engine.Close fclose (engine w) in
              Returns (None, Some err)
          | Returns (w, None) => Returns (Some w, None)
          | Panics => Panics
          end
      end
  end.

(** ** Sequences of calls *)

Inductive Call : Type :=
| CallClose (f : Fault)
| CallIsClosed
| CallTakeSnapshot (f : Fault)
| CallGetSnapshot
| CallRelease (a : nat)          (* the closure returned along with the [Snap] at [a] *)
| CallPut (f : Fault) (key value : bytes)
| CallGet (f : Fault) (key : bytes)
| CallDelete (f : Fault) (key : bytes)
| CallScan (fs : list Fault) (prefix : bytes) (limit : Z).

Definition after {A : Type} (o : Outcome (World * A)) : Outcome World :=
  match o with
  | Returns (w, _) => Returns w
  | Panics => Panics
  end.

Definition exec (c : Call) (w : World) : Outcome World :=
  match c with
  | CallClose f => Returns (fst (Close f w))
  | CallIsClosed => Returns w
  | CallTakeSnapshot f => after (TakeSnapshot f w)
  | CallGetSnapshot => Returns (fst (fst (GetSnapshot w)))
  | CallRelease a => Returns (release_lease a w)
  | CallPut f key value => after (Put f key value w)
  | CallGet f key =>
      match Get f key w with Returns _ => Returns w | Panics => Panics end
  | CallDelete f key => after (Delete f key w)
  | CallScan fs prefix limit =>
      match Scan fs prefix limit w with Returns _ => Returns w | Panics => Panics end
  end.

Fixpoint run (cs : list Call) (w : World) : Outcome World :=
  match cs with
  | [] => Returns w
  | c :: cs' =>
      match exec c w with
      | Returns w' => run cs' w'
      | Panics => Panics
      end
  end.

(** ** The lock each method takes *)

Module Locking.

Inductive Method : Type :=
| MClose | MIsClosed | MTakeSnapshot | MGetSnapshot | MRelease
| MPut | MGet | MDelete | MScan | MCommit.

Inductive LockMode : Type := Shared | Exclusive.

(** Modelled from the spec: [Batch.Commit] is not among the source files;
    section 5 lists it with the operations that "acquire an exclusive
    lock on the Store for their duration". The other rows are the first
    statement of each method: [d.mutex.RLock()] or [d.mutex.Lock()]. *)
Definition lock_mode (m : Method) : LockMode :=
  match m with
  | MClose => Exclusive
  | MIsClosed => Shared
  | MTakeSnapshot => Exclusive
  | MGetSnapshot => Exclusive
  | MRelease => Exclusive
  | MPut => Exclusive
  | MGet => Shared
  | MDelete => Exclusive
  | MScan => Shared
  | MCommit => Exclusive
  end.

(** [sync.RWMutex]: held by one writer or by any number of readers. *)
Record RWMutex : Type := mkRWMutex {
  writer : bool;
  readers : nat
}.

Definition unlocked : RWMutex := mkRWMutex false 0.

(** [RLock] and [Lock]: taking the lock in a mode; [None] when the caller
    has to wait. *)
Definition acquire (m : LockMode) (mu : RWMutex) : option RWMutex :=
  match m with
  | Shared =>
      if writer mu then None else Some (mkRWMutex false (S (readers mu)))
  | Exclusive =>
      if writer mu then None
      else match readers mu with
           | O => Some (mkRWMutex true 0)
           | S _ => None
           end
  end.

(** [RUnlock] and [Unlock], which every method defers. *)
Definition release (m : LockMode) (mu : RWMutex) : RWMutex :=
  match m with
  | Shared => mkRWMutex (writer mu) (Nat.pred (readers mu))
  | Exclusive => mkRWMutex false (readers mu)
  end.

(** The lock of one store together with the calls that are between their
    lock and their unlock. *)
Record Sys : Type := mkSys {
  mutex : RWMutex;
  inside : list Method
}.

Definition idle : Sys := mkSys unlocked [].

Inductive step : Sys -> Sys -> Prop :=
| step_enter (m : Method) (s : Sys) (mu' : RWMutex) :
    acquire (lock_mode m) (mutex s) = Some mu' ->
    step s (mkSys mu' (m :: inside s))
| step_leave (m : Method) (s : Sys) (before after : list Method) :
    inside s = before ++ m :: after ->
    step s (mkSys (release (lock_mode m) (mutex s)) (before ++ after)).

Definition reachable (s : Sys) : Prop := rtc step idle s.

(** The calls [ms] can all be inside their critical sections at once. *)
Definition concurrent (ms : list Method) : Prop :=
  exists mu, reachable (mkSys mu ms).

(** What the lock guarantees at every moment: readers only, as many as
    the lock counts, or a single writer. *)
Definition consistent (s : Sys) : Prop :=
  (writer (mutex s) = false
   /\ readers (mutex s) = length (inside s)
   /\ Forall (fun m => lock_mode m = Shared) (inside s))
  \/ (writer (mutex s) = true
      /\ readers (mutex s) = 0%nat
      /\ exists m, inside s = [m] /\ lock_mode m = Exclusive).

End Locking.

(** ** What [Scan] is expected to return *)

(** How many entries the loop of [Scan] appends when no [Next] fails:
    all that are pending, or as many as the limit still allows. *)
Definition scan_budget (limit : Z) (have pending : nat) : nat :=
  if (0 <? limit)%Z
  then Nat.min (Z.to_nat (limit - Z.of_nat have)) pending
  else pending.

(** The arrays a list of returned pairs views. *)
Definition arrays (results : list (Mem.Slice * Mem.Slice)) : list Mem.Slice :=
  flat_map (fun kv => [fst kv; snd kv]) results.

(** The arrays of [n] copied entries one after the other, and the slices
    over them when the first array is at [base]. *)
Definition cells (acc : list entry) : Mem.Heap :=
  flat_map (fun kv => [fst kv; snd kv]) acc.

Fixpoint slots (base n : nat) : list (Mem.Slice * Mem.Slice) :=
  match n with
  | O => []
  | S n' => (base, S base) :: slots (S (S base)) n'
  end.

(** ** Who holds a snapshot *)

(** The number of [Snap] values in [l] still bound to [k]. *)
Fixpoint lease_count (k : SnapshotPtr) (l : list Snap) : nat :=
  match l with
  | [] => 0
  | s :: l' => (if decide (snap_of s = k) then 1 else 0) + lease_count k l'
  end.

(** The store's own reference to its current snapshot. *)
Definition self_ref (k : SnapshotPtr) (d : DB) : nat :=
  if decide (snap d = k) then 1 else 0.

Definition holders (h : nat) (w : World) : nat :=
  self_ref (Some h) (store w) + lease_count (Some h) (leases w).

(** The worlds the exported functions produce. *)
Record wf (w : World) : Prop := mk_wf {
  wf_engine_ref : closed (store w) = false -> db (store w) = Some the_engine;
  wf_engine_open : closed (store w) = false -> ldb_closed (engine w) = false;
  wf_current : closed (store w) = false <-> snap (store w) <> None;
  wf_no_nil : activeSnaps (store w) !! None = None;
  wf_counts : forall h,
    count_of (activeSnaps (store w)) (Some h) = Z.of_nat (holders h w);
  wf_positive : forall k c, activeSnaps (store w) !! k = Some c -> (1 <= c)%Z;
  wf_alive : forall h,
    is_Some (activeSnaps (store w) !! Some h) -> Engine.alive h (engine w);
  wf_released : NoDup (released (engine w));
  wf_created : forall h,
    In h (released (engine w)) -> (h < Engine.next_snapshot (engine w))%nat;
  wf_table : Table.ascending (table (engine w));
  wf_bounded : (Z.of_nat (length (leases w)) < GoInt.max_int)%Z
}.

(** The registry agrees with a count [refs] of the references to each
    snapshot: one count per reference, no entry without a reference, and
    every registered snapshot still unreleased in the engine. *)
Record registry_ok (refs : nat -> nat) (w : World) : Prop := mk_registry_ok {
  reg_no_nil : activeSnaps (store w) !! None = None;
  reg_counts : forall h,
    count_of (activeSnaps (store w)) (Some h) = Z.of_nat (refs h);
  reg_positive : forall k c, activeSnaps (store w) !! k = Some c -> (1 <= c)%Z;
  reg_alive : forall h,
    is_Some (activeSnaps (store w) !! Some h) -> Engine.alive h (engine w);
  reg_released : NoDup (released (engine w));
  reg_created : forall h,
    In h (released (engine w)) -> (h < Engine.next_snapshot (engine w))%nat;
  reg_bounded : forall h, (Z.of_nat (refs h) <= GoInt.max_int)%Z
}.

(** What [releaseSnapInternal] never touches. *)
Record same_frame (w w' : World) : Prop := mk_same_frame {
  frame_leases : leases w' = leases w;
  frame_path : path (store w') = path (store w);
  frame_db : db (store w') = db (store w);
  frame_closed : closed (store w') = closed (store w);
  frame_snap : snap (store w') = snap (store w);
  frame_table : table (engine w') = table (engine w);
  frame_ldb_closed : ldb_closed (engine w') = ldb_closed (engine w);
  frame_snapshots : snapshots (engine w') = snapshots (engine w)
}.

(** ** Statements about single operations *)

(** What one call of [releaseSnapInternal] on [k] turns [w] into. *)
Definition release_outcome (k : SnapshotPtr) (w w' : World) : Prop :=
  let m := activeSnaps (store w) in
  match k with
  | None => w' = w
  | Some h =>
      same_frame w w' /\
      match m !! k with
      | Some c =>
          if decide (1 < c)%Z
          then activeSnaps (store w') = <[k := (c - 1)%Z]> m
               /\ released (engine w') = released (engine w)
          else activeSnaps (store w') = delete k m
               /\ released (engine w') = h :: released (engine w)
      | None =>
          activeSnaps (store w') = m
          /\ released (engine w') = h :: released (engine w)
      end
  end.

(** The guard of [Close]: some lease is still out. *)
Definition snapshots_still_active (d : DB) : Prop :=
  (1 < size (activeSnaps d))%nat \/ (1 < count_of (activeSnaps d) (snap d))%Z.

(** Every method that can fail on a closed store does. *)
Record refuses_all (w : World) : Prop := mk_refuses_all {
  refuses_Close : forall f, Close f w = (w, Some ErrDatabaseClosed);
  refuses_TakeSnapshot : forall f,
    TakeSnapshot f w = Returns (w, Some ErrDatabaseClosed);
  refuses_GetSnapshot : GetSnapshot w = (w, None, release_nothing);
  refuses_Put : forall f key value,
    Put f key value w = Returns (w, Some ErrDatabaseClosed);
  refuses_Get : forall f key, Get f key w = Returns (None, Some ErrDatabaseClosed);
  refuses_Delete : forall f key,
    Delete f key w = Returns (w, Some ErrDatabaseClosed);
  refuses_Scan : forall fs prefix limit,
    Scan fs prefix limit w = Returns ([], Some ErrDatabaseClosed)
}.

(** ** Sample worlds *)

(** A byte string written as text. *)
Definition bytes_of (s : string) : bytes := list_byte_of_string s.

(** The keys of the scan example of the specification. *)
Definition sample_disk : list entry :=
  [ (bytes_of "other", bytes_of "v4"); (bytes_of "user:1", bytes_of "v1");
    (bytes_of "user:2", bytes_of "v2"); (bytes_of "user:3", bytes_of "v3") ].

(** The world a successful [OpenDB] over [disk] returns. *)
Definition opened (absPath : string) (disk : list entry) : World :=
  mkWorld (mkLevelDB disk false [disk] [])
          (mkDB absPath (Some the_engine) false (Some 0%nat) {[ Some 0%nat := 1%Z ]})
          [].

Definition sample_world : World := opened "/var/index" sample_disk.

(** [sample_world] after one more successful [TakeSnapshot]: snapshot 0
    has been released and is no longer registered. *)
Definition advanced_world : World :=
  match TakeSnapshot None sample_world with
  | Returns (w, _) => w
  | Panics => sample_world
  end.

(** [sample_world] with one lease out. *)
Definition leased_world : World := fst (fst (GetSnapshot sample_world)).

(** ** Package [conf]: the server configuration *)

Module Conf.

Record Exclude : Type := mkExclude {
  UseGitIgnore : bool;
  Customized : list string
}.

Record Filters : Type := mkFilters {
  exclude : Exclude;           (* field [Exclude] *)
  Include : list string
}.

Record Conf : Type := mkConf {
  ForTest_Path : string;       (* field [ForTest.Path] *)
  filters : Filters;           (* field [Filters] *)
  Port : Z
}.

(** What the package takes from outside: the [running] package, the file
    system and the YAML decoder. [Unmarshal] gives the value the decoder
    leaves in the struct it was handed, and its error. *)
Record Env : Type := mkEnv {
  IsServerMode : bool;
  RootPath : string;
  DefaultListenPort : Z;
  Join : string -> string -> string;                (* filepath.Join *)
  Stat : string -> bool;                            (* os.Stat(path) gives no error *)
  ReadFileWithDefault : string -> bytes -> bytes;   (* fsutils.ReadFileWithDefault *)
  Unmarshal : bytes -> Conf -> Conf * option string (* yaml.Unmarshal *)
}.

(** The package variables [conf] and [serverConf]; [None] is nil. *)
Record Globals : Type := mkGlobals {
  conf : option Conf;
  serverConf : option string
}.

Definition checkMode (env : Env) : Outcome unit :=
  if IsServerMode env then Returns tt else Panics.

Definition Get (env : Env) (g : Globals) : Outcome (option Conf) :=
  match checkMode env with
  | Panics => Panics
  | Returns _ => Returns (conf g)
  end.

(** The loop of [Load] over the candidate paths: [serverConf] is set to
    each path in turn, and the loop is left at the first path that [os.Stat]
    finds. *)
Fixpoint search_loop (stat : string -> bool) (search : list string)
    (serverConf : option string) : option string :=
  match search with
  | [] => serverConf
  | path :: rest =>
      if stat path then Some path else search_loop stat rest (Some path)
  end.

Definition search_paths (env : Env) : list string :=
  [ "./server.local.yaml"%string; "./server.yaml"%string;
    Join env (RootPath env) "server.yaml"%string ].

Definition Load (env : Env) (g : Globals) : Outcome (Globals * option string) :=
  match checkMode env with
  | Panics => Panics
  | Returns _ =>
      let sc := search_loop (Stat env) (search_paths env) (serverConf g) in
      let fresh := mkConf EmptyString (mkFilters (mkExclude false []) []) (DefaultListenPort env) in
      match sc with
      | None => Panics
      | Some path =>
          let confBytes := ReadFileWithDefault env path [] in
          let (c, err) := Unmarshal env confBytes fresh in
          Returns (mkGlobals (Some c) sc, err)
      end
  end.

End Conf.

(** ** Package [indexer]: the demo run *)

Module Indexer.

(** The filters [demo] builds: its own [GitIgnoreFilter] and the two of
    package [utils]. *)
Inductive Filter : Type :=
| GitIgnoreFilter (baseDir : string)
| SimpleFilterExclude (patterns : list string) (baseDir : string)
| SimpleFilter (patterns : list string) (baseDir : string).

(** A parsed document, as far as [demo] looks into it: the length of
    [Content.Words] of a document that is not nil. *)
Record Document : Type := mkDocument {
  Words : list string          (* field [Content.Words] *)
}.

(** What [demo] takes from outside. [ListFiles] gives the paths of the
    files found and whether it failed; [Parse] gives the document pointer
    (nil is [None]) and whether it failed. *)
Record Env : Type := mkEnv {
  IsIgnored : string -> string -> bool -> bool;     (* gitutils.NewGitIgnore(baseDir).IsIgnored *)
  SimpleMatch : Filter -> string -> bool -> bool;   (* Match of the filters of utils *)
  ListFiles : string -> Filter -> list string * bool;
  Base : string -> string;                          (* filepath.Base *)
  Parse : string -> string -> option Document * bool
}.

Definition Match (env : Env) (f : Filter) (path : string) (isDir : bool) : bool :=
  match f with
  | GitIgnoreFilter baseDir => negb (IsIgnored env baseDir path isDir)
  | _ => SimpleMatch env f path isDir
  end.

Inductive Exit : Type :=
| NoPath         (* [ForTest.Path] is not set *)
| ShuttingDown   (* [running.IsShuttingDown()] answered true *)
| Finished.

(** What a run leaves behind: the batches handed to [storage.Save], in
    order, and the counters of the last progress line. *)
Record Run : Type := mkRun {
  saved : list (list (option Document));
  succ : Z;
  faied : Z;
  wordCount : Z;
  exit : Exit
}.

(** The first loop: the files whose base name the include filter matches.
    Each round asks [running.IsShuttingDown()] once; [shut] holds the
    answers to come (false once used up). *)
Fixpoint filter_loop (env : Env) (filter : Filter) (shut : list bool)
    (files filteredFiles : list string) : option (list string) * list bool :=
  match files with
  | [] => (Some filteredFiles, shut)
  | file :: rest =>
      if hd false shut then (None, tl shut)
      else
        let baseName := Base env file in
        if Match env filter baseName false
        then filter_loop env filter (tl shut) rest (filteredFiles ++ [file])
        else filter_loop env filter (tl shut) rest filteredFiles
  end.

(** The second loop: parse, count, collect, and save every time more than
    100 documents are waiting. *)
Fixpoint parse_loop (env : Env) (baseDir : string) (shut : list bool)
    (files : list string) (docs : list (option Document)) (r : Run) : Outcome Run :=
  match files with
  | [] =>
      Returns (if (0 <? length docs)%nat
               then mkRun (saved r ++ [docs]) (succ r) (faied r) (wordCount r) Finished
               else mkRun (saved r) (succ r) (faied r) (wordCount r) Finished)
  | file :: rest =>
      if hd false shut
      then Returns (mkRun (saved r) (succ r) (faied r) (wordCount r) ShuttingDown)
      else
        let (doc, err) := Parse env file baseDir in
        let counted :=
          if err then Some (succ r, GoInt.add (faied r) 1, wordCount r)
          else match doc with
               | None => None
               | Some d =>
                   Some (GoInt.add (succ r) 1, faied r,
                         GoInt.add (wordCount r) (Z.of_nat (length (Words d))))
               end in
        match counted with
        | None => Panics
        | Some (s, f, wc) =>
            let docs := docs ++ [doc] in
            if (100 <? length docs)%nat
            then parse_loop env baseDir (tl shut) rest []
                   (mkRun (saved r ++ [docs]) s f wc (exit r))
            else parse_loop env baseDir (tl shut) rest docs
                   (mkRun (saved r) s f wc (exit r))
        end
  end.

(** [demo]. The log lines, and the clock that spaces them, are left out. *)
Definition demo (cenv : Conf.Env) (g : Conf.Globals) (env : Env) (shut : list bool)
  : Outcome Run :=
  match Conf.Get cenv g with
  | Panics => Panics
  | Returns None => Panics
  | Returns (Some conf) =>
      let baseDir := Conf.ForTest_Path conf in
      if String.eqb baseDir EmptyString then Returns (mkRun [] 0 0 0 NoPath)
      else
        let customized := Conf.Customized (Conf.exclude (Conf.filters conf)) in
        let filter :=
          if Conf.UseGitIgnore (Conf.exclude (Conf.filters conf))
          then GitIgnoreFilter baseDir
          else SimpleFilterExclude customized baseDir in
        let (found, err) := ListFiles env baseDir (SimpleFilterExclude customized baseDir) in
        let files := if err then [] else found in
        let filter := SimpleFilter (Conf.Include (Conf.filters conf)) baseDir in
        match filter_loop env filter shut files [] with
        | (None, _) => Returns (mkRun [] 0 0 0 ShuttingDown)
        | (Some filteredFiles, shut') =>
            parse_loop env baseDir shut' filteredFiles [] (mkRun [] 0 0 0 Finished)
        end
  end.

(** The files [demo] has after listing, and those it goes on to parse
    when nothing stops it. *)
Definition listed (env : Env) (conf : Conf.Conf) : list string :=
  let baseDir := Conf.ForTest_Path conf in
  let customized := Conf.Customized (Conf.exclude (Conf.filters conf)) in
  let (found, err) := ListFiles env baseDir (SimpleFilterExclude customized baseDir) in
  if err then [] else found.

Definition included (env : Env) (conf : Conf.Conf) : list string :=
  List.filter
    (fun file =>
       Match env (SimpleFilter (Conf.Include (Conf.filters conf)) (Conf.ForTest_Path conf))
             (Base env file) false)
    (listed env conf).

(** What [Parse] hands back for each file, failed or not. *)
Definition parsed (env : Env) (baseDir : string) (files : list string)
  : list (option Document) :=
  map (fun file => fst (Parse env file baseDir)) files.

Definition successes (env : Env) (baseDir : string) (files : list string) : nat :=
  length (List.filter (fun file => negb (snd (Parse env file baseDir))) files).

Definition failures (env : Env) (baseDir : string) (files : list string) : nat :=
  length (List.filter (fun file => snd (Parse env file baseDir)) files).

(** [Parse] gives a document whenever it gives no error. *)
Definition parses (env : Env) (baseDir : string) (file : string) : Prop :=
  Parse env file baseDir <> (None, false).

(** The first [n] answers of [running.IsShuttingDown()] are all false. *)
Definition quiet (n : nat) (shut : list bool) : Prop :=
  forall j, (j < n)%nat -> nth j shut false = false.

End Indexer.

(** ** Sample configuration and sample tree *)

Definition sample_conf_env : Conf.Env :=
  Conf.mkEnv true "/opt/indexer" 8080
    (fun dir name => String.append dir (String.append "/" name))
    (fun path => String.eqb path "./server.yaml")
    (fun _ default => default)
    (fun _ c => (c, None)).

Definition sample_conf : Conf.Conf :=
  Conf.mkConf "/src"
    (Conf.mkFilters (Conf.mkExclude true ["*.tmp"%string]) ["*.go"%string]) 8080.

Definition sample_globals : Conf.Globals :=
  Conf.mkGlobals (Some sample_conf) (Some "./server.yaml"%string).

(** Three files are listed, the include filter drops the second, and the
    third does not parse. *)
Definition sample_tree : Indexer.Env :=
  Indexer.mkEnv
    (fun _ _ _ => false)
    (fun f path _ =>
       match f with
       | Indexer.SimpleFilter _ _ => negb (String.eqb path "notes.txt")
       | _ => true
       end)
    (fun _ _ => (["a.go"%string; "notes.txt"%string; "b.go"%string], false))
    (fun path => path)
    (fun file _ =>
       if String.eqb file "b.go" then (None, true)
       else (Some (Indexer.mkDocument ["func"%string; "main"%string]), false)).

(** ** Accounting for the engine's snapshots *)

(** Snapshot [h] is still in the registry or has been released. *)
Definition settled (h : nat) (w : World) : Prop :=
  is_Some (activeSnaps (store w) !! Some h) \/ In h (released (engine w)).

(** No snapshot the engine has handed out is lost: each one is registered
    or released. *)
Definition accounted (w : World) : Prop :=
  forall h, (h < Engine.next_snapshot (engine w))%nat -> settled h w.

(** Some lease has not been released yet. *)
Definition lease_out (w : World) : Prop :=
  exists a h, leases w !! a = Some (mkSnap (Some h)).

(** A short life of the sample store: a lease is taken, the snapshot is
    advanced, a key is written, the lease is released and the snapshot is
    advanced once more. *)
Definition busy_calls : list Call :=
  [ CallGetSnapshot; CallTakeSnapshot None;
    CallPut None (bytes_of "user:4") (bytes_of "v4");
    CallRelease 0; CallTakeSnapshot None ].

Definition busy_world : World :=
  match run busy_calls sample_world with
  | Returns w => w
  | Panics => sample_world
  end.

(** * Properties *)

(** ** Arithmetic on [int] *)

Lemma wrap_in_range (z : Z) : GoInt.in_range z -> GoInt.wrap z = z.
Proof.
  unfold GoInt.in_range, GoInt.wrap, GoInt.min_int, GoInt.max_int.
  intros Hz. rewrite Z.mod_small; lia.
Qed.

Lemma int_add_one (c : Z) :
  (GoInt.min_int <= c < GoInt.max_int)%Z -> GoInt.add c 1 = (c + 1)%Z.
Proof.
  intros Hc. apply wrap_in_range. unfold GoInt.in_range in *.
  unfold GoInt.min_int, GoInt.max_int in *. lia.
Qed.

Lemma int_sub_one (c : Z) :
  (1 < c <= GoInt.max_int)%Z -> GoInt.sub c 1 = (c - 1)%Z.
Proof.
  intros Hc. apply wrap_in_range. unfold GoInt.in_range in *.
  unfold GoInt.min_int, GoInt.max_int in *. lia.
Qed.

(** ** Byte strings and their order *)

Lemma byte_compare_eq (x y : Byte.byte) : byte_compare x y = Eq <-> x = y.
Proof.
  unfold byte_compare. rewrite N.compare_eq_iff. split.
  - intros H. pose proof (Byte.of_to_N x) as Hx. rewrite H in Hx.
    rewrite Byte.of_to_N in Hx. congruence.
  - intros ->. reflexivity.
Qed.

Lemma byte_compare_refl (x : Byte.byte) : byte_compare x x = Eq.
Proof. apply byte_compare_eq. reflexivity. Qed.

Lemma bytes_compare_eq (a b : bytes) : bytes_compare a b = Eq <-> a = b.
Proof.
  revert b. induction a as [|x a IH]; intros [|y b]; simpl; try (split; congruence).
  destruct (byte_compare x y) eqn:E.
  - apply byte_compare_eq in E. subst y. rewrite IH. split; congruence.
  - split; [discriminate|]. intros [= -> _]. rewrite byte_compare_refl in E. discriminate.
  - split; [discriminate|]. intros [= -> _]. rewrite byte_compare_refl in E. discriminate.
Qed.

Lemma bytes_compare_refl (a : bytes) : bytes_compare a a = Eq.
Proof. apply bytes_compare_eq. reflexivity. Qed.

Lemma bytes_compare_antisym (a b : bytes) :
  bytes_compare b a = CompOpp (bytes_compare a b).
Proof.
  revert b. induction a as [|x a IH]; intros [|y b]; simpl; try reflexivity.
  unfold byte_compare at 1 2. rewrite (N.compare_antisym (Byte.to_N x) (Byte.to_N y)).
  destruct (Byte.to_N x ?= Byte.to_N y)%N; simpl; auto.
Qed.

Lemma bytes_lt_trans (a b c : bytes) : bytes_lt a b -> bytes_lt b c -> bytes_lt a c.
Proof.
  unfold bytes_lt. revert b c.
  induction a as [|x a IH]; intros [|y b] [|z c]; simpl; try congruence.
  unfold byte_compare.
  destruct (Byte.to_N x ?= Byte.to_N y)%N eqn:Exy; try discriminate;
    destruct (Byte.to_N y ?= Byte.to_N z)%N eqn:Eyz; try discriminate; intros H1 H2.
  - apply N.compare_eq_iff in Exy, Eyz. rewrite Exy, Eyz, N.compare_refl. eauto.
  - apply N.compare_eq_iff in Exy. rewrite Exy, Eyz. reflexivity.
  - apply N.compare_eq_iff in Eyz. rewrite <- Eyz, Exy. reflexivity.
  - rewrite N.compare_lt_iff in Exy, Eyz.
    assert ((Byte.to_N x ?= Byte.to_N z)%N = Lt) as -> by (apply N.compare_lt_iff; lia).
    reflexivity.
Qed.

Lemma bytes_lt_irrefl (a : bytes) : ~ bytes_lt a a.
Proof. unfold bytes_lt. rewrite bytes_compare_refl. discriminate. Qed.

Lemma has_prefix_app (p k : bytes) :
  has_prefix p k = true <-> exists rest, k = p ++ rest.
Proof.
  revert k. induction p as [|x p IH]; intros k; simpl.
  - split; eauto.
  - destruct k as [|y k].
    + split; [discriminate|]. intros [rest H]. discriminate.
    + destruct (byte_compare x y) eqn:E.
      * apply byte_compare_eq in E. subst y. rewrite IH.
        split; intros [rest H]; exists rest; congruence.
      * split; [discriminate|]. intros [rest [= -> _]].
        rewrite byte_compare_refl in E. discriminate.
      * split; [discriminate|]. intros [rest [= -> _]].
        rewrite byte_compare_refl in E. discriminate.
Qed.

Lemma byte_succ_to_N (c : Byte.byte) :
  (Byte.to_N c < 255)%N -> Byte.to_N (byte_succ c) = (Byte.to_N c + 1)%N.
Proof.
  intros Hc. unfold byte_succ.
  destruct (Byte.of_N (Byte.to_N c + 1)) as [c'|] eqn:E.
  - apply Byte.to_of_N. exact E.
  - apply Byte.of_N_None_iff in E. lia.
Qed.

(** The range of [util.BytesPrefix] holds exactly the keys with the prefix. *)
Lemma within_BytesPrefix (prefix k : bytes) :
  within (BytesPrefix prefix) k = has_prefix prefix k.
Proof.
  unfold within, BytesPrefix. simpl. revert k.
  induction prefix as [|c rest IH]; intros k.
  - simpl. destruct k; reflexivity.
  - destruct k as [|y k]; [reflexivity|].
    specialize (IH k). simpl. unfold byte_compare in *.
    destruct (Byte.to_N c ?= Byte.to_N y)%N eqn:Ecy.
    + rewrite <- IH. apply N.compare_eq_iff in Ecy.
      destruct (bytes_compare rest k); try reflexivity;
        (destruct (prefix_limit rest) as [l|];
         [simpl; unfold byte_compare; rewrite <- Ecy, N.compare_refl; reflexivity|]);
        (destruct (Byte.to_N c <? 255)%N eqn:Hff; [|reflexivity]);
        apply N.ltb_lt in Hff; simpl; unfold byte_compare;
        rewrite byte_succ_to_N, <- Ecy by exact Hff;
        (assert ((Byte.to_N c ?= Byte.to_N c + 1)%N = Lt) as ->
           by (apply N.compare_lt_iff; lia)); reflexivity.
    + pose proof (proj1 (N.compare_lt_iff _ _) Ecy) as Hlt.
      destruct (prefix_limit rest) as [l|].
      * simpl. unfold byte_compare.
        rewrite (N.compare_antisym (Byte.to_N c) (Byte.to_N y)), Ecy. reflexivity.
      * destruct (Byte.to_N c <? 255)%N eqn:Hff.
        -- apply N.ltb_lt in Hff. simpl. unfold byte_compare.
           rewrite byte_succ_to_N by exact Hff.
           destruct (Byte.to_N y ?= Byte.to_N c + 1)%N eqn:E.
           ++ destruct k; reflexivity.
           ++ pose proof (proj1 (N.compare_lt_iff _ _) E) as E'. lia.
           ++ reflexivity.
        -- apply N.ltb_ge in Hff. pose proof (Byte.to_N_bounded y). lia.
    + reflexivity.
Qed.

Example BytesPrefix_text :
  BytesPrefix (list_byte_of_string "user:")
  = mkRange (list_byte_of_string "user:") (Some (list_byte_of_string "user;")).
Proof. reflexivity. Qed.

Example BytesPrefix_trailing_ff :
  BytesPrefix [x61; xff; xff] = mkRange [x61; xff; xff] (Some [x62])
  /\ BytesPrefix [xff; xff] = mkRange [xff; xff] None.
Proof. split; reflexivity. Qed.

Lemma copy_make (k : bytes) : copy (make_bytes (length k)) k = k.
Proof.
  unfold copy, make_bytes. rewrite repeat_length, Nat.min_id.
  rewrite firstn_all, skipn_all2 by (rewrite repeat_length; lia).
  apply app_nil_r.
Qed.

(** ** The table *)

Lemma keys_put_bound (lo k v : bytes) (t : list entry) :
  bytes_lt lo k -> Forall (bytes_lt lo) (Table.keys t) ->
  Forall (bytes_lt lo) (Table.keys (Table.put k v t)).
Proof.
  intros Hk. induction t as [|[k' v'] t IH]; simpl; intros Ht.
  - repeat constructor. exact Hk.
  - inversion Ht; subst. destruct (bytes_compare k k'); simpl; constructor; auto.
Qed.

Lemma put_ascending (k v : bytes) (t : list entry) :
  Table.ascending t -> Table.ascending (Table.put k v t).
Proof.
  unfold Table.ascending. induction t as [|[k' v'] t IH]; simpl; intros Ht.
  - repeat constructor.
  - apply StronglySorted_inv in Ht as [Ht Hk'].
    destruct (bytes_compare k k') eqn:E; simpl.
    + apply bytes_compare_eq in E. subst k'. constructor; assumption.
    + constructor; [constructor; assumption|].
      constructor; [exact E|].
      eapply Forall_impl; [exact Hk'|]. intros c Hc.
      eapply bytes_lt_trans; eassumption.
    + constructor; [auto|]. apply keys_put_bound; [|assumption].
      unfold bytes_lt. rewrite bytes_compare_antisym, E. reflexivity.
Qed.

Lemma keys_delete_bound (lo k : bytes) (t : list entry) :
  Forall (bytes_lt lo) (Table.keys t) ->
  Forall (bytes_lt lo) (Table.keys (Table.delete k t)).
Proof.
  induction t as [|[k' v'] t IH]; simpl; intros Ht; [constructor|].
  inversion Ht; subst. destruct (bytes_compare k k'); simpl; auto.
Qed.

Lemma delete_ascending (k : bytes) (t : list entry) :
  Table.ascending t -> Table.ascending (Table.delete k t).
Proof.
  unfold Table.ascending. induction t as [|[k' v'] t IH]; simpl; intros Ht; [constructor|].
  apply StronglySorted_inv in Ht as [Ht Hk'].
  destruct (bytes_compare k k'); simpl; auto;
    (constructor; [auto | apply keys_delete_bound; assumption]).
Qed.

Lemma get_put_same (k v : bytes) (t : list entry) :
  Table.get k (Table.put k v t) = Some v.
Proof.
  induction t as [|[k' v'] t IH]; simpl.
  - rewrite bytes_compare_refl. reflexivity.
  - destruct (bytes_compare k k') eqn:E; simpl.
    + rewrite bytes_compare_refl. reflexivity.
    + rewrite bytes_compare_refl. reflexivity.
    + rewrite E. exact IH.
Qed.

Lemma get_delete_same (k : bytes) (t : list entry) :
  Table.ascending t -> Table.get k (Table.delete k t) = None.
Proof.
  unfold Table.ascending. induction t as [|[k' v'] t IH]; simpl; intros Ht; [reflexivity|].
  apply StronglySorted_inv in Ht as [Ht Hk'].
  destruct (bytes_compare k k') eqn:E; simpl.
  - apply bytes_compare_eq in E. subst k'.
    clear IH Ht. induction t as [|[k2 v2] t IH]; simpl; [reflexivity|].
    inversion Hk'; subst. simpl in *. unfold bytes_lt in *.
    match goal with H : bytes_compare k k2 = Lt |- _ => rewrite H end. auto.
  - rewrite E. auto.
  - rewrite E. auto.
Qed.

Lemma get_In (k v : bytes) (t : list entry) :
  Table.ascending t -> In (k, v) t -> Table.get k t = Some v.
Proof.
  unfold Table.ascending. induction t as [|[k' v'] t IH]; simpl; intros Ht Hin; [tauto|].
  apply StronglySorted_inv in Ht as [Ht Hk'].
  destruct Hin as [[= -> ->]|Hin].
  - rewrite bytes_compare_refl. reflexivity.
  - assert (bytes_lt k' k) as Hlt.
    { rewrite List.Forall_forall in Hk'. apply Hk'. unfold Table.keys.
      apply (in_map fst) in Hin. exact Hin. }
    unfold bytes_lt in Hlt. rewrite bytes_compare_antisym, Hlt. simpl. auto.
Qed.

Lemma slice_prefix_In (prefix : bytes) (t : list entry) (kv : entry) :
  In kv (Table.slice (BytesPrefix prefix) t)
  <-> In kv t /\ has_prefix prefix (fst kv) = true.
Proof.
  unfold Table.slice. rewrite filter_In, within_BytesPrefix. reflexivity.
Qed.

Lemma sublist_keys_bound (lo : bytes) (t : list entry) (f : entry -> bool) :
  Forall (bytes_lt lo) (Table.keys t) ->
  Forall (bytes_lt lo) (Table.keys (List.filter f t)).
Proof.
  induction t as [|kv t IH]; simpl; intros Ht; [constructor|].
  inversion Ht; subst. destruct (f kv); simpl; auto.
Qed.

Lemma slice_ascending (r : Range) (t : list entry) :
  Table.ascending t -> Table.ascending (Table.slice r t).
Proof.
  unfold Table.ascending, Table.slice.
  induction t as [|kv t IH]; simpl; intros Ht; [constructor|].
  apply StronglySorted_inv in Ht as [Ht Hk].
  destruct (within r (fst kv)); simpl; auto.
  constructor; [auto | apply sublist_keys_bound; assumption].
Qed.

Lemma firstn_In {A : Type} (n : nat) (l : list A) (x : A) :
  In x (firstn n l) -> In x l.
Proof.
  revert n. induction l as [|y l IH]; intros [|n]; simpl; try tauto.
  intros [->|H]; eauto.
Qed.

Lemma firstn_ascending (n : nat) (t : list entry) :
  Table.ascending t -> Table.ascending (firstn n t).
Proof.
  unfold Table.ascending. revert n.
  induction t as [|kv t IH]; intros [|n]; simpl; intros Ht; try constructor.
  - apply StronglySorted_inv in Ht as [Ht Hk]. auto.
  - apply StronglySorted_inv in Ht as [Ht Hk].
    rewrite List.Forall_forall in *. intros k Hin. apply Hk.
    unfold Table.keys in *. rewrite in_map_iff in *.
    destruct Hin as [e [He Hin]]. exists e. split; [assumption|].
    eapply firstn_In; eauto.
Qed.

(** ** Slices in memory *)

Lemma read_app_l (s : Mem.Slice) (m m' : Mem.Heap) :
  (s < length m)%nat -> Mem.read s (m ++ m') = Mem.read s m.
Proof.
  intros Hs. unfold Mem.read, Mem.Heap, Mem.Slice in *.
  rewrite lookup_app_l by exact Hs. reflexivity.
Qed.

Lemma read_end (m : Mem.Heap) (a : bytes) (l : Mem.Heap) :
  Mem.read (length m) (m ++ a :: l) = a.
Proof.
  unfold Mem.read, Mem.Heap, Mem.Slice in *.
  rewrite list_lookup_middle by reflexivity. reflexivity.
Qed.

Lemma write_end (m : Mem.Heap) (a x : bytes) (l : Mem.Heap) :
  Mem.write (length m) x (m ++ a :: l) = m ++ x :: l.
Proof.
  unfold Mem.write, Mem.Heap, Mem.Slice in *.
  rewrite insert_app_r_alt, Nat.sub_diag by lia. reflexivity.
Qed.

Lemma cells_app (acc acc' : list entry) : cells (acc ++ acc') = cells acc ++ cells acc'.
Proof. apply flat_map_app. Qed.

Lemma cells_length (acc : list entry) : length (cells acc) = (2 * length acc)%nat.
Proof. induction acc as [|kv acc IH]; simpl; [reflexivity|]. rewrite IH. lia. Qed.

Lemma slots_length (base n : nat) : length (slots base n) = n.
Proof. revert base. induction n as [|n IH]; intros base; simpl; [|rewrite IH]; reflexivity. Qed.

Lemma slots_snoc (base n : nat) :
  slots base (S n) = slots base n ++ [((base + 2 * n)%nat, S (base + 2 * n))].
Proof.
  revert base. induction n as [|n IH]; intros base.
  - simpl. rewrite Nat.add_0_r. reflexivity.
  - change (slots base (S (S n))) with ((base, S base) :: slots (S (S base)) (S n)).
    rewrite IH. simpl. repeat f_equal; lia.
Qed.

Lemma slots_bound (base n : nat) (s : Mem.Slice) :
  In s (arrays (slots base n)) -> (base <= s)%nat.
Proof.
  revert base. induction n as [|n IH]; intros base; simpl; [tauto|].
  intros [<-|[<-|Hin]]; [lia|lia|]. apply IH in Hin. lia.
Qed.

(** No two of the slices share an array. *)
Lemma slots_NoDup (base n : nat) : NoDup (arrays (slots base n)).
Proof.
  revert base. induction n as [|n IH]; intros base; simpl; [constructor|].
  rewrite !NoDup_cons. split; [|split; [|apply IH]].
  - rewrite list_elem_of_In. simpl. intros [H|H]; [lia|].
    apply slots_bound in H. lia.
  - intros H. apply list_elem_of_In, slots_bound in H. lia.
Qed.

(** The slices read the copied entries, whatever else the memory holds
    before them. *)
Lemma contents_slots (pre : Mem.Heap) (acc : list entry) :
  contents (pre ++ cells acc) (slots (length pre) (length acc)) = acc.
Proof.
  revert pre. induction acc as [|[k v] acc IH]; intros pre; [reflexivity|].
  simpl. f_equal.
  - rewrite read_end.
    replace (pre ++ k :: v :: cells acc)
      with ((pre ++ [k]) ++ v :: cells acc) by (rewrite <- app_assoc; reflexivity).
    replace (S (length pre)) with (length (pre ++ [k]))
      by (rewrite length_app; simpl; lia).
    rewrite read_end. reflexivity.
  - replace (pre ++ k :: v :: cells acc)
      with ((pre ++ [k; v]) ++ cells acc) by (rewrite <- app_assoc; reflexivity).
    replace (S (S (length pre))) with (length (pre ++ [k; v]))
      by (rewrite length_app; simpl; lia).
    apply IH.
Qed.

(** A write to an array that none of the slices views is not seen
    through them. *)
Lemma contents_write (s : Mem.Slice) (b : bytes) (m : Mem.Heap)
    (results : list (Mem.Slice * Mem.Slice)) :
  ~ In s (arrays results) ->
  contents (Mem.write s b m) results = contents m results.
Proof.
  induction results as [|[ks vs] results IH]; intros Hs; [reflexivity|].
  simpl in *. rewrite IH by tauto. unfold Mem.read, Mem.write, Mem.Heap, Mem.Slice in *.
  rewrite !list_lookup_insert_ne by (intros ->; tauto). reflexivity.
Qed.

(** The body of the loop appends a copy of what the iterator's arrays
    hold. *)
Lemma copy_entry_app (m : Mem.Heap) :
  (2 <= length m)%nat ->
  copy_entry m =
  (m ++ [Mem.read Engine.iter_key m; Mem.read Engine.iter_value m],
   (length m, S (length m))).
Proof.
  intros Hm. unfold copy_entry, Mem.make, Mem.copy, Engine.iter_key, Engine.iter_value.
  rewrite <- !app_assoc. simpl app.
  replace (length (m ++ [make_bytes (length (Mem.read 0 m))])) with (S (length m))
    by (rewrite length_app; simpl; lia).
  rewrite (read_app_l 1 m [_]) by lia.
  rewrite read_end, read_app_l, copy_make, write_end by lia.
  replace (m ++ Mem.read 0 m :: [make_bytes (length (Mem.read 1 m))])
    with ((m ++ [Mem.read 0 m]) ++ [make_bytes (length (Mem.read 1 m))])
    by (rewrite <- app_assoc; reflexivity).
  replace (S (length m)) with (length (m ++ [Mem.read 0 m]))
    by (rewrite length_app; simpl; lia).
  rewrite read_end, read_app_l, read_app_l, copy_make, write_end
    by (rewrite ?length_app; simpl; lia).
  rewrite <- app_assoc. reflexivity.
Qed.

Lemma copy_entry_cells (k v : bytes) (acc : list entry) :
  copy_entry (k :: v :: cells acc) =
  (k :: v :: cells (acc ++ [(k, v)]),
   ((2 + 2 * length acc)%nat, S (2 + 2 * length acc))).
Proof.
  rewrite copy_entry_app by (simpl; lia).
  simpl length. rewrite cells_length, cells_app. reflexivity.
Qed.

(** ** The loop of [Scan] *)

(** One round of the loop on an entry. *)
Lemma scan_loop_step (limit : Z) (fs : list Fault) (k v : bytes)
    (pending : list entry) (kb vb : bytes) (acc : list entry) :
  hd None fs = None ->
  scan_loop limit fs ((k, v) :: pending) (kb :: vb :: cells acc) (slots 2 (length acc)) =
  if (0 <? limit)%Z && (limit <=? Z.of_nat (length acc))%Z
  then (k :: v :: cells acc, slots 2 (length acc), None)
  else scan_loop limit (tl fs) pending (k :: v :: cells (acc ++ [(k, v)]))
                 (slots 2 (length (acc ++ [(k, v)]))).
Proof.
  intros Hhd. cbn [scan_loop]. rewrite Hhd.
  change (Engine.iter_move k v (kb :: vb :: cells acc)) with (k :: v :: cells acc).
  cbv zeta. rewrite slots_length.
  destruct ((0 <? limit)%Z && (limit <=? Z.of_nat (length acc))%Z); [reflexivity|].
  rewrite copy_entry_cells, length_app, Nat.add_1_r, slots_snoc. reflexivity.
Qed.

Lemma scan_loop_quiet (limit : Z) (pending : list entry) :
  forall (fs : list Fault) (acc : list entry) (n : nat) (kb vb : bytes),
    n = scan_budget limit (length acc) (length pending) ->
    (forall j, (j <= n)%nat -> nth j fs None = None) ->
    exists kb' vb',
      scan_loop limit fs pending (kb :: vb :: cells acc) (slots 2 (length acc)) =
      (kb' :: vb' :: cells (acc ++ firstn n pending),
       slots 2 (length (acc ++ firstn n pending)), None).
Proof.
  induction pending as [|[k v] pending IH]; intros fs acc n kb vb Hn Hq.
  - assert (n = 0%nat) as -> by (unfold scan_budget in Hn; destruct (0 <? limit)%Z; simpl in Hn; lia).
    exists kb, vb.
    simpl. specialize (Hq 0%nat (Nat.le_refl _)). destruct fs as [|f fs]; simpl in *.
    + rewrite app_nil_r. reflexivity.
    + subst f. rewrite app_nil_r. reflexivity.
  - assert (hd None fs = None) as Hhd.
    { specialize (Hq 0%nat (Nat.le_0_l _)). destruct fs; simpl in *; auto. }
    rewrite scan_loop_step by exact Hhd.
    destruct ((0 <? limit)%Z && (limit <=? Z.of_nat (length acc))%Z) eqn:Hbrk.
    + apply andb_true_iff in Hbrk as [H0 Hl].
      apply Z.ltb_lt in H0. apply Z.leb_le in Hl.
      assert (n = 0%nat) as ->.
      { unfold scan_budget in Hn. apply Z.ltb_lt in H0. rewrite H0 in Hn. lia. }
      exists k, v. simpl. rewrite app_nil_r. reflexivity.
    + assert (exists n', n = S n' /\
                n' = scan_budget limit (length (acc ++ [(k, v)])) (length pending))
        as [n' [-> Hn']].
      { unfold scan_budget in *. rewrite length_app. simpl in *.
        destruct (0 <? limit)%Z eqn:H0; simpl in Hbrk.
        - apply Z.leb_gt in Hbrk. exists (Nat.pred n). split; lia.
        - exists (length pending). split; [lia|reflexivity]. }
      destruct (IH (tl fs) (acc ++ [(k, v)]) n' k v Hn') as (kb' & vb' & Hloop).
      * intros j Hj. specialize (Hq (S j) ltac:(lia)).
        destruct fs; simpl in *; [destruct j|]; auto.
      * exists kb', vb'. rewrite Hloop. simpl. rewrite <- app_assoc. reflexivity.
Qed.

Lemma scan_loop_fault (limit : Z) (e : EngineErr) :
  forall (i : nat) (pending : list entry) (fs : list Fault) (acc : list entry)
         (kb vb : bytes),
    (i <= scan_budget limit (length acc) (length pending))%nat ->
    (forall j, (j < i)%nat -> nth j fs None = None) ->
    nth i fs None = Some e ->
    exists m results,
      scan_loop limit fs pending (kb :: vb :: cells acc) (slots 2 (length acc)) =
      (m, results, Some e).
Proof.
  induction i as [|i IH]; intros pending fs acc kb vb Hi Hq He.
  - destruct fs as [|f fs]; simpl in He; [discriminate|]. subst f.
    destruct pending; simpl; eauto.
  - assert (hd None fs = None) as Hhd.
    { specialize (Hq 0%nat ltac:(lia)). destruct fs; simpl in *; auto. }
    destruct pending as [|[k v] pending].
    { unfold scan_budget in Hi. destruct (0 <? limit)%Z; simpl in Hi; lia. }
    rewrite scan_loop_step by exact Hhd.
    assert ((0 <? limit)%Z && (limit <=? Z.of_nat (length acc))%Z = false) as ->.
    { unfold scan_budget in Hi. destruct (0 <? limit)%Z eqn:H0; simpl; [|reflexivity].
      apply Z.leb_gt. lia. }
    apply (IH pending (tl fs) (acc ++ [(k, v)])).
    + unfold scan_budget in *. rewrite length_app. simpl in *.
      destruct (0 <? limit)%Z; lia.
    + intros j Hj. specialize (Hq (S j) ltac:(lia)).
      destruct fs; simpl in *; [destruct j|]; auto.
    + destruct fs; simpl in *; [discriminate|exact He].
Qed.

(** ** The release-or-decrement step, case by case *)

Lemma release_nil (w : World) : releaseSnapInternal None w = w.
Proof. reflexivity. Qed.

Lemma release_shared (h : nat) (c : Z) (w : World) :
  activeSnaps (store w) !! Some h = Some c -> (1 < c)%Z ->
  releaseSnapInternal (Some h) w =
  with_store (set_activeSnaps (<[Some h := GoInt.sub c 1]> (activeSnaps (store w)))
                              (store w)) w.
Proof.
  intros Hc Hlt. unfold releaseSnapInternal, count_of. rewrite Hc. simpl.
  apply Z.ltb_lt in Hlt. rewrite Hlt. reflexivity.
Qed.

Lemma release_last (h : nat) (w : World) :
  (forall c, activeSnaps (store w) !! Some h = Some c -> (c <= 1)%Z) ->
  releaseSnapInternal (Some h) w =
  with_store (set_activeSnaps (delete (Some h) (activeSnaps (store w))) (store w))
             (with_engine (Engine.Release h (engine w)) w).
Proof.
  intros Hc. unfold releaseSnapInternal.
  destruct (activeSnaps (store w) !! Some h) as [c|] eqn:E; [|reflexivity].
  specialize (Hc c eq_refl). apply Z.ltb_ge in Hc. rewrite Hc. reflexivity.
Qed.

(** ** Counting leases *)

#[local] Arguments releaseSnapInternal : simpl never.

Ltac decide_all := repeat case_decide; simplify_eq; try lia; try congruence.

Ltac conj_split := repeat match goal with |- _ /\ _ => split end.


Lemma lease_count_app (k : SnapshotPtr) (l1 l2 : list Snap) :
  lease_count k (l1 ++ l2) = (lease_count k l1 + lease_count k l2)%nat.
Proof. induction l1 as [|s l1 IH]; simpl; [reflexivity|]. rewrite IH. lia. Qed.

Lemma lease_count_le (k : SnapshotPtr) (l : list Snap) :
  (lease_count k l <= length l)%nat.
Proof. induction l as [|s l IH]; simpl; [lia|]. destruct (decide _); lia. Qed.

Lemma lease_count_bound (k : SnapshotPtr) (a : nat) (s : Snap) (l : list Snap) :
  l !! a = Some s -> snap_of s = k -> (1 <= lease_count k l)%nat.
Proof.
  revert a. induction l as [|s' l IH]; intros [|a]; simpl; try discriminate.
  - intros [= ->] ->. destruct (decide _); [lia|congruence].
  - intros Ha Hk. specialize (IH a Ha Hk). lia.
Qed.

Lemma lease_count_clear (h : nat) (a : nat) (s : Snap) (l : list Snap) :
  l !! a = Some s ->
  (lease_count (Some h) (<[a := mkSnap None]> l)
   + (if decide (snap_of s = Some h) then 1 else 0)
   = lease_count (Some h) l)%nat.
Proof.
  revert a. induction l as [|s' l IH]; intros [|a]; simpl; try discriminate.
  - intros [= ->]. destruct (decide (None = Some h)); [discriminate|]. lia.
  - intros Ha. specialize (IH a Ha). lia.
Qed.

Lemma holders_le (h : nat) (w : World) :
  (holders h w <= 1 + length (leases w))%nat.
Proof.
  unfold holders, self_ref. pose proof (lease_count_le (Some h) (leases w)).
  destruct (decide _); lia.
Qed.

Lemma count_of_registered (m : gmap (option nat) Z) (k : SnapshotPtr) :
  (1 <= count_of m k)%Z -> m !! k = Some (count_of m k).
Proof. unfold count_of. destruct (m !! k); simpl; [reflexivity|lia]. Qed.

Lemma count_of_insert (m : gmap (option nat) Z) (k k' : SnapshotPtr) (c : Z) :
  count_of (<[k := c]> m) k' = if decide (k = k') then c else count_of m k'.
Proof. unfold count_of. rewrite lookup_insert. destruct (decide _); reflexivity. Qed.

Lemma count_of_delete (m : gmap (option nat) Z) (k k' : SnapshotPtr) :
  count_of (delete k m) k' = if decide (k = k') then 0%Z else count_of m k'.
Proof. unfold count_of. rewrite lookup_delete. destruct (decide _); reflexivity. Qed.

(** In a well-formed world whoever holds a snapshot finds it registered,
    with one count per holder, and not yet released by the engine. *)
Lemma wf_held (h : nat) (w : World) :
  wf w -> (1 <= holders h w)%nat ->
  activeSnaps (store w) !! Some h = Some (Z.of_nat (holders h w))
  /\ Engine.alive h (engine w)
  /\ (Z.of_nat (holders h w) <= GoInt.max_int)%Z.
Proof.
  intros Hwf Hh. pose proof (wf_counts w Hwf h) as Hc.
  assert (activeSnaps (store w) !! Some h = Some (Z.of_nat (holders h w))) as Hreg.
  { rewrite <- Hc. apply count_of_registered. lia. }
  split; [exact Hreg|]. split.
  - apply (wf_alive w Hwf). rewrite Hreg. eauto.
  - pose proof (holders_le h w). pose proof (wf_bounded w Hwf). lia.
Qed.

Lemma wf_current_held (h : nat) (w : World) :
  snap (store w) = Some h -> (1 <= holders h w)%nat.
Proof.
  intros Hs. unfold holders, self_ref. rewrite Hs.
  destruct (decide _); [lia|congruence].
Qed.

Lemma wf_unheld (h : nat) (w : World) :
  wf w -> (Engine.next_snapshot (engine w) <= h)%nat -> holders h w = 0%nat.
Proof.
  intros Hwf Hh. destruct (holders h w) as [|n] eqn:E; [reflexivity|].
  destruct (wf_held h w Hwf) as (_ & [Hlt _] & _); lia.
Qed.

(** ** The invariant is kept *)

Lemma wf_GetSnapshot (w : World) :
  wf w -> (Z.of_nat (length (leases w)) + 1 < GoInt.max_int)%Z ->
  wf (fst (fst (GetSnapshot w))).
Proof.
  intros Hwf Hroom. unfold GetSnapshot.
  destruct (closed (store w)) eqn:Hopen; [exact Hwf|]. simpl.
  destruct (snap (store w)) as [h|] eqn:Hs;
    [|exfalso; apply (proj1 (wf_current w Hwf)); assumption].
  pose proof (wf_current_held h w Hs) as Hheld.
  destruct (wf_held h w Hwf Hheld) as (Hreg & Halive & Hmax).
  pose proof (holders_le h w) as Hle.
  assert (count_of (activeSnaps (store w)) (Some h) = Z.of_nat (holders h w)) as Hc
    by apply (wf_counts w Hwf).
  rewrite Hc, int_add_one by (unfold GoInt.min_int; lia).
  destruct Hwf as [H1 H2 H3 H4 H5 H6 H7 H8 Hcr H9 H10].
  rewrite ?Hopen, ?Hs in *.
  constructor; simpl; rewrite ?Hopen, ?Hs; auto.
  - rewrite lookup_insert_ne by discriminate. exact H4.
  - intros h'. rewrite count_of_insert. specialize (H5 h').
    unfold holders, self_ref in *. simpl. rewrite lease_count_app. simpl.
    rewrite ?Hs in *. repeat case_decide; simplify_eq; lia.
  - intros k c. rewrite lookup_insert. destruct (decide _).
    + intros [= <-]. lia.
    + apply H6.
  - intros h'. rewrite lookup_insert. destruct (decide (Some h = Some h')) as [E|E].
    + inversion E; subst h'. intros _. exact Halive.
    + apply H7.
  - rewrite length_app. simpl. lia.
Qed.

Lemma wf_registry_ok (w : World) :
  wf w -> registry_ok (fun h => holders h w) w.
Proof.
  intros [H1 H2 H3 H4 H5 H6 H7 H8 Hcr H9 H10]. constructor; auto.
  intros h. pose proof (holders_le h w). lia.
Qed.

Lemma release_frame (k : SnapshotPtr) (w : World) :
  same_frame w (releaseSnapInternal k w).
Proof.
  unfold releaseSnapInternal. destruct k as [h|]; [|constructor; reflexivity].
  destruct (activeSnaps (store w) !! Some h) as [c|]; [destruct (1 <? c)%Z|];
    constructor; reflexivity.
Qed.

Lemma release_released (k : SnapshotPtr) (w : World) (x : nat) :
  In x (released (engine (releaseSnapInternal k w))) ->
  k = Some x \/ In x (released (engine w)).
Proof.
  unfold releaseSnapInternal. destruct k as [h|]; [|auto].
  destruct (activeSnaps (store w) !! Some h) as [c|]; [destruct (1 <? c)%Z|];
    simpl; auto; intros [->|H]; auto.
Qed.

(** Dropping one reference to a held snapshot keeps the registry in step. *)
Lemma release_drop (refs : nat -> nat) (h : nat) (w : World) :
  registry_ok refs w -> (1 <= refs h)%nat ->
  registry_ok (fun h' => if decide (h' = h) then (refs h - 1)%nat else refs h')
              (releaseSnapInternal (Some h) w).
Proof.
  intros [Hnil Hcnt Hpos Halive Hrel Hcr Hmax] Hh.
  assert (activeSnaps (store w) !! Some h = Some (Z.of_nat (refs h))) as Hreg.
  { rewrite <- Hcnt. apply count_of_registered. rewrite Hcnt. lia. }
  destruct (decide (1 < refs h)%nat) as [Hshared|Hlast].
  - rewrite (release_shared h _ w Hreg) by lia.
    rewrite int_sub_one by (specialize (Hmax h); lia).
    constructor; simpl; auto.
    + rewrite lookup_insert_ne by discriminate. exact Hnil.
    + intros h'. rewrite count_of_insert. specialize (Hcnt h'). decide_all.
    + intros k c. rewrite lookup_insert. case_decide; [intros [= <-]; lia|apply Hpos].
    + intros h'. rewrite lookup_insert. case_decide; [|apply Halive].
      simplify_eq. intros _. apply Halive. rewrite Hreg. eauto.
    + intros h'. pose proof (Hmax h'). pose proof (Hmax h). decide_all.
  - rewrite release_last by (intros c; rewrite Hreg; intros [= <-]; lia).
    constructor; simpl; auto.
    + rewrite lookup_delete_ne by discriminate. exact Hnil.
    + intros h'. rewrite count_of_delete. specialize (Hcnt h'). decide_all.
    + intros k c. rewrite lookup_delete. case_decide; [discriminate|apply Hpos].
    + intros h'. rewrite lookup_delete. case_decide; [intros [? ?]; discriminate|].
      intros Hin. destruct (Halive h' Hin) as [Hlt Hnot]. split; [exact Hlt|].
      simpl. intros [->|Hin']; [congruence|contradiction].
    + constructor; [|exact Hrel].
      destruct (Halive h) as [_ Hnot]; [rewrite Hreg; eauto|].
      rewrite list_elem_of_In. exact Hnot.
    + intros h' [<-|Hin]; [|auto].
      destruct (Halive h) as [Hlt _]; [rewrite Hreg; eauto|exact Hlt].
    + intros h'. pose proof (Hmax h'). pose proof (Hmax h). decide_all.
Qed.

Lemma registry_ok_ext (refs refs' : nat -> nat) (w w' : World) :
  (forall h, refs h = refs' h) ->
  activeSnaps (store w') = activeSnaps (store w) -> engine w' = engine w ->
  registry_ok refs w -> registry_ok refs' w'.
Proof.
  intros Hext Hm He [Hnil Hcnt Hpos Halive Hrel Hcr Hmax].
  constructor; rewrite ?Hm, ?He; auto.
  - intros h. rewrite <- Hext. apply Hcnt.
  - intros h. rewrite <- Hext. apply Hmax.
Qed.

Lemma wf_release_lease (a : nat) (w : World) : wf w -> wf (release_lease a w).
Proof.
  intros Hwf. unfold release_lease.
  destruct (leases w !! a) as [[[h|]]|] eqn:Ha; [| |exact Hwf].
  - pose proof (lease_count_bound (Some h) a _ _ Ha eq_refl) as Hlc.
    assert (1 <= holders h w)%nat as Hheld by (unfold holders; lia).
    pose proof (release_drop _ h w (wf_registry_ok w Hwf) Hheld) as Hreg.
    pose proof (release_frame (Some h) w) as [F1 F2 F3 F4 F5 F6 F7 F8].
    simpl. remember (releaseSnapInternal (Some h) w) as w1 eqn:Hw1. clear Hw1.
    destruct Hwf as [H1 H2 H3 H4 H5 H6 H7 H8 Hcr H9 H10].
    assert (registry_ok (fun h' => holders h' (with_leases (<[a:=mkSnap None]> (leases w1)) w1))
                        (with_leases (<[a:=mkSnap None]> (leases w1)) w1)) as Hreg'.
    { eapply registry_ok_ext; [| | |exact Hreg]; try reflexivity.
      intros h'. unfold holders, self_ref. simpl. rewrite F1, F5.
      pose proof (lease_count_clear h' a _ _ Ha) as Hclr. simpl in Hclr.
      decide_all. }
    destruct Hreg' as [R1 R2 R3 R4 R5 Rcr R6].
    constructor; simpl; rewrite ?F3, ?F4, ?F5, ?F6, ?F7; auto.
    rewrite length_insert, F1. exact H10.
  - simpl. rewrite list_insert_id by exact Ha. destruct w; exact Hwf.
Qed.

Lemma registry_ok_grow (refs : nat -> nat) (c : bool) (frozen : list entry)
    (w : World) :
  registry_ok refs w ->
  registry_ok refs
    (with_engine (mkLevelDB (table (engine w)) c
                            (snapshots (engine w) ++ [frozen])
                            (released (engine w))) w).
Proof.
  intros [Hnil Hcnt Hpos Halive Hrel Hcr Hmax]. constructor; simpl; auto.
  - intros h Hin. destruct (Halive h Hin) as [Hlt Hnot]. split; [|exact Hnot].
    unfold Engine.next_snapshot in *. simpl. rewrite length_app. simpl. lia.
  - intros h Hin. specialize (Hcr h Hin).
    unfold Engine.next_snapshot in *. simpl. rewrite length_app. simpl. lia.
Qed.

Lemma wf_TakeSnapshot (f : Fault) (w : World) :
  wf w -> exists w' err, TakeSnapshot f w = Returns (w', err) /\ wf w'.
Proof.
  intros Hwf. unfold TakeSnapshot.
  destruct (closed (store w)) eqn:Hopen; [eauto|].
  rewrite (wf_engine_ref w Hwf Hopen). unfold Engine.GetSnapshot.
  rewrite (wf_engine_open w Hwf Hopen).
  destruct f as [err|]; [eauto|].
  do 2 eexists; split; [reflexivity|].
  destruct (snap (store w)) as [h|] eqn:Hs;
    [|exfalso; apply (proj1 (wf_current w Hwf)); assumption].
  pose proof (wf_current_held h w Hs) as Hheld.
  destruct (wf_held h w Hwf Hheld) as (Hreg & [Hlt Hnot] & Hmax).
  pose proof (wf_unheld (Engine.next_snapshot (engine w)) w Hwf (Nat.le_refl _)) as Hnew.
  pose proof (registry_ok_grow _ false (table (engine w)) w (wf_registry_ok w Hwf))
    as Hreg0.
  apply (release_drop _ h) in Hreg0; [|exact Hheld].
  match type of Hreg0 with registry_ok _ (releaseSnapInternal _ ?w0) =>
    pose proof (release_frame (Some h) w0) as [F1 F2 F3 F4 F5 F6 F7 F8];
    pose proof (release_released (Some h) w0) as Fr end.
  simpl in F1, F2, F3, F4, F5, F6, F7, F8, Fr.
  match type of Hreg0 with registry_ok _ ?w1 =>
    remember w1 as w1' eqn:Hw1; clear Hw1 end.
  destruct Hreg0 as [R1 R2 R3 R4 R5 Rcr R6].
  destruct Hwf as [H1 H2 H3 H4 H5 H6 H7 H8 Hcr H9 H10].
  assert (Engine.next_snapshot (engine w1') = S (Engine.next_snapshot (engine w))) as Hnext.
  { unfold Engine.next_snapshot. rewrite F8, length_app. simpl. lia. }
  constructor; simpl; rewrite ?F1, ?F3, ?F4, ?F6, ?F7; auto.
  - split; [discriminate|intros _; exact Hopen].
  - rewrite lookup_insert_ne by discriminate. exact R1.
  - intros h'. rewrite count_of_insert, R2.
    unfold holders, self_ref in *. simpl. rewrite ?F1, ?Hs in *.
    decide_all.
  - intros k c. rewrite lookup_insert. case_decide; [intros [= <-]; lia|apply R3].
  - intros h'. rewrite lookup_insert. case_decide; [|apply R4].
    simplify_eq. intros _. split; [lia|].
    intros Hin. apply Fr in Hin as [Heq|Hin]; [inversion Heq; lia|].
    specialize (Hcr _ Hin). lia.
Qed.

Lemma wf_Close (f : Fault) (w : World) : wf w -> wf (fst (Close f w)).
Proof.
  intros Hwf. unfold Close.
  destruct (closed (store w)) eqn:Hopen; [exact Hwf|].
  destruct ((1 <? size (activeSnaps (store w)))%nat
            || (1 <? count_of (activeSnaps (store w)) (snap (store w)))%Z);
    [exact Hwf|].
  destruct (snap (store w)) as [h|] eqn:Hs;
    [|exfalso; apply (proj1 (wf_current w Hwf)); assumption].
  pose proof (wf_current_held h w Hs) as Hheld.
  pose proof (release_drop _ h w (wf_registry_ok w Hwf) Hheld) as Hreg.
  pose proof (release_frame (Some h) w) as [F1 F2 F3 F4 F5 F6 F7 F8].
  remember (releaseSnapInternal (Some h) w) as w1 eqn:Hw1. clear Hw1.
  simpl. rewrite F3, (wf_engine_ref w Hwf Hopen).
  unfold Engine.Close. simpl. rewrite F7, (wf_engine_open w Hwf Hopen).
  destruct Hreg as [R1 R2 R3 R4 R5 Rcr R6].
  destruct Hwf as [H1 H2 H3 H4 H5 H6 H7 H8 Hcr H9 H10].
  assert (forall h', count_of (activeSnaps (store w1)) (Some h')
                     = Z.of_nat (0 + lease_count (Some h') (leases w))) as Hcnt.
  { intros h'. rewrite R2. unfold holders, self_ref. rewrite Hs. decide_all. }
  destruct f as [err|]; simpl;
    (constructor; simpl; rewrite ?F1, ?F6; auto; try discriminate;
     [split; [discriminate|congruence]
     |intros h'; rewrite Hcnt; unfold holders, self_ref; simpl;
      rewrite F1; decide_all]).
Qed.

Lemma wf_Put (f : Fault) (key value : bytes) (w : World) :
  wf w -> exists w' err, Put f key value w = Returns (w', err) /\ wf w'.
Proof.
  intros Hwf. unfold Put.
  destruct (closed (store w)) eqn:Hopen; [eauto|].
  rewrite (wf_engine_ref w Hwf Hopen). unfold Engine.Put.
  rewrite (wf_engine_open w Hwf Hopen).
  destruct f as [err|]; [destruct w; eauto|].
  do 2 eexists; split; [reflexivity|].
  destruct Hwf as [H1 H2 H3 H4 H5 H6 H7 H8 Hcr H9 H10].
  constructor; simpl; auto. apply put_ascending. exact H9.
Qed.

Lemma wf_Delete (f : Fault) (key : bytes) (w : World) :
  wf w -> exists w' err, Delete f key w = Returns (w', err) /\ wf w'.
Proof.
  intros Hwf. unfold Delete.
  destruct (closed (store w)) eqn:Hopen; [eauto|].
  rewrite (wf_engine_ref w Hwf Hopen). unfold Engine.Delete.
  rewrite (wf_engine_open w Hwf Hopen).
  destruct f as [err|]; [destruct w; eauto|].
  do 2 eexists; split; [reflexivity|].
  destruct Hwf as [H1 H2 H3 H4 H5 H6 H7 H8 Hcr H9 H10].
  constructor; simpl; auto. apply delete_ascending. exact H9.
Qed.

Lemma Get_returns (f : Fault) (key : bytes) (w : World) :
  wf w -> exists r, Get f key w = Returns r.
Proof.
  intros Hwf. unfold Get.
  destruct (closed (store w)) eqn:Hopen; [eauto|].
  rewrite (wf_engine_ref w Hwf Hopen).
  destruct (Engine.Get f key (engine w)) as [v [[| |msg]|]]; eauto.
Qed.

Lemma Scan_returns (fs : list Fault) (prefix : bytes) (limit : Z) (w : World) :
  wf w -> exists r, Scan fs prefix limit w = Returns r.
Proof.
  intros Hwf. unfold Scan, Scan_slices.
  destruct (closed (store w)) eqn:Hopen; [eauto|].
  rewrite (wf_engine_ref w Hwf Hopen).
  destruct (Engine.NewIterator (BytesPrefix prefix) (engine w)) as [pending [err|]];
    [eauto|].
  destruct (scan_loop limit fs pending Engine.iter_memory []) as [[m results] [err|]];
    eauto.
Qed.

(** [Scan] on a well-formed open store when no [Next] fails: the memory
    holds the iterator's two arrays, cleared, and then a copy of each entry
    yielded; the slices returned view the copies. *)
Lemma Scan_slices_quiet (fs : list Fault) (pfx : bytes) (limit : Z) (w : World) (n : nat) :
  wf w -> closed (store w) = false ->
  let matching := Table.slice (BytesPrefix pfx) (table (engine w)) in
  n = scan_budget limit 0 (length matching) ->
  (forall j, (j <= n)%nat -> nth j fs None = None) ->
  Scan_slices fs pfx limit w =
  Returns ([] :: [] :: cells (firstn n matching),
           slots 2 (length (firstn n matching)), None).
Proof.
  intros Hwf Hopen matching Hn Hq. unfold Scan_slices.
  rewrite Hopen, (wf_engine_ref w Hwf Hopen).
  unfold Engine.NewIterator. rewrite (wf_engine_open w Hwf Hopen).
  destruct (scan_loop_quiet limit matching fs [] n [] [] Hn Hq) as (kb & vb & Hloop).
  match goal with
  | |- context [scan_loop ?a ?b ?c ?d ?e] =>
      destruct (scan_loop a b c d e) as [[m1 results1] err1] eqn:E
  end.
  pose proof (eq_trans (eq_sym E) Hloop) as Heq.
  injection Heq as -> -> ->. reflexivity.
Qed.

Lemma Scan_quiet (fs : list Fault) (pfx : bytes) (limit : Z) (w : World) (n : nat) :
  wf w -> closed (store w) = false ->
  let matching := Table.slice (BytesPrefix pfx) (table (engine w)) in
  n = scan_budget limit 0 (length matching) ->
  (forall j, (j <= n)%nat -> nth j fs None = None) ->
  Scan fs pfx limit w = Returns (firstn n matching, None).
Proof.
  intros Hwf Hopen matching Hn Hq. unfold Scan.
  rewrite (Scan_slices_quiet fs pfx limit w n Hwf Hopen Hn Hq).
  do 2 f_equal. exact (contents_slots [[]; []] (firstn n matching)).
Qed.

Lemma Scan_fault (fs : list Fault) (pfx : bytes) (limit : Z) (w : World)
    (i : nat) (e : EngineErr) :
  wf w -> closed (store w) = false ->
  let matching := Table.slice (BytesPrefix pfx) (table (engine w)) in
  (i <= scan_budget limit 0 (length matching))%nat ->
  (forall j, (j < i)%nat -> nth j fs None = None) ->
  nth i fs None = Some e ->
  Scan fs pfx limit w = Returns ([], Some (ErrScanFailed e)).
Proof.
  intros Hwf Hopen matching Hi Hq He. unfold Scan, Scan_slices.
  rewrite Hopen, (wf_engine_ref w Hwf Hopen).
  unfold Engine.NewIterator. rewrite (wf_engine_open w Hwf Hopen).
  destruct (scan_loop_fault limit e i matching fs [] [] [] Hi Hq He) as (m & results & Hloop).
  match goal with
  | |- context [scan_loop ?a ?b ?c ?d ?e] =>
      destruct (scan_loop a b c d e) as [[m1 results1] err1] eqn:E
  end.
  pose proof (eq_trans (eq_sym E) Hloop) as Heq.
  injection Heq as -> -> ->. reflexivity.
Qed.

Lemma wf_OpenDB (abs : option string) (fopen fsnap fclose : Fault)
    (disk : list entry) (w : World) :
  Table.ascending disk ->
  OpenDB abs fopen fsnap fclose disk = Returns (Some w, None) -> wf w.
Proof.
  intros Hdisk. unfold OpenDB.
  destruct abs as [absPath|]; [|discriminate].
  destruct fopen; [discriminate|].
  destruct fsnap as [err|]; simpl; [discriminate|].
  intros [= <-]. constructor; simpl; auto.
  - split; [discriminate|reflexivity].
  - intros h. rewrite count_of_insert. unfold holders, self_ref. simpl.
    unfold count_of. rewrite lookup_empty. simpl. decide_all.
  - intros k c. rewrite lookup_insert. case_decide; [intros [= <-]; lia|].
    rewrite lookup_empty. discriminate.
  - intros h. rewrite lookup_insert. case_decide.
    + simplify_eq. intros _. unfold Engine.alive, Engine.next_snapshot. simpl.
      split; [lia|tauto].
    + rewrite lookup_empty. intros [? ?]. discriminate.
  - constructor.
  - intros h [].
  - unfold GoInt.max_int. lia.
Qed.

(** ** What a call can do to the leases and to a closed store *)

Lemma Close_leases (f : Fault) (w : World) : leases (fst (Close f w)) = leases w.
Proof.
  unfold Close. destruct (closed (store w)); [reflexivity|].
  destruct (_ || _); [reflexivity|].
  pose proof (release_frame (snap (store w)) w) as [F1 _ _ _ _ _ _ _].
  simpl. destruct (db _); [|exact F1].
  destruct (Engine.Close f _) as [e' [err|]]; exact F1.
Qed.

Lemma TakeSnapshot_leases (f : Fault) (w w' : World) (err : option Error) :
  TakeSnapshot f w = Returns (w', err) -> leases w' = leases w.
Proof.
  unfold TakeSnapshot. destruct (closed (store w)); [intros [= <- _]; reflexivity|].
  destruct (db (store w)); [|discriminate].
  destruct (Engine.GetSnapshot f (engine w)) as [[e' s'] [ee|]];
    intros [= <- _]; [reflexivity|].
  simpl. rewrite (frame_leases _ _ (release_frame _ _)). reflexivity.
Qed.

Lemma Put_store (f : Fault) (key value : bytes) (w w' : World) (err : option Error) :
  Put f key value w = Returns (w', err) ->
  leases w' = leases w /\ store w' = store w.
Proof.
  unfold Put. destruct (closed (store w)); [intros [= <- _]; auto|].
  destruct (db (store w)); [|discriminate].
  destruct (Engine.Put f key value (engine w)) as [e' [ee|]]; intros [= <- _]; auto.
Qed.

Lemma Delete_store (f : Fault) (key : bytes) (w w' : World) (err : option Error) :
  Delete f key w = Returns (w', err) ->
  leases w' = leases w /\ store w' = store w.
Proof.
  unfold Delete. destruct (closed (store w)); [intros [= <- _]; auto|].
  destruct (db (store w)); [|discriminate].
  destruct (Engine.Delete f key (engine w)) as [e' [ee|]]; intros [= <- _]; auto.
Qed.

(** A call leaves the [Snap] values alone, allocates one more, or clears one. *)
Lemma exec_leases (c : Call) (w w' : World) :
  exec c w = Returns w' ->
  leases w' = leases w
  \/ (exists s, leases w' = leases w ++ [s])
  \/ (exists a, a < length (leases w) /\ leases w' = <[a := mkSnap None]> (leases w)).
Proof.
  destruct c as [f| |f| |a|f key value|f key|f key|fs pfx limit]; simpl.
  - intros [= <-]. left. apply Close_leases.
  - intros [= <-]. auto.
  - destruct (TakeSnapshot f w) as [[w1 err]|] eqn:E; [|discriminate].
    intros [= <-]. left. eapply TakeSnapshot_leases; eauto.
  - intros [= <-]. unfold GetSnapshot. destruct (closed (store w)); simpl; eauto.
  - intros [= <-]. unfold release_lease.
    destruct (leases w !! a) as [s|] eqn:Ha; [|auto].
    right; right. exists a. split; [eapply lookup_lt_Some; eauto|].
    simpl. rewrite (frame_leases _ _ (release_frame _ _)). reflexivity.
  - destruct (Put f key value w) as [[w1 err]|] eqn:E; [|discriminate].
    intros [= <-]. left. eapply Put_store; eauto.
  - destruct (Get f key w); [|discriminate]. intros [= <-]. auto.
  - destruct (Delete f key w) as [[w1 err]|] eqn:E; [|discriminate].
    intros [= <-]. left. eapply Delete_store; eauto.
  - destruct (Scan fs pfx limit w); [|discriminate]. intros [= <-]. auto.
Qed.

(** A cleared [Snap] is never bound again. *)
Lemma exec_cleared (c : Call) (a : nat) (w w' : World) :
  exec c w = Returns w' ->
  leases w !! a = Some (mkSnap None) -> leases w' !! a = Some (mkSnap None).
Proof.
  intros Hex Ha. destruct (exec_leases c w w' Hex) as [->|[[s ->]|[a' [Hlt ->]]]].
  - exact Ha.
  - apply lookup_app_l_Some. exact Ha.
  - destruct (decide (a' = a)) as [->|Hne].
    + apply list_lookup_insert_eq. exact Hlt.
    + rewrite list_lookup_insert_ne by exact Hne. exact Ha.
Qed.

Lemma run_cleared (cs : list Call) (a : nat) (w w' : World) :
  run cs w = Returns w' ->
  leases w !! a = Some (mkSnap None) -> leases w' !! a = Some (mkSnap None).
Proof.
  revert w. induction cs as [|c cs IH]; simpl; intros w.
  - intros [= <-]. auto.
  - destruct (exec c w) as [w1|] eqn:E; [|discriminate].
    intros Hrun Ha. eapply IH; eauto using exec_cleared.
Qed.

(** No call reopens a closed store or gives it a current snapshot. *)
Lemma exec_closed (c : Call) (w w' : World) :
  exec c w = Returns w' -> closed (store w) = true ->
  closed (store w') = true /\ snap (store w') = snap (store w).
Proof.
  intros Hex Hcl. destruct c as [f| |f| |a|f key value|f key|f key|fs pfx limit]; simpl in Hex.
  - unfold Close in Hex. rewrite Hcl in Hex. simpl in Hex. simplify_eq. auto.
  - simplify_eq. auto.
  - unfold TakeSnapshot in Hex. rewrite Hcl in Hex. simpl in Hex. simplify_eq. auto.
  - unfold GetSnapshot in Hex. rewrite Hcl in Hex. simpl in Hex. simplify_eq. auto.
  - simplify_eq. unfold release_lease. destruct (leases w !! a); [|auto].
    pose proof (release_frame (snap_of s) w) as [_ _ _ F4 F5 _ _ _]. simpl.
    rewrite F4, F5. auto.
  - destruct (Put f key value w) as [[w1 err]|] eqn:E; [|discriminate].
    apply Put_store in E as [_ Hst]. simpl in Hex. simplify_eq. rewrite Hst. auto.
  - destruct (Get f key w); simplify_eq. auto.
  - destruct (Delete f key w) as [[w1 err]|] eqn:E; [|discriminate].
    apply Delete_store in E as [_ Hst]. simpl in Hex. simplify_eq. rewrite Hst. auto.
  - destruct (Scan fs pfx limit w); simplify_eq. auto.
Qed.

Lemma run_closed (cs : list Call) (w w' : World) :
  run cs w = Returns w' -> closed (store w) = true ->
  closed (store w') = true /\ snap (store w') = snap (store w).
Proof.
  revert w. induction cs as [|c cs IH]; simpl; intros w.
  - intros [= <-]. auto.
  - destruct (exec c w) as [w1|] eqn:E; [|discriminate].
    intros Hrun Hcl. destruct (exec_closed c w w1 E Hcl) as [Hcl1 Hs1].
    destruct (IH w1 Hrun Hcl1) as [Hcl' Hs']. split; congruence.
Qed.

Lemma wf_exec (c : Call) (w : World) :
  wf w -> (Z.of_nat (length (leases w)) + 1 < GoInt.max_int)%Z ->
  exists w', exec c w = Returns w' /\ wf w'.
Proof.
  intros Hwf Hroom. destruct c as [f| |f| |a|f key value|f key|f key|fs pfx limit]; simpl.
  - eauto using wf_Close.
  - eauto.
  - destruct (wf_TakeSnapshot f w Hwf) as (w' & err & -> & Hwf'). simpl. eauto.
  - eauto using wf_GetSnapshot.
  - eauto using wf_release_lease.
  - destruct (wf_Put f key value w Hwf) as (w' & err & -> & Hwf'). simpl. eauto.
  - destruct (Get_returns f key w Hwf) as [r ->]. eauto.
  - destruct (wf_Delete f key w Hwf) as (w' & err & -> & Hwf'). simpl. eauto.
  - destruct (Scan_returns fs pfx limit w Hwf) as [r ->]. eauto.
Qed.

(** Well-formed worlds never panic and stay well-formed, as long as fewer
    than [max_int - 1] [Snap] values get allocated. *)
Lemma wf_run (cs : list Call) (w : World) :
  wf w ->
  (Z.of_nat (length (leases w)) + Z.of_nat (length cs) < GoInt.max_int)%Z ->
  exists w', run cs w = Returns w' /\ wf w'.
Proof.
  revert w. induction cs as [|c cs IH]; simpl; intros w Hwf Hroom; [eauto|].
  destruct (wf_exec c w Hwf) as (w1 & Hex & Hwf1); [lia|]. rewrite Hex.
  apply IH; [exact Hwf1|].
  destruct (exec_leases c w w1 Hex) as [->|[[s ->]|[a [_ ->]]]];
    rewrite ?length_app, ?length_insert; simpl; lia.
Qed.

(** ** The sample worlds *)

Lemma OpenDB_opened (absPath : string) (fclose : Fault) (disk : list entry) :
  OpenDB (Some absPath) None None fclose disk = Returns (Some (opened absPath disk), None).
Proof. reflexivity. Qed.

Lemma wf_opened (absPath : string) (disk : list entry) :
  Table.ascending disk -> wf (opened absPath disk).
Proof.
  intros Hdisk. eapply wf_OpenDB; [exact Hdisk|].
  apply (OpenDB_opened absPath None disk).
Qed.

Lemma sample_disk_ascending : Table.ascending sample_disk.
Proof.
  unfold Table.ascending, sample_disk. simpl.
  repeat (constructor; [|repeat (constructor; try reflexivity)]). constructor.
Qed.

Lemma wf_sample_world : wf sample_world.
Proof. apply wf_opened, sample_disk_ascending. Qed.

Lemma wf_leased_world : wf leased_world.
Proof. apply wf_GetSnapshot; [exact wf_sample_world|]. simpl. unfold GoInt.max_int. lia. Qed.

(** Releasing a registered snapshot whose count is an [int] of at least 1. *)
Lemma release_held (h : nat) (c : Z) (w : World) :
  activeSnaps (store w) !! Some h = Some c -> (1 <= c <= GoInt.max_int)%Z ->
  let w' := releaseSnapInternal (Some h) w in
  same_frame w w'
  /\ if decide (1 < c)%Z
     then activeSnaps (store w') = <[Some h := (c - 1)%Z]> (activeSnaps (store w))
          /\ released (engine w') = released (engine w)
     else activeSnaps (store w') = delete (Some h) (activeSnaps (store w))
          /\ released (engine w') = h :: released (engine w).
Proof.
  intros Hc Hr. simpl. split; [apply release_frame|].
  destruct (decide (1 < c)%Z) as [Hlt|Hge].
  - rewrite (release_shared h c w Hc Hlt). simpl.
    rewrite int_sub_one by lia. auto.
  - rewrite release_last by (intros c'; rewrite Hc; intros [= <-]; lia).
    simpl. auto.
Qed.

(** X10. Whatever is called on a store that [OpenDB] returned, no call panics,
    every registry count stays equal to the number of holders of its
    snapshot, and no snapshot is released twice in the engine. *)
Corollary opened_store_invariant
    (abs : option string) (fopen fsnap fclose : Fault) (disk : list entry)
    (cs : list Call) (w : World) :
  Table.ascending disk ->
  OpenDB abs fopen fsnap fclose disk = Returns (Some w, None) ->
  (Z.of_nat (length cs) < GoInt.max_int)%Z ->
  exists w',
    run cs w = Returns w'
    /\ (forall h, count_of (activeSnaps (store w')) (Some h) = Z.of_nat (holders h w'))
    /\ NoDup (released (engine w')).
Proof.
  intros Hdisk Hopen Hlen.
  pose proof (wf_OpenDB _ _ _ _ _ _ Hdisk Hopen) as Hwf.
  assert (leases w = []) as Hl.
  { unfold OpenDB in Hopen. destruct abs; [|discriminate].
    destruct fopen; [discriminate|].
    destruct (TakeSnapshot fsnap _) as [[w1 [e|]]|] eqn:E; try discriminate.
    injection Hopen as <-. apply TakeSnapshot_leases in E. exact E. }
  destruct (wf_run cs w Hwf) as (w' & Hrun & Hwf'); [rewrite Hl; simpl; lia|].
  exists w'. split; [exact Hrun|]. split; [apply (wf_counts w' Hwf')|].
  apply (wf_released w' Hwf').
Qed.

(** * The claims *)

(** ** C1: the release-or-decrement step *)

(** C1, as amended. [releaseSnapInternal] does nothing on the nil handle;
    on a registered handle whose count exceeds 1 it only decrements the
    count; on every other non-nil handle - registered with count at most 1,
    or not registered at all - it calls the engine's release on the handle
    and deletes the handle's entry (if any) from the registry. Nothing
    else in the store, the engine or the leases changes. *)
Theorem releaseSnapInternal_cases (k : SnapshotPtr) (w : World) :
  (forall c, activeSnaps (store w) !! k = Some c -> GoInt.in_range c) ->
  release_outcome k w (releaseSnapInternal k w).
Proof.
  intros Hint. unfold release_outcome. destruct k as [h|]; [|reflexivity].
  split; [apply release_frame|].
  destruct (activeSnaps (store w) !! Some h) as [c|] eqn:Hc.
  - specialize (Hint c eq_refl). destruct (decide (1 < c)%Z) as [Hlt|Hge].
    + rewrite (release_shared h c w Hc Hlt). simpl.
      rewrite int_sub_one by (unfold GoInt.in_range in Hint; lia). auto.
    + rewrite release_last by (intros c'; rewrite Hc; intros [= <-]; lia).
      simpl. auto.
  - rewrite release_last by (intros c'; rewrite Hc; discriminate).
    simpl. rewrite delete_id by exact Hc. auto.
Qed.

Lemma releaseSnapInternal_cases_witness :
  release_outcome (Some 0%nat) leased_world
                  (releaseSnapInternal (Some 0%nat) leased_world).
Proof.
  apply (releaseSnapInternal_cases (Some 0%nat) leased_world).
  intros c Hc. vm_compute in Hc. injection Hc as <-.
  unfold GoInt.in_range, GoInt.min_int, GoInt.max_int. lia.
Defined.

(** C1 fails as written: snapshot 0 is not in the registry of
    [advanced_world] (the engine has already released it), and yet
    [releaseSnapInternal] calls the engine's release on it once more. *)
Lemma releaseSnapInternal_absent_handle_released :
  activeSnaps (store advanced_world) !! Some 0%nat = None
  /\ released (engine advanced_world) = [0%nat]
  /\ released (engine (releaseSnapInternal (Some 0%nat) advanced_world))
     = [0%nat; 0%nat]
  /\ releaseSnapInternal (Some 0%nat) advanced_world <> advanced_world.
Proof.
  split; [|split; [|split]]; try (vm_compute; reflexivity).
  intros H. apply (f_equal (fun w => released (engine w))) in H.
  vm_compute in H. discriminate.
Qed.

(** ** C2 and C10: [Close] *)

Lemma Close_guard (d : DB) :
  (1 <? size (activeSnaps d))%nat || (1 <? count_of (activeSnaps d) (snap d))%Z = true
  <-> snapshots_still_active d.
Proof.
  unfold snapshots_still_active.
  rewrite orb_true_iff, Nat.ltb_lt, Z.ltb_lt. reflexivity.
Qed.

Lemma Close_guard_false (d : DB) :
  (1 <? size (activeSnaps d))%nat || (1 <? count_of (activeSnaps d) (snap d))%Z = false
  <-> ~ snapshots_still_active d.
Proof. rewrite <- Close_guard. destruct (_ || _); split; congruence. Qed.

(** With no lease out, releasing the current snapshot takes the removing
    branch. *)
Lemma release_current_last (w : World) :
  ~ snapshots_still_active (store w) ->
  match snap (store w) with
  | Some h =>
      releaseSnapInternal (snap (store w)) w =
      with_store (set_activeSnaps (delete (Some h) (activeSnaps (store w))) (store w))
                 (with_engine (Engine.Release h (engine w)) w)
  | None => releaseSnapInternal (snap (store w)) w = w
  end.
Proof.
  intros Hg. destruct (snap (store w)) as [h|] eqn:Hs; [|reflexivity].
  apply release_last. intros c Hc.
  destruct (Z.le_gt_cases c 1) as [Hle|Hgt]; [exact Hle|].
  exfalso. apply Hg. right. rewrite Hs. unfold count_of. rewrite Hc. simpl. lia.
Qed.

Lemma closed_refuses_all (w : World) : closed (store w) = true -> refuses_all w.
Proof.
  intros Hcl. constructor; intros;
    unfold Close, TakeSnapshot, GetSnapshot, Put, Get, Delete, Scan, Scan_slices;
    rewrite Hcl; reflexivity.
Qed.

Lemma exec_closed_returns (c : Call) (w : World) :
  closed (store w) = true -> exists w', exec c w = Returns w'.
Proof.
  intros Hcl. destruct (closed_refuses_all w Hcl) as [R1 R2 R3 R4 R5 R6 R7].
  destruct c as [f| |f| |a|f key value|f key|f key|fs pfx limit]; simpl;
    rewrite ?R2, ?R4, ?R5, ?R6, ?R7; simpl; eauto.
Qed.

Lemma run_closed_returns (cs : list Call) (w : World) :
  closed (store w) = true -> exists w', run cs w = Returns w'.
Proof.
  revert w. induction cs as [|c cs IH]; simpl; intros w Hcl; [eauto|].
  destruct (exec_closed_returns c w Hcl) as [w1 Hex]. rewrite Hex.
  apply IH. eapply exec_closed; eauto.
Qed.

(** C2. [Close] on a closed store fails with "database is closed" and
    changes nothing. On an open store it fails with "cannot close database
    with n active snapshots" exactly when the registry has more than one
    entry or the count of the current snapshot exceeds 1, again changing
    nothing. When it succeeds, the registry and the engine's release log
    are those [releaseSnapInternal] leaves for the current snapshot, which
    here removes the entry and releases the snapshot; [snap] is nil, the
    store is closed, [db] is nil and the engine has been closed. *)
Theorem Close_spec (f : Fault) (w : World) :
  let d := store w in
  let w' := fst (Close f w) in
  (closed d = true -> Close f w = (w, Some ErrDatabaseClosed))
  /\ (closed d = false ->
      ((exists n, snd (Close f w) = Some (ErrActiveSnapshots n))
       <-> snapshots_still_active d)
      /\ (snapshots_still_active d ->
          Close f w = (w, Some (ErrActiveSnapshots (size (activeSnaps d)))))
      /\ (snd (Close f w) = None ->
          let w1 := releaseSnapInternal (snap d) w in
          activeSnaps (store w') = activeSnaps (store w1)
          /\ released (engine w') = released (engine w1)
          /\ match snap d with
             | Some h =>
                 activeSnaps (store w') = delete (Some h) (activeSnaps d)
                 /\ released (engine w') = h :: released (engine w)
             | None => True
             end
          /\ snap (store w') = None
          /\ closed (store w') = true
          /\ db (store w') = None
          /\ (db d <> None -> ldb_closed (engine w') = true)
          /\ leases w' = leases w)).
Proof.
  simpl. split.
  - intros Hcl. unfold Close. rewrite Hcl. reflexivity.
  - intros Hopen. unfold Close. rewrite Hopen.
    destruct ((1 <? size (activeSnaps (store w)))%nat
              || (1 <? count_of (activeSnaps (store w)) (snap (store w)))%Z) eqn:Hg.
    + apply Close_guard in Hg. simpl.
      split; [split; eauto|]. split; [reflexivity|discriminate].
    + apply Close_guard_false in Hg.
      pose proof (release_current_last w Hg) as Hlast.
      pose proof (release_frame (snap (store w)) w) as [F1 F2 F3 F4 F5 F6 F7 F8].
      remember (releaseSnapInternal (snap (store w)) w) as w1 eqn:Hw1.
      simpl. rewrite F3.
      assert (match snap (store w) with
              | Some h => activeSnaps (store w1) = delete (Some h) (activeSnaps (store w))
                          /\ released (engine w1) = h :: released (engine w)
              | None => True
              end) as Hrem.
      { destruct (snap (store w)); [|exact I]. rewrite Hlast. simpl. auto. }
      clear Hw1 Hlast.
      destruct (db (store w)) as [r|] eqn:Hdb.
      * unfold Engine.Close. simpl.
        destruct (ldb_closed (engine w1)) eqn:Hec; simpl.
        { split; [split; [intros [n Hn]; discriminate|tauto]|].
          split; [tauto|discriminate]. }
        destruct f as [err|]; simpl.
        { split; [split; [intros [n Hn]; discriminate|tauto]|].
          split; [tauto|discriminate]. }
        split; [split; [intros [n Hn]; discriminate|tauto]|].
        split; [tauto|]. intros _. repeat split; auto.
      * simpl. split; [split; [intros [n Hn]; discriminate|tauto]|].
        split; [tauto|]. intros _. repeat split; auto; congruence.
Qed.

Example Close_fresh_store_succeeds :
  snd (Close None sample_world) = None.
Proof. reflexivity. Qed.

Example Close_with_lease_out_fails :
  Close None leased_world = (leased_world, Some (ErrActiveSnapshots 1)).
Proof. reflexivity. Qed.

Example Close_after_release_succeeds :
  snd (Close None (release_lease 0 leased_world)) = None.
Proof. vm_compute. reflexivity. Qed.

(** C10. When the engine's own [Close] reports an error, [Close] returns
    that error wrapped as "failed to close leveldb", and yet the store is
    already marked closed, [snap] is nil and the current snapshot has been
    taken out of the registry and released in the engine ([db] alone still
    points to the engine). From then on, whatever is called, the store
    stays closed without a current snapshot and every method that can fail
    fails with "database is closed" ([GetSnapshot] hands out nil). *)
Theorem Close_engine_failure (f : Fault) (err : EngineErr) (w : World) :
  closed (store w) = false ->
  ~ snapshots_still_active (store w) ->
  db (store w) <> None ->
  snd (Engine.Close f (engine w)) = Some err ->
  let w' := fst (Close f w) in
  snd (Close f w) = Some (ErrCloseFailed err)
  /\ closed (store w') = true
  /\ snap (store w') = None
  /\ db (store w') = db (store w)
  /\ (forall h, snap (store w) = Some h ->
        activeSnaps (store w') = delete (Some h) (activeSnaps (store w))
        /\ released (engine w') = h :: released (engine w))
  /\ forall cs, exists w'',
       run cs w' = Returns w''
       /\ closed (store w'') = true
       /\ snap (store w'') = None
       /\ refuses_all w''.
Proof.
  intros Hopen Hg Hdb Herr.
  assert (Close f w =
          (with_engine (fst (Engine.Close f (engine (releaseSnapInternal (snap (store w)) w))))
             (with_store
                (set_closed true
                   (set_snap None (store (releaseSnapInternal (snap (store w)) w))))
                (releaseSnapInternal (snap (store w)) w)),
           Some (ErrCloseFailed err))) as Hclose.
  { unfold Close. rewrite Hopen.
    apply Close_guard_false in Hg. rewrite Hg.
    pose proof (release_frame (snap (store w)) w) as [F1 F2 F3 F4 F5 F6 F7 F8].
    simpl. rewrite F3. destruct (db (store w)); [|congruence].
    unfold Engine.Close in *. simpl. rewrite F7.
    destruct (ldb_closed (engine w)); simpl in *; [congruence|].
    subst f. reflexivity. }
  pose proof (release_current_last w Hg) as Hlast.
  pose proof (release_frame (snap (store w)) w) as [F1 F2 F3 F4 F5 F6 F7 F8].
  simpl. rewrite Hclose. simpl.
  assert (forall e, released (fst (Engine.Close f e)) = released e) as Hrel.
  { intros e. unfold Engine.Close. destruct (ldb_closed e); reflexivity. }
  split; [reflexivity|]. split; [reflexivity|]. split; [reflexivity|].
  split; [exact F3|]. split.
  - intros h Hs. rewrite Hs in Hlast. rewrite Hrel, Hs, Hlast. simpl. auto.
  - intros cs.
    match goal with |- context [run cs ?w0] => set (wc := w0) end.
    assert (closed (store wc) = true) as Hcl by reflexivity.
    destruct (run_closed_returns cs wc Hcl) as [w'' Hrun].
    exists w''. split; [exact Hrun|].
    destruct (run_closed cs wc w'' Hrun Hcl) as [Hcl'' Hs''].
    split; [exact Hcl''|]. split; [rewrite Hs''; reflexivity|].
    apply closed_refuses_all. exact Hcl''.
Qed.

Lemma Close_engine_failure_witness :
  let w' := fst (Close (Some (ErrIO "disk full")) sample_world) in
  snd (Close (Some (ErrIO "disk full")) sample_world)
  = Some (ErrCloseFailed (ErrIO "disk full"))
  /\ closed (store w') = true
  /\ snap (store w') = None
  /\ db (store w') = db (store sample_world)
  /\ (forall h, snap (store sample_world) = Some h ->
        activeSnaps (store w') = delete (Some h) (activeSnaps (store sample_world))
        /\ released (engine w') = h :: released (engine sample_world))
  /\ forall cs, exists w'',
       run cs w' = Returns w''
       /\ closed (store w'') = true
       /\ snap (store w'') = None
       /\ refuses_all w''.
Proof.
  apply (Close_engine_failure (Some (ErrIO "disk full")) (ErrIO "disk full") sample_world).
  - reflexivity.
  - apply Close_guard_false. vm_compute. reflexivity.
  - discriminate.
  - reflexivity.
Defined.

(** ** C5 and C4: [GetSnapshot] and the release closure *)

(** A bound [Snap] keeps its snapshot registered and unreleased. *)
Lemma lease_pins (a h : nat) (w : World) :
  wf w -> leases w !! a = Some (mkSnap (Some h)) ->
  activeSnaps (store w) !! Some h = Some (count_of (activeSnaps (store w)) (Some h))
  /\ (1 <= count_of (activeSnaps (store w)) (Some h) <= GoInt.max_int)%Z
  /\ Engine.alive h (engine w).
Proof.
  intros Hwf Ha.
  pose proof (lease_count_bound (Some h) a _ _ Ha eq_refl) as Hlc.
  assert (1 <= holders h w)%nat as Hheld by (unfold holders; lia).
  destruct (wf_held h w Hwf Hheld) as (Hreg & Halive & Hmax).
  rewrite (wf_counts w Hwf h). split; [exact Hreg|]. split; [lia|exact Halive].
Qed.

(** C5. On a closed store [GetSnapshot] changes nothing and returns a nil
    [Snap] with a release function that does nothing. On an open store it
    adds one (in [int] arithmetic, hence exactly one below [max_int]) to
    the registry count of the current snapshot and touches no other entry,
    the engine or the store otherwise; the [Snap] it returns is a new value
    bound to the current snapshot. The release function, called in any
    later world while that [Snap] is still bound to its snapshot [h],
    clears the [Snap] and takes one count off [h]: when the count [c] of
    [h] exceeds 1 it becomes [c - 1] and the engine releases nothing, and
    otherwise the entry of [h] is removed and [h] is released in the
    engine; no other entry, the current snapshot, the flags and the
    engine's data are not touched. In a well-formed world a bound [Snap]
    always finds its snapshot registered with such a count. Called when
    the [Snap] has been cleared, the release function changes nothing. *)
Theorem GetSnapshot_spec (w : World) :
  let d := store w in
  let m := activeSnaps d in
  (closed d = true ->
     exists rel, GetSnapshot w = (w, None, rel) /\ forall w2, rel w2 = w2)
  /\ (closed d = false ->
      exists w' rel,
        GetSnapshot w = (w', Some (length (leases w)), rel)
        /\ count_of (activeSnaps (store w')) (snap d) = GoInt.add (count_of m (snap d)) 1
        /\ ((GoInt.min_int <= count_of m (snap d) < GoInt.max_int)%Z ->
            count_of (activeSnaps (store w')) (snap d) = (count_of m (snap d) + 1)%Z)
        /\ (forall k, k <> snap d -> activeSnaps (store w') !! k = m !! k)
        /\ leases w' = leases w ++ [mkSnap (snap d)]
        /\ leases w' !! length (leases w) = Some (mkSnap (snap d))
        /\ engine w' = engine w
        /\ set_activeSnaps m (store w') = d
        /\ (forall w2 s, leases w2 !! length (leases w) = Some s ->
             rel w2 =
             with_leases (<[length (leases w) := mkSnap None]> (leases w2))
                         (releaseSnapInternal (snap_of s) w2))
        /\ (forall w2 h c,
              leases w2 !! length (leases w) = Some (mkSnap (Some h)) ->
              activeSnaps (store w2) !! Some h = Some c ->
              (1 <= c <= GoInt.max_int)%Z ->
              let w3 := rel w2 in
              leases w3 = <[length (leases w) := mkSnap None]> (leases w2)
              /\ (forall k, k <> Some h ->
                    activeSnaps (store w3) !! k = activeSnaps (store w2) !! k)
              /\ snap (store w3) = snap (store w2)
              /\ closed (store w3) = closed (store w2)
              /\ db (store w3) = db (store w2)
              /\ table (engine w3) = table (engine w2)
              /\ snapshots (engine w3) = snapshots (engine w2)
              /\ ldb_closed (engine w3) = ldb_closed (engine w2)
              /\ if decide (1 < c)%Z
                 then activeSnaps (store w3)
                      = <[Some h := (c - 1)%Z]> (activeSnaps (store w2))
                      /\ released (engine w3) = released (engine w2)
                 else activeSnaps (store w3) = delete (Some h) (activeSnaps (store w2))
                      /\ released (engine w3) = h :: released (engine w2))
        /\ (forall w2 h,
              wf w2 -> leases w2 !! length (leases w) = Some (mkSnap (Some h)) ->
              exists c, activeSnaps (store w2) !! Some h = Some c
                        /\ (1 <= c <= GoInt.max_int)%Z)
        /\ (forall w2,
              leases w2 !! length (leases w) = Some (mkSnap None) -> rel w2 = w2)).
Proof.
  simpl. unfold GetSnapshot. split; intros Hcl; rewrite Hcl.
  - exists release_nothing. split; reflexivity.
  - do 2 eexists. split; [reflexivity|]. simpl.
    split; [rewrite count_of_insert; decide_all|].
    split; [intros Hr; rewrite count_of_insert, <- int_add_one by exact Hr; decide_all|].
    split; [intros k Hk; apply lookup_insert_ne; congruence|].
    split; [reflexivity|].
    split; [rewrite lookup_app_r, Nat.sub_diag by lia; reflexivity|].
    split; [reflexivity|].
    split; [destruct (store w); reflexivity|].
    split; [|split; [|split]].
    + intros w2 s Hs. unfold release_lease. rewrite Hs.
      rewrite (frame_leases _ _ (release_frame _ _)). reflexivity.
    + intros w2 h c Hs Hc Hrange. unfold release_lease. rewrite Hs. simpl.
      destruct (release_held h c w2 Hc Hrange) as [[F1 F2 F3 F4 F5 F6 F7 F8] Hout].
      rewrite F1. conj_split; auto.
      intros k Hk. destruct (decide (1 < c)%Z); destruct Hout as [-> _].
      * apply lookup_insert_ne. congruence.
      * apply lookup_delete_ne. congruence.
    + intros w2 h Hwf2 Hs.
      destruct (lease_pins _ h w2 Hwf2 Hs) as (Hreg & Hcnt & _). eauto.
    + intros w2 Hs. unfold release_lease. rewrite Hs. simpl.
      rewrite release_nil, list_insert_id by exact Hs. destruct w2; reflexivity.
Qed.

Example GetSnapshot_sample :
  let '(w', a, _) := GetSnapshot sample_world in
  a = Some 0%nat
  /\ activeSnaps (store w') !! Some 0%nat = Some 2%Z
  /\ leases w' = [mkSnap (Some 0%nat)].
Proof. vm_compute. auto. Qed.

(** C4. Take the release function of any lease. Whatever is called before
    it is first invoked, that invocation leaves the [Snap] cleared and the
    registry counts equal to the numbers of holders (a well-formed world
    stays well-formed); and whatever is called afterwards, invoking it
    again changes nothing at all: no count in the registry, no release in
    the engine, no [Snap]. *)
Theorem release_twice_is_noop (w w1 : World) (a : nat) (rel : World -> World) :
  GetSnapshot w = (w1, Some a, rel) ->
  forall cs1 w2, run cs1 w1 = Returns w2 ->
    leases (rel w2) !! a = Some (mkSnap None)
    /\ (wf w2 -> wf (rel w2))
    /\ forall cs2 w4, run cs2 (rel w2) = Returns w4 -> rel w4 = w4.
Proof.
  unfold GetSnapshot. destruct (closed (store w)); [discriminate|].
  intros [= <- <- <-] cs1 w2 Hrun1.
  assert (forall cs v v', run cs v = Returns v' ->
            (length (leases v) <= length (leases v'))%nat) as Hgrow.
  { induction cs as [|c cs IH]; simpl; intros v v'.
    - intros [= <-]. lia.
    - destruct (exec c v) as [v1|] eqn:E; [|discriminate]. intros Hr.
      specialize (IH v1 v' Hr).
      destruct (exec_leases c v v1 E) as [Hl|[[s Hl]|[a' [_ Hl]]]];
        rewrite Hl, ?length_app, ?length_insert in IH; simpl in IH; lia. }
  specialize (Hgrow cs1 _ w2 Hrun1). simpl in Hgrow.
  rewrite length_app in Hgrow. simpl in Hgrow.
  assert (leases (release_lease (length (leases w)) w2) !! length (leases w)
          = Some (mkSnap None)) as Hclr.
  { unfold release_lease.
    destruct (leases w2 !! length (leases w)) as [s|] eqn:Hs.
    - simpl. rewrite (frame_leases _ _ (release_frame _ _)).
      apply list_lookup_insert_eq. lia.
    - apply lookup_ge_None in Hs. lia. }
  split; [exact Hclr|]. split; [apply wf_release_lease|].
  intros cs2 w4 Hrun2.
  pose proof (run_cleared cs2 _ _ _ Hrun2 Hclr) as Hclr4.
  unfold release_lease. rewrite Hclr4. simpl.
  rewrite release_nil, list_insert_id by exact Hclr4. destruct w4; reflexivity.
Qed.

Lemma release_twice_is_noop_witness :
  let rel := snd (GetSnapshot sample_world) in
  leases (rel leased_world) !! 0%nat = Some (mkSnap None)
  /\ (wf leased_world -> wf (rel leased_world))
  /\ forall cs2 w4, run cs2 (rel leased_world) = Returns w4 -> rel w4 = w4.
Proof.
  apply (release_twice_is_noop sample_world leased_world 0%nat
           (snd (GetSnapshot sample_world)) eq_refl [] _ eq_refl).
Defined.

Example release_twice_sample :
  let rel := snd (GetSnapshot sample_world) in
  activeSnaps (store (rel leased_world)) !! Some 0%nat = Some 1%Z
  /\ rel (rel leased_world) = rel leased_world
  /\ released (engine (rel (rel leased_world))) = [].
Proof. vm_compute. auto. Qed.

(** ** C6 and C3: [TakeSnapshot] *)

(** C6. [TakeSnapshot] on a closed store fails with "database is closed";
    when the engine cannot create a snapshot it fails with "failed to
    create snapshot"; either way the world it leaves is the world it
    found. When the engine delivers a snapshot, the previous current
    snapshot [h] loses the store's own count: when its count [c] exceeds 1
    (leases are out on it) the count becomes [c - 1] and [h] stays
    registered and unreleased, and otherwise the entry of [h] is removed
    and [h] is released in the engine. Then the new snapshot becomes
    current and is entered in the registry with count 1; no other entry
    changes. In a well-formed world there is a previous current snapshot,
    it is registered with such a count, and the new snapshot differs from
    it and was not registered before. *)
Theorem TakeSnapshot_spec (f : Fault) (w : World) :
  let d := store w in
  (closed d = true -> TakeSnapshot f w = Returns (w, Some ErrDatabaseClosed))
  /\ (closed d = false -> db d <> None ->
      (forall err, snd (Engine.GetSnapshot f (engine w)) = Some err ->
         TakeSnapshot f w = Returns (w, Some (ErrSnapshotFailed err)))
      /\ (snd (Engine.GetSnapshot f (engine w)) = None ->
          let new := Engine.next_snapshot (engine w) in
          let w0 := with_engine (fst (fst (Engine.GetSnapshot f (engine w)))) w in
          let w1 := releaseSnapInternal (snap d) w0 in
          exists w',
            TakeSnapshot f w = Returns (w', None)
            /\ snap (store w') = Some new
            /\ activeSnaps (store w') = <[Some new := 1%Z]> (activeSnaps (store w1))
            /\ activeSnaps (store w') !! Some new = Some 1%Z
            /\ engine w' = engine w1
            /\ leases w' = leases w
            /\ closed (store w') = false
            /\ (forall key, Engine.SnapshotGet new key (engine w')
                            = Table.get key (table (engine w)))
            /\ (wf w -> snap d <> Some new
                        /\ activeSnaps d !! Some new = None)
            /\ (forall h c,
                  snap d = Some h ->
                  activeSnaps d !! Some h = Some c ->
                  (1 <= c <= GoInt.max_int)%Z ->
                  if decide (1 < c)%Z
                  then activeSnaps (store w')
                       = <[Some new := 1%Z]> (<[Some h := (c - 1)%Z]> (activeSnaps d))
                       /\ released (engine w') = released (engine w)
                  else activeSnaps (store w')
                       = <[Some new := 1%Z]> (delete (Some h) (activeSnaps d))
                       /\ released (engine w') = h :: released (engine w))
            /\ (snap d = None ->
                  activeSnaps (store w') = <[Some new := 1%Z]> (activeSnaps d)
                  /\ released (engine w') = released (engine w))
            /\ (wf w ->
                  exists h c, snap d = Some h
                              /\ activeSnaps d !! Some h = Some c
                              /\ (1 <= c <= GoInt.max_int)%Z)
            /\ table (engine w') = table (engine w)
            /\ snapshots (engine w') = snapshots (engine w) ++ [table (engine w)])).
Proof.
  simpl. unfold TakeSnapshot. split; [intros ->; reflexivity|].
  intros Hopen Hdb. rewrite Hopen.
  destruct (db (store w)) as [r|]; [clear Hdb|congruence].
  unfold Engine.GetSnapshot, Engine.SnapshotGet.
  destruct (ldb_closed (engine w)) eqn:Hec; simpl.
  { split; [intros err [= <-]; reflexivity|discriminate]. }
  destruct f as [e|]; simpl.
  { split; [intros err [= <-]; reflexivity|discriminate]. }
  split; [discriminate|]. intros _.
  eexists. split; [reflexivity|]. simpl.
  match goal with |- context [releaseSnapInternal ?k ?w0] =>
    pose proof (release_frame k w0) as [F1 F2 F3 F4 F5 F6 F7 F8];
    pose proof (fun h c => release_held h c w0) as Hheld;
    pose proof (release_nil w0) as Hnil
  end.
  simpl in F1, F2, F3, F4, F5, F6, F7, F8, Hheld.
  conj_split; auto.
  - apply lookup_insert_eq.
  - congruence.
  - intros key. rewrite F8. unfold Engine.next_snapshot.
    rewrite nth_error_app2, Nat.sub_diag by lia. reflexivity.
  - intros Hwf. split.
    + intros Hs. pose proof (wf_current_held _ w Hs) as Hh.
      destruct (wf_held _ w Hwf Hh) as (_ & [Hlt _] & _). lia.
    + destruct (activeSnaps (store w) !! Some (Engine.next_snapshot (engine w)))
        as [c|] eqn:Hc; [|reflexivity].
      destruct (wf_alive w Hwf (Engine.next_snapshot (engine w))) as [Hlt _];
        [rewrite Hc; eauto|lia].
  - intros h c Hs Hc Hrange. rewrite Hs.
    destruct (Hheld h c Hc Hrange) as [_ Hout].
    destruct (decide (1 < c)%Z); destruct Hout as [-> ->]; auto.
  - intros Hs. rewrite Hs, Hnil. simpl. auto.
  - intros Hwf.
    destruct (snap (store w)) as [h|] eqn:Hs.
    + pose proof (wf_current_held _ w Hs) as Hh.
      destruct (wf_held _ w Hwf Hh) as (Hreg & _ & Hmax).
      exists h, (Z.of_nat (holders h w)). conj_split; auto. lia.
    + exfalso. apply (proj1 (wf_current w Hwf) Hopen). exact Hs.
Qed.

Example TakeSnapshot_sample_unleased :
  exists w', TakeSnapshot None sample_world = Returns (w', None)
    /\ snap (store w') = Some 1%nat
    /\ map_to_list (activeSnaps (store w')) = [(Some 1%nat, 1%Z)]
    /\ released (engine w') = [0%nat].
Proof. eexists. split; [reflexivity|]. vm_compute. auto. Qed.

Example TakeSnapshot_sample_leased :
  exists w', TakeSnapshot None leased_world = Returns (w', None)
    /\ snap (store w') = Some 1%nat
    /\ activeSnaps (store w') !! Some 0%nat = Some 1%Z
    /\ activeSnaps (store w') !! Some 1%nat = Some 1%Z
    /\ released (engine w') = [].
Proof. eexists. split; [reflexivity|]. vm_compute. auto. Qed.

Example TakeSnapshot_sample_failure :
  TakeSnapshot (Some (ErrIO "no space")) leased_world
  = Returns (leased_world, Some (ErrSnapshotFailed (ErrIO "no space"))).
Proof. reflexivity. Qed.

Lemma option_eq_dec_fault (x y : Fault) : {x = y} + {x <> y}.
Proof. repeat decide equality. Defined.

Lemma TakeSnapshot_open (f : Fault) (w : World) :
  wf w -> closed (store w) = false ->
  match f with
  | Some err => TakeSnapshot f w = Returns (w, Some (ErrSnapshotFailed err))
  | None =>
      exists w', TakeSnapshot f w = Returns (w', None)
        /\ snap (store w') = Some (Engine.next_snapshot (engine w))
        /\ Engine.next_snapshot (engine w') = S (Engine.next_snapshot (engine w))
        /\ closed (store w') = false
  end.
Proof.
  intros Hwf Hopen. unfold TakeSnapshot. rewrite Hopen.
  rewrite (wf_engine_ref w Hwf Hopen). unfold Engine.GetSnapshot.
  rewrite (wf_engine_open w Hwf Hopen). destruct f as [err|]; [reflexivity|].
  eexists. split; [reflexivity|]. simpl.
  match goal with |- context [releaseSnapInternal ?k ?w0] =>
    pose proof (release_frame k w0) as [F1 F2 F3 F4 F5 F6 F7 F8] end.
  simpl in F4, F8. unfold Engine.next_snapshot. rewrite F8, F4, length_app. simpl.
  repeat split; auto. lia.
Qed.

(** Any number of [TakeSnapshot] calls, failing or not, on an open store. *)
Lemma run_TakeSnapshots (fs : list Fault) (w : World) :
  wf w -> closed (store w) = false ->
  exists w',
    run (map CallTakeSnapshot fs) w = Returns w'
    /\ wf w' /\ closed (store w') = false
    /\ leases w' = leases w
    /\ (Engine.next_snapshot (engine w) <= Engine.next_snapshot (engine w'))%nat
    /\ (In None fs ->
        exists n, snap (store w') = Some n
                  /\ (Engine.next_snapshot (engine w) <= n)%nat).
Proof.
  revert w. induction fs as [|f fs IH]; simpl; intros w Hwf Hopen.
  - exists w. conj_split; auto. intros [].
  - destruct (wf_TakeSnapshot f w Hwf) as (w1 & err & Hex & Hwf1).
    pose proof (TakeSnapshot_leases f w w1 err Hex) as Hl1.
    pose proof (TakeSnapshot_open f w Hwf Hopen) as Hcase.
    rewrite Hex. simpl. destruct f as [e|].
    + rewrite Hex in Hcase. injection Hcase as -> _.
      destruct (IH w Hwf Hopen) as (w' & Hrun & Hwf' & Hop' & Hl' & Hn' & Hadv).
      exists w'. conj_split; auto. intros [Hf|Hin]; [discriminate|auto].
    + destruct Hcase as (w1' & Hex' & Hs1 & Hn1 & Hop1).
      rewrite Hex in Hex'. injection Hex' as <- _.
      destruct (IH w1 Hwf1 Hop1) as (w' & Hrun & Hwf' & Hop' & Hl' & Hn' & Hadv).
      exists w'. conj_split; auto; try congruence; try lia.
      intros _. destruct (in_dec (option_eq_dec_fault) None fs) as [Hin|Hnot].
      * destruct (Hadv Hin) as (n & Hsn & Hle). exists n. split; [exact Hsn|lia].
      * exists (Engine.next_snapshot (engine w)). split; [|lia].
        clear -Hrun Hnot Hs1 Hwf1 Hop1.
        revert w1 Hrun Hs1 Hwf1 Hop1.
        induction fs as [|f fs IHfs]; simpl; intros w1 Hrun Hs1 Hwf1 Hop1.
        { injection Hrun as <-. exact Hs1. }
        destruct f as [e|]; [|exfalso; apply Hnot; left; reflexivity].
        pose proof (TakeSnapshot_open (Some e) w1 Hwf1 Hop1) as Hfail.
        simpl in Hfail. rewrite Hfail in Hrun. simpl in Hrun.
        apply (IHfs ltac:(intros Hin; apply Hnot; right; exact Hin) w1); auto.
Qed.

(** Calls of [TakeSnapshot] that all fail leave the world as it is. *)
Lemma run_TakeSnapshots_failing (fs : list Fault) (w : World) :
  wf w -> closed (store w) = false -> ~ In None fs ->
  run (map CallTakeSnapshot fs) w = Returns w.
Proof.
  intros Hwf Hopen. induction fs as [|f fs IH]; simpl; intros Hnot; [reflexivity|].
  destruct f as [e|]; [|exfalso; apply Hnot; left; reflexivity].
  pose proof (TakeSnapshot_open (Some e) w Hwf Hopen) as Hfail.
  simpl in Hfail. rewrite Hfail. simpl. apply IH. intros Hin. apply Hnot. right. exact Hin.
Qed.

(** C3. A lease is taken on the current snapshot [h] of a well-formed
    open store, and then [TakeSnapshot] is called once per element of
    [fs], with the faults [fs] says. After any number [k] of these calls
    the lease is still bound to [h], and [h] is still registered with a
    count of at least 1 and not released in the engine. Releasing the
    lease at the end takes exactly one count off [h] - removing its entry
    and releasing it in the engine when that was the last count, and not
    releasing it otherwise - and leaves every other registry entry and the
    current snapshot as they were. When the current snapshot has advanced,
    that is when some call has succeeded, it is no longer [h], so its count
    is unchanged too. When no call has succeeded, the world is still the
    one the lease was taken in: [h] is the current snapshot, it has the
    store's count and the lease's, and the count taken off is one of
    these. *)
Theorem lease_outlives_TakeSnapshot
    (w w1 : World) (a h : nat) (rel : World -> World) (fs : list Fault) :
  wf w ->
  (Z.of_nat (length (leases w)) + 1 < GoInt.max_int)%Z ->
  snap (store w) = Some h ->
  GetSnapshot w = (w1, Some a, rel) ->
  (forall k, (k <= length fs)%nat ->
     exists wk,
       run (map CallTakeSnapshot (firstn k fs)) w1 = Returns wk
       /\ leases wk !! a = Some (mkSnap (Some h))
       /\ is_Some (activeSnaps (store wk) !! Some h)
       /\ (1 <= count_of (activeSnaps (store wk)) (Some h))%Z
       /\ Engine.alive h (engine wk))
  /\ exists wN,
       run (map CallTakeSnapshot fs) w1 = Returns wN
       /\ let cN := count_of (activeSnaps (store wN)) (Some h) in
          let w' := rel wN in
          snap (store w') = snap (store wN)
          /\ (forall k, k <> Some h ->
                activeSnaps (store w') !! k = activeSnaps (store wN) !! k)
          /\ count_of (activeSnaps (store w')) (Some h) = (cN - 1)%Z
          /\ (cN = 1%Z ->
                activeSnaps (store w') !! Some h = None
                /\ released (engine w') = h :: released (engine wN))
          /\ ((1 < cN)%Z -> released (engine w') = released (engine wN))
          /\ (In None fs ->
                snap (store wN) <> Some h
                /\ activeSnaps (store w') !! snap (store wN)
                   = activeSnaps (store wN) !! snap (store wN))
          /\ wf w'
          /\ (~ In None fs ->
                wN = w1 /\ snap (store wN) = Some h /\ (2 <= cN)%Z).
Proof.
  intros Hwf Hroom Hs Hget.
  assert (closed (store w) = false) as Hopen
    by (apply (wf_current w Hwf); rewrite Hs; discriminate).
  pose proof (wf_GetSnapshot w Hwf Hroom) as Hwf1.
  unfold GetSnapshot in Hget, Hwf1. rewrite Hopen in Hget, Hwf1.
  injection Hget as <- <- <-. simpl in Hwf1.
  match type of Hwf1 with wf ?v => set (w1 := v) in * end.
  assert (closed (store w1) = false) as Hopen1 by exact Hopen.
  assert (leases w1 !! length (leases w) = Some (mkSnap (Some h))) as Ha1.
  { unfold w1. simpl. rewrite Hs, lookup_app_r, Nat.sub_diag by lia. reflexivity. }
  assert (Engine.alive h (engine w1)) as [Hlt1 _] by (eapply lease_pins; eauto).
  split.
  - intros k Hk.
    destruct (run_TakeSnapshots (firstn k fs) w1 Hwf1 Hopen1)
      as (wk & Hrun & Hwfk & _ & Hlk & _ & _).
    exists wk. split; [exact Hrun|].
    assert (leases wk !! length (leases w) = Some (mkSnap (Some h))) as Hak
      by (rewrite Hlk; exact Ha1).
    destruct (lease_pins _ h wk Hwfk Hak) as (Hreg & Hcnt & Halive).
    conj_split; auto; lia.
  - destruct (run_TakeSnapshots fs w1 Hwf1 Hopen1)
      as (wN & Hrun & HwfN & _ & HlN & HnN & Hadv).
    exists wN. split; [exact Hrun|].
    assert (leases wN !! length (leases w) = Some (mkSnap (Some h))) as HaN
      by (rewrite HlN; exact Ha1).
    destruct (lease_pins _ h wN HwfN HaN) as (Hreg & Hcnt & Halive).
    pose proof (wf_release_lease (length (leases w)) wN HwfN) as Hwf'.
    pose proof (release_held h _ wN Hreg Hcnt) as Hout.
    unfold release_lease in *. rewrite HaN in *. simpl in *.
    destruct Hout as [[F1 F2 F3 F4 F5 F6 F7 F8] Hout].
    remember (releaseSnapInternal (Some h) wN) as wr eqn:Hwr. clear Hwr.
    remember (count_of (activeSnaps (store wN)) (Some h)) as cN eqn:HcN.
    assert (forall k, k <> Some h ->
              activeSnaps (store wr) !! k = activeSnaps (store wN) !! k) as Hother.
    { intros k Hk. destruct (decide (1 < cN)%Z); destruct Hout as [-> _].
      - apply lookup_insert_ne. congruence.
      - apply lookup_delete_ne. congruence. }
    conj_split; auto.
    + destruct (decide (1 < cN)%Z); destruct Hout as [-> _].
      * rewrite count_of_insert. decide_all.
      * rewrite count_of_delete. decide_all.
    + intros ->. destruct (decide (1 < 1)%Z); [lia|]. destruct Hout as [-> ->].
      split; [apply lookup_delete_eq|reflexivity].
    + intros Hgt. destruct (decide (1 < cN)%Z); [|lia]. apply Hout.
    + intros Hin. destruct (Hadv Hin) as (n & Hsn & Hle).
      assert (snap (store wN) <> Some h) as Hne by (rewrite Hsn; intros [= ->]; lia).
      split; [exact Hne|]. apply Hother. exact Hne.
    + intros Hnot.
      rewrite (run_TakeSnapshots_failing fs w1 Hwf1 Hopen1 Hnot) in Hrun.
      injection Hrun as <-. split; [reflexivity|]. split; [exact Hs|].
      pose proof (lease_count_bound (Some h) _ _ _ HaN eq_refl) as Hlc.
      rewrite HcN, (wf_counts w1 HwfN h). unfold holders, self_ref.
      destruct (decide (snap (store w1) = Some h)) as [_|Hne];
        [lia | exfalso; apply Hne; exact Hs].
Qed.

Lemma lease_outlives_TakeSnapshot_witness :
  let fs := [None; Some (ErrIO "no space"); None] in
  let rel := snd (GetSnapshot sample_world) in
  exists wN,
    run (map CallTakeSnapshot fs) leased_world = Returns wN
    /\ let cN := count_of (activeSnaps (store wN)) (Some 0%nat) in
       let w' := rel wN in
       snap (store w') = snap (store wN)
       /\ (forall k, k <> Some 0%nat ->
             activeSnaps (store w') !! k = activeSnaps (store wN) !! k)
       /\ count_of (activeSnaps (store w')) (Some 0%nat) = (cN - 1)%Z
       /\ (cN = 1%Z ->
             activeSnaps (store w') !! Some 0%nat = None
             /\ released (engine w') = 0%nat :: released (engine wN))
       /\ ((1 < cN)%Z -> released (engine w') = released (engine wN))
       /\ (In None fs ->
             snap (store wN) <> Some 0%nat
             /\ activeSnaps (store w') !! snap (store wN)
                = activeSnaps (store wN) !! snap (store wN))
       /\ wf w'
       /\ (~ In None fs ->
             wN = leased_world /\ snap (store wN) = Some 0%nat /\ (2 <= cN)%Z).
Proof.
  refine (proj2 (lease_outlives_TakeSnapshot sample_world leased_world 0%nat 0%nat
                   (snd (GetSnapshot sample_world))
                   [None; Some (ErrIO "no space"); None]
                   wf_sample_world _ eq_refl eq_refl)).
  simpl. unfold GoInt.max_int. lia.
Defined.

Example lease_outlives_sample :
  let rel := snd (GetSnapshot sample_world) in
  match run (map CallTakeSnapshot [None; Some (ErrIO "no space"); None]) leased_world with
  | Returns wN =>
      snap (store wN) = Some 2%nat
      /\ map_to_list (activeSnaps (store wN)) = [(Some 2%nat, 1%Z); (Some 0%nat, 1%Z)]
      /\ released (engine wN) = [1%nat]
      /\ map_to_list (activeSnaps (store (rel wN))) = [(Some 2%nat, 1%Z)]
      /\ released (engine (rel wN)) = [0%nat; 1%nat]
  | Panics => False
  end.
Proof. vm_compute. auto 6. Qed.

(** Where the current snapshot has not advanced - no call of
    [TakeSnapshot], or none that succeeded - the lease is on the current
    snapshot itself, and releasing it takes the count of the current
    snapshot from 2 to 1. *)
Example lease_on_current_snapshot :
  let rel := snd (GetSnapshot sample_world) in
  let failing := [Some (ErrIO "no space"); Some (ErrIO "no space")] in
  GetSnapshot sample_world = (leased_world, Some 0%nat, rel)
  /\ run (map CallTakeSnapshot []) leased_world = Returns leased_world
  /\ run (map CallTakeSnapshot failing) leased_world = Returns leased_world
  /\ snap (store leased_world) = Some 0%nat
  /\ count_of (activeSnaps (store leased_world)) (Some 0%nat) = 2%Z
  /\ snap (store (rel leased_world)) = Some 0%nat
  /\ count_of (activeSnaps (store (rel leased_world))) (Some 0%nat) = 1%Z.
Proof.
  split; [reflexivity|]. split; [reflexivity|]. split; [reflexivity|].
  repeat split; vm_compute; reflexivity.
Qed.

(** ** C7: [Scan] *)

Lemma first_fault (n : nat) (fs : list Fault) :
  (forall j, (j <= n)%nat -> nth j fs None = None)
  \/ exists i e, (i <= n)%nat
                 /\ (forall j, (j < i)%nat -> nth j fs None = None)
                 /\ nth i fs None = Some e.
Proof.
  induction n as [|n IH].
  - destruct (nth 0 fs None) as [e|] eqn:E.
    + right. exists 0%nat, e. split; [lia|]. split; [intros j Hj; lia|exact E].
    + left. intros j Hj. replace j with 0%nat by lia. exact E.
  - destruct IH as [Hq|(i & e & Hi & Hq & He)].
    + destruct (nth (S n) fs None) as [e|] eqn:E.
      * right. exists (S n), e. split; [lia|]. split; [|exact E].
        intros j Hj. apply Hq. lia.
      * left. intros j Hj. destruct (decide (j = S n)) as [->|Hne]; [exact E|].
        apply Hq. lia.
    + right. exists i, e. split; [lia|]. auto.
Qed.

(** C7. On a well-formed open store let [matching] be the entries of the
    live table whose key starts with [prefix], in the table's ascending
    order, and [n] the number of them the limit admits (all of them when
    [limit <= 0]). The loop calls [Next] at most [n + 1] times. If none of
    these calls fails, [Scan] returns the first [n] matching entries: each
    has the prefix and carries the bytes of the live entry, they ascend,
    there are at most [limit] of them when [limit > 0], and they are all
    the matching entries when [limit <= 0]. If one of these calls fails,
    [Scan] returns "scan failed" and no entries at all. One of the two
    cases always applies. The slices returned are copies of their own: in
    the memory [Scan] leaves, where the iterator has overwritten its arrays
    at every move and at its release, they read those entries; no two of
    them view the same array and none views an array of the iterator; and
    they go on reading the same whatever is written to any array that is
    not theirs. *)
Theorem Scan_spec (fs : list Fault) (pfx : bytes) (limit : Z) (w : World) :
  wf w -> closed (store w) = false ->
  let matching := Table.slice (BytesPrefix pfx) (table (engine w)) in
  let n := scan_budget limit 0 (length matching) in
  let rs := firstn n matching in
  ((forall j, (j <= n)%nat -> nth j fs None = None) ->
     Scan fs pfx limit w = Returns (rs, None))
  /\ (forall i e, (i <= n)%nat ->
        (forall j, (j < i)%nat -> nth j fs None = None) ->
        nth i fs None = Some e ->
        Scan fs pfx limit w = Returns ([], Some (ErrScanFailed e)))
  /\ (exists r, Scan fs pfx limit w = Returns r
                /\ (r = (rs, None) \/ exists e, r = ([], Some (ErrScanFailed e))))
  /\ (forall k v, In (k, v) rs ->
        (exists rest, k = pfx ++ rest)
        /\ Table.get k (table (engine w)) = Some v)
  /\ Table.ascending rs
  /\ ((0 < limit)%Z -> (Z.of_nat (length rs) <= limit)%Z)
  /\ ((limit <= 0)%Z ->
        rs = matching
        /\ forall k v rest, In (k, v) (table (engine w)) -> k = pfx ++ rest ->
                            In (k, v) rs)
  /\ ((forall j, (j <= n)%nat -> nth j fs None = None) ->
      exists m slices,
        Scan_slices fs pfx limit w = Returns (m, slices, None)
        /\ contents m slices = rs
        /\ NoDup (arrays slices)
        /\ ~ In Engine.iter_key (arrays slices)
        /\ ~ In Engine.iter_value (arrays slices)
        /\ forall s b, ~ In s (arrays slices) ->
             contents (Mem.write s b m) slices = rs).
Proof.
  intros Hwf Hopen matching n rs.
  assert ((forall j, (j <= n)%nat -> nth j fs None = None) ->
          Scan fs pfx limit w = Returns (rs, None)) as Hok.
  { intros Hq. apply Scan_quiet; auto. }
  assert (forall i e, (i <= n)%nat ->
            (forall j, (j < i)%nat -> nth j fs None = None) ->
            nth i fs None = Some e ->
            Scan fs pfx limit w = Returns ([], Some (ErrScanFailed e))) as Hfail.
  { intros i e Hi Hq He. eapply Scan_fault; eauto. }
  assert (Table.ascending matching) as Hasc
    by (apply slice_ascending, (wf_table w Hwf)).
  conj_split; auto.
  - destruct (first_fault n fs) as [Hq|(i & e & Hi & Hq & He)].
    + eexists. split; [apply Hok; exact Hq|]. auto.
    + eexists. split; [eapply Hfail; eauto|]. eauto.
  - intros k v Hin. apply firstn_In in Hin.
    apply slice_prefix_In in Hin as [Hin Hp]. simpl in Hp. split.
    + apply has_prefix_app. exact Hp.
    + apply get_In; [apply (wf_table w Hwf)|exact Hin].
  - apply firstn_ascending. exact Hasc.
  - intros Hpos. unfold rs, n, scan_budget.
    apply Z.ltb_lt in Hpos. rewrite Hpos. rewrite length_firstn. lia.
  - intros Hle.
    assert (rs = matching) as Hall.
    { unfold rs, n, scan_budget. apply Z.ltb_ge in Hle. rewrite Hle. apply firstn_all. }
    split; [exact Hall|]. intros k v rest Hin ->. rewrite Hall.
    apply slice_prefix_In. split; [exact Hin|]. simpl. apply has_prefix_app. eauto.
  - intros Hq.
    pose proof (contents_slots [[]; []] rs) as Hread.
    exists ([] :: [] :: cells rs), (slots 2 (length rs)). conj_split.
    + apply Scan_slices_quiet; auto.
    + exact Hread.
    + apply slots_NoDup.
    + intros Hin. apply slots_bound in Hin. unfold Engine.iter_key in Hin. lia.
    + intros Hin. apply slots_bound in Hin. unfold Engine.iter_value in Hin. lia.
    + intros s b Hs. rewrite contents_write by exact Hs. exact Hread.
Qed.

Lemma Scan_spec_witness :
  Scan [] (bytes_of "user:") 2 sample_world
  = Returns ([(bytes_of "user:1", bytes_of "v1"); (bytes_of "user:2", bytes_of "v2")], None).
Proof.
  destruct (Scan_spec [] (bytes_of "user:") 2 sample_world wf_sample_world eq_refl)
    as [Hok _].
  rewrite Hok; [reflexivity|].
  intros j _. destruct j; reflexivity.
Defined.

(** The same call in memory: the iterator's two arrays, cleared by its
    release, and after them the copies, which the returned slices view. *)
Example Scan_slices_sample :
  Scan_slices [] (bytes_of "user:") 2 sample_world
  = Returns ([ []; [];
               bytes_of "user:1"; bytes_of "v1"; bytes_of "user:2"; bytes_of "v2" ],
             [ (2%nat, 3%nat); (4%nat, 5%nat) ], None).
Proof. reflexivity. Qed.

Example Scan_unlimited :
  Scan [] (bytes_of "user:") 0 sample_world
  = Returns ([(bytes_of "user:1", bytes_of "v1"); (bytes_of "user:2", bytes_of "v2"); (bytes_of "user:3", bytes_of "v3")], None).
Proof. reflexivity. Qed.

(** The third [Next] fails after the limit of two has been gathered: the
    two entries are dropped with the rest. *)
Example Scan_discards_partial_results :
  Scan [None; None; Some (ErrIO "read error")] (bytes_of "user:") 2 sample_world
  = Returns ([], Some (ErrScanFailed (ErrIO "read error"))).
Proof. reflexivity. Qed.

(** ** C8: [Get] *)

(** C8. [Get] on a closed store fails with "database is closed". On an
    open store its answer is made from the engine's answer about the live
    table alone: a key the table holds comes back with its value; a key
    the table lacks comes back as no value and no error; and an error is
    returned, as "failed to get data", exactly when the engine reported an
    error other than not-found. What a snapshot froze plays no part: a
    [Put] is seen by the next [Get] while every snapshot still reads as
    before. *)
Theorem Get_spec (f : Fault) (key : bytes) (w : World) :
  (closed (store w) = true ->
     Get f key w = Returns (None, Some ErrDatabaseClosed))
  /\ (closed (store w) = false -> db (store w) <> None ->
      (ldb_closed (engine w) = false -> f = None ->
         Get f key w = Returns (Table.get key (table (engine w)), None))
      /\ (ldb_closed (engine w) = false -> f = None ->
          Table.get key (table (engine w)) = None ->
          Get f key w = Returns (None, None))
      /\ (snd (Engine.Get f key (engine w)) = Some ErrNotFound ->
          Get f key w = Returns (None, None))
      /\ (forall v err,
            Get f key w = Returns (v, Some err) <->
            v = None
            /\ exists e, snd (Engine.Get f key (engine w)) = Some e
                         /\ e <> ErrNotFound /\ err = ErrGetFailed e)
      /\ (forall value w',
            Put None key value w = Returns (w', None) ->
            Get None key w' = Returns (Some value, None)
            /\ forall h k, Engine.SnapshotGet h k (engine w')
                           = Engine.SnapshotGet h k (engine w))).
Proof.
  split; [intros Hcl; unfold Get; rewrite Hcl; reflexivity|].
  intros Hopen Hdb. unfold Get. rewrite Hopen.
  destruct (db (store w)) as [r|] eqn:Hr; [clear Hdb|congruence].
  conj_split.
  - intros Hec ->. unfold Engine.Get. rewrite Hec.
    destruct (Table.get key (table (engine w))); reflexivity.
  - intros Hec -> Habs. unfold Engine.Get. rewrite Hec, Habs. reflexivity.
  - destruct (Engine.Get f key (engine w)) as [v r']. simpl. intros ->. reflexivity.
  - intros v err. destruct (Engine.Get f key (engine w)) as [v' [[| |msg]|]]; simpl.
    + split; [discriminate|]. intros (_ & e & [= <-] & Hne & _). congruence.
    + split.
      * intros [= <- <-]. split; [reflexivity|]. eexists. split; [reflexivity|].
        split; [discriminate|reflexivity].
      * intros (-> & e & [= <-] & _ & ->). reflexivity.
    + split.
      * intros [= <- <-]. split; [reflexivity|]. eexists. split; [reflexivity|].
        split; [discriminate|reflexivity].
      * intros (-> & e & [= <-] & _ & ->). reflexivity.
    + split; [discriminate|]. intros (_ & e & He & _). discriminate.
  - intros value w'. unfold Put. rewrite Hopen, Hr. unfold Engine.Put.
    destruct (ldb_closed (engine w)) eqn:Hec; [discriminate|].
    intros [= <-]. simpl. unfold Engine.Get. simpl.
    rewrite ?Hec, get_put_same, Hopen, Hr. split; reflexivity.
Qed.

Example Get_absent_key :
  Get None (bytes_of "user:9") sample_world = Returns (None, None).
Proof. reflexivity. Qed.

Example Get_present_key :
  Get None (bytes_of "user:2") sample_world = Returns (Some (bytes_of "v2"), None).
Proof. reflexivity. Qed.

Example Get_engine_failure :
  Get (Some (ErrIO "corrupted block")) (bytes_of "user:2") sample_world
  = Returns (None, Some (ErrGetFailed (ErrIO "corrupted block"))).
Proof. reflexivity. Qed.

(** A write made after the current snapshot was taken: [Get] sees it, the
    snapshot does not. *)
Example Get_is_not_snapshot_isolated :
  match Put None (bytes_of "user:9") (bytes_of "v9") sample_world with
  | Returns (w', _) =>
      Get None (bytes_of "user:9") w' = Returns (Some (bytes_of "v9"), None)
      /\ snap (store w') = Some 0%nat
      /\ Engine.SnapshotGet 0 (bytes_of "user:9") (engine w') = None
  | Panics => False
  end.
Proof. vm_compute. auto. Qed.

(** ** C9: locking *)

Lemma step_consistent (s s' : Locking.Sys) :
  Locking.step s s' -> Locking.consistent s -> Locking.consistent s'.
Proof.
  intros Hstep Hc. destruct Hstep as [m s mu' Hacq|m s before after Hin].
  - unfold Locking.acquire in Hacq.
    destruct Hc as [(Hw & Hr & Hall)|(Hw & Hr & m0 & Hm0 & Hx)];
      rewrite Hw in Hacq; [|destruct (Locking.lock_mode m); discriminate].
    destruct (Locking.lock_mode m) eqn:Hm.
    + injection Hacq as <-. left. simpl. rewrite Hr. auto.
    + destruct (Locking.readers (Locking.mutex s)) eqn:Hn; [|discriminate].
      injection Hacq as <-. right. simpl.
      destruct (Locking.inside s); [|discriminate]. eauto.
  - destruct Hc as [(Hw & Hr & Hall)|(Hw & Hr & m0 & Hm0 & Hx)].
    + left. rewrite Hin in Hall, Hr.
      apply Forall_app in Hall as [Hb Ha].
      apply Forall_cons in Ha as [Hm Ha]. rewrite Hm. simpl.
      rewrite Hw, Hr, !length_app. simpl.
      split; [reflexivity|]. split; [lia|]. apply Forall_app. auto.
    + rewrite Hin in Hm0.
      destruct before as [|x before]; simpl in Hm0;
        [|destruct before; discriminate].
      injection Hm0 as -> ->. rewrite Hx. left. simpl. rewrite Hr. auto.
Qed.

Lemma reachable_consistent (s : Locking.Sys) :
  Locking.reachable s -> Locking.consistent s.
Proof.
  unfold Locking.reachable. intros Hr.
  assert (Locking.consistent Locking.idle) as H0 by (left; simpl; auto).
  induction Hr as [|s1 s2 s3 Hstep Hr IH]; [exact H0|].
  apply IH. eapply step_consistent; eauto.
Qed.

Lemma readers_concurrent (ms : list Locking.Method) :
  Forall (fun m => Locking.lock_mode m = Locking.Shared) ms ->
  Locking.reachable (Locking.mkSys (Locking.mkRWMutex false (length ms)) ms).
Proof.
  unfold Locking.reachable. induction 1 as [|m ms Hm Hms IH].
  - apply rtc_refl.
  - eapply rtc_r; [exact IH|].
    apply (Locking.step_enter m (Locking.mkSys (Locking.mkRWMutex false (length ms)) ms)).
    simpl. rewrite Hm. reflexivity.
Qed.

Lemma writer_alone (s : Locking.Sys) (m : Locking.Method) :
  Locking.reachable s -> In m (Locking.inside s) ->
  Locking.lock_mode m = Locking.Exclusive -> Locking.inside s = [m].
Proof.
  intros Hr Hin Hx.
  destruct (reachable_consistent s Hr) as [(_ & _ & Hall)|(_ & _ & m0 & Hm0 & _)].
  - rewrite List.Forall_forall in Hall. specialize (Hall m Hin). congruence.
  - rewrite Hm0 in Hin. destruct Hin as [->|[]]. exact Hm0.
Qed.

(** C9, as amended. [Get] and [Scan] (and [IsClosed]) take the lock of the
    store in shared mode, so any number of them can be inside their
    critical sections together. [GetSnapshot] takes it in exclusive mode,
    as do [Close], [Put], [Delete], [TakeSnapshot], the release function of
    a lease and [Commit]: whenever one of these is inside its critical
    section, no other call is inside one. *)
Theorem lock_modes :
  (forall m, In m [Locking.MGet; Locking.MScan; Locking.MIsClosed]
             <-> Locking.lock_mode m = Locking.Shared)
  /\ (forall m, In m [Locking.MGetSnapshot; Locking.MClose; Locking.MPut;
                      Locking.MDelete; Locking.MTakeSnapshot; Locking.MRelease;
                      Locking.MCommit]
                <-> Locking.lock_mode m = Locking.Exclusive)
  /\ (forall ms, Forall (fun m => In m [Locking.MGet; Locking.MScan]) ms ->
                 Locking.concurrent ms)
  /\ (forall s m, Locking.reachable s -> In m (Locking.inside s) ->
                  Locking.lock_mode m = Locking.Exclusive ->
                  Locking.inside s = [m]).
Proof.
  conj_split.
  - intros m. destruct m; simpl; split; intros H; try discriminate; try tauto;
      repeat (destruct H as [H|H]; try discriminate); try contradiction.
  - intros m. destruct m; simpl; split; intros H; try discriminate; try tauto;
      repeat (destruct H as [H|H]; try discriminate); try contradiction.
  - intros ms Hms. eexists. apply readers_concurrent.
    eapply Forall_impl; [exact Hms|].
    intros m [<-|[<-|[]]]; reflexivity.
  - intros s m. apply writer_alone.
Qed.

Example three_readers_concurrent :
  Locking.concurrent [Locking.MGet; Locking.MScan; Locking.MGet].
Proof. eexists. apply readers_concurrent. repeat constructor. Qed.

(** C9 fails as written: [GetSnapshot] does not take a shared lock. It
    takes the exclusive one: it has to wait while a [Get] (or another
    [GetSnapshot]) holds the lock, and is never inside its critical
    section together with one. *)
Lemma GetSnapshot_lock_not_shared :
  Locking.lock_mode Locking.MGetSnapshot = Locking.Exclusive
  /\ (forall mu, Locking.acquire (Locking.lock_mode Locking.MGet) Locking.unlocked
                 = Some mu ->
                 Locking.acquire (Locking.lock_mode Locking.MGetSnapshot) mu = None)
  /\ ~ Locking.concurrent [Locking.MGet; Locking.MGetSnapshot]
  /\ ~ Locking.concurrent [Locking.MGetSnapshot; Locking.MGetSnapshot].
Proof.
  split; [reflexivity|]. split; [intros mu [= <-]; reflexivity|].
  split; intros [mu Hr];
    pose proof (writer_alone _ Locking.MGetSnapshot Hr) as H;
    simpl in H; discriminate H; auto.
Qed.

(** * Further properties of the store *)

(** ** The table under [Put] and [Delete] *)

Lemma get_put_other (k k' v : bytes) (t : list entry) :
  k' <> k -> Table.get k' (Table.put k v t) = Table.get k' t.
Proof.
  intros Hne.
  assert (bytes_compare k' k <> Eq) as Hc by (rewrite bytes_compare_eq; exact Hne).
  induction t as [|[k0 v0] t IH]; simpl.
  - destruct (bytes_compare k' k); congruence.
  - destruct (bytes_compare k k0) eqn:E; simpl.
    + apply bytes_compare_eq in E. subst k0.
      destruct (bytes_compare k' k); congruence.
    + destruct (bytes_compare k' k); congruence.
    + destruct (bytes_compare k' k0); auto.
Qed.

Lemma get_delete_other (k k' : bytes) (t : list entry) :
  k' <> k -> Table.get k' (Table.delete k t) = Table.get k' t.
Proof.
  intros Hne.
  assert (bytes_compare k' k <> Eq) as Hc by (rewrite bytes_compare_eq; exact Hne).
  induction t as [|[k0 v0] t IH]; simpl; [reflexivity|].
  destruct (bytes_compare k k0) eqn:E; simpl.
  - apply bytes_compare_eq in E. subst k0.
    destruct (bytes_compare k' k); congruence.
  - destruct (bytes_compare k' k0); auto.
  - destruct (bytes_compare k' k0); auto.
Qed.

Lemma delete_absent (k : bytes) (t : list entry) :
  Table.get k t = None -> Table.delete k t = t.
Proof.
  induction t as [|[k0 v0] t IH]; simpl; [reflexivity|].
  destruct (bytes_compare k k0); [discriminate| |]; intros H; rewrite IH; auto.
Qed.

(** ** [Put] and [Delete] *)

(** X1. On a well-formed open store [Put] never panics and never touches
    the [DB] struct, the leases or any snapshot. When the engine refuses
    the write the error is "failed to put data" and the world is the same
    as before. Otherwise there is no error, the next [Get] of the key
    returns the value just written, and a [Get] of any other key answers
    as it did before. *)
Theorem Put_effects (f : Fault) (key value : bytes) (w : World) :
  wf w -> closed (store w) = false ->
  exists w' err,
    Put f key value w = Returns (w', err)
    /\ store w' = store w
    /\ leases w' = leases w
    /\ (forall h k, Engine.SnapshotGet h k (engine w') = Engine.SnapshotGet h k (engine w))
    /\ match f with
       | Some e => err = Some (ErrPutFailed e) /\ w' = w
       | None =>
           err = None
           /\ Get None key w' = Returns (Some value, None)
           /\ forall g k', k' <> key -> Get g k' w' = Get g k' w
       end.
Proof.
  intros Hwf Hopen. unfold Put. rewrite Hopen, (wf_engine_ref w Hwf Hopen).
  unfold Engine.Put. rewrite (wf_engine_open w Hwf Hopen).
  destruct f as [e|].
  - exists w, (Some (ErrPutFailed e)). destruct w; simpl; auto 6.
  - do 2 eexists. split; [reflexivity|]. simpl.
    split; [reflexivity|]. split; [reflexivity|]. split; [reflexivity|].
    split; [reflexivity|]. unfold Get. simpl.
    rewrite Hopen, (wf_engine_ref w Hwf Hopen). unfold Engine.Get. simpl.
    rewrite (wf_engine_open w Hwf Hopen), get_put_same.
    split; [reflexivity|]. intros g k' Hne. rewrite get_put_other by exact Hne.
    reflexivity.
Qed.

Lemma Put_effects_witness :
  exists w' err,
    Put None (bytes_of "user:4") (bytes_of "v4") sample_world = Returns (w', err)
    /\ store w' = store sample_world
    /\ leases w' = leases sample_world
    /\ (forall h k, Engine.SnapshotGet h k (engine w')
                    = Engine.SnapshotGet h k (engine sample_world))
    /\ err = None
    /\ Get None (bytes_of "user:4") w' = Returns (Some (bytes_of "v4"), None)
    /\ forall g k', k' <> bytes_of "user:4" -> Get g k' w' = Get g k' sample_world.
Proof.
  exact (Put_effects None (bytes_of "user:4") (bytes_of "v4") sample_world
           wf_sample_world eq_refl).
Defined.

(** X2. On a well-formed open store [Delete] never panics and never
    touches the [DB] struct, the leases or any snapshot. When the engine
    refuses, the error is "failed to delete data" and the world is the
    same as before. Otherwise there is no error, the next [Get] of the key
    reports it as not found (no value, no error), a [Get] of any other key
    answers as before, and deleting a key that was not there changes
    nothing at all. *)
Theorem Delete_effects (f : Fault) (key : bytes) (w : World) :
  wf w -> closed (store w) = false ->
  exists w' err,
    Delete f key w = Returns (w', err)
    /\ store w' = store w
    /\ leases w' = leases w
    /\ (forall h k, Engine.SnapshotGet h k (engine w') = Engine.SnapshotGet h k (engine w))
    /\ match f with
       | Some e => err = Some (ErrDeleteFailed e) /\ w' = w
       | None =>
           err = None
           /\ Get None key w' = Returns (None, None)
           /\ (forall g k', k' <> key -> Get g k' w' = Get g k' w)
           /\ (Get None key w = Returns (None, None) -> w' = w)
       end.
Proof.
  intros Hwf Hopen. unfold Delete. rewrite Hopen, (wf_engine_ref w Hwf Hopen).
  unfold Engine.Delete. rewrite (wf_engine_open w Hwf Hopen).
  destruct f as [e|].
  - exists w, (Some (ErrDeleteFailed e)). destruct w; simpl; auto 6.
  - do 2 eexists. split; [reflexivity|]. simpl.
    split; [reflexivity|]. split; [reflexivity|]. split; [reflexivity|].
    split; [reflexivity|]. unfold Get. simpl.
    rewrite Hopen, (wf_engine_ref w Hwf Hopen). unfold Engine.Get. simpl.
    rewrite (wf_engine_open w Hwf Hopen), get_delete_same by apply (wf_table w Hwf).
    split; [reflexivity|]. split.
    + intros g k' Hne. rewrite get_delete_other by exact Hne. reflexivity.
    + destruct (Table.get key (table (engine w))) eqn:Habs; [discriminate|].
      intros _. rewrite delete_absent by exact Habs.
      pose proof (wf_engine_open w Hwf Hopen) as Hec.
      destruct w as [[t c sn rl] d l]. simpl in *. subst c. reflexivity.
Qed.

Lemma Delete_effects_witness :
  exists w' err,
    Delete None (bytes_of "user:2") sample_world = Returns (w', err)
    /\ store w' = store sample_world
    /\ leases w' = leases sample_world
    /\ (forall h k, Engine.SnapshotGet h k (engine w')
                    = Engine.SnapshotGet h k (engine sample_world))
    /\ err = None
    /\ Get None (bytes_of "user:2") w' = Returns (None, None)
    /\ (forall g k', k' <> bytes_of "user:2" -> Get g k' w' = Get g k' sample_world)
    /\ (Get None (bytes_of "user:2") sample_world = Returns (None, None) ->
        w' = sample_world).
Proof.
  exact (Delete_effects None (bytes_of "user:2") sample_world wf_sample_world eq_refl).
Defined.

(** ** [Close] and the leases *)

Lemma lease_count_find (k : SnapshotPtr) (l : list Snap) :
  (1 <= lease_count k l)%nat -> exists a, l !! a = Some (mkSnap k).
Proof.
  induction l as [|[k0] l IH]; simpl; [lia|].
  destruct (decide (k0 = k)) as [->|Hne].
  - intros _. exists 0%nat. reflexivity.
  - intros Hl. destruct IH as [a Ha]; [lia|]. exists (S a). exact Ha.
Qed.

Lemma size_two_keys (m : gmap (option nat) Z) (k1 k2 : SnapshotPtr) :
  k1 <> k2 -> is_Some (m !! k1) -> is_Some (m !! k2) -> (1 < size m)%nat.
Proof.
  intros Hne H1 H2.
  pose proof (map_size_delete_Some k1 m H1) as Hsz.
  assert (size (delete k1 m) <> 0%nat) as Hnz.
  { apply (map_size_ne_0_lookup_2 _ k2). rewrite lookup_delete_ne by exact Hne. exact H2. }
  lia.
Qed.

Lemma size_other_key (m : gmap (option nat) Z) (k : SnapshotPtr) :
  (1 < size m)%nat -> exists k', k' <> k /\ is_Some (m !! k').
Proof.
  intros Hsz.
  assert (size (delete k m) <> 0%nat) as Hnz.
  { rewrite map_size_delete. destruct (m !! k); simpl; lia. }
  apply map_size_ne_0_lookup_1 in Hnz as [k' Hk'].
  exists k'. rewrite lookup_delete in Hk'. case_decide; [|auto].
  destruct Hk' as [? ?]. discriminate.
Qed.

Lemma Close_active_iff (f : Fault) (w : World) :
  closed (store w) = false ->
  (exists n, snd (Close f w) = Some (ErrActiveSnapshots n))
  <-> snapshots_still_active (store w).
Proof.
  intros Hopen. unfold Close. rewrite Hopen.
  destruct ((1 <? size (activeSnaps (store w)))%nat
            || (1 <? count_of (activeSnaps (store w)) (snap (store w)))%Z) eqn:Hg.
  - apply Close_guard in Hg. simpl. split; eauto.
  - apply Close_guard_false in Hg. split; [|tauto]. intros [n Hn]. exfalso.
    destruct (db (store (with_store _ _))); [|discriminate].
    destruct (Engine.Close f _) as [e' [ee|]]; discriminate.
Qed.

(** The guard of [Close] trips exactly when some lease is still out. *)
Lemma active_iff_lease_out (w : World) :
  wf w -> closed (store w) = false ->
  snapshots_still_active (store w) <-> lease_out w.
Proof.
  intros Hwf Hopen.
  destruct (snap (store w)) as [c|] eqn:Hs;
    [|exfalso; apply (proj1 (wf_current w Hwf)); assumption].
  unfold snapshots_still_active, lease_out. rewrite Hs. split.
  - intros [Hsz|Hcnt].
    + destruct (size_other_key _ (Some c) Hsz) as (k & Hne & [c0 Hk]).
      destruct k as [h|]; [|rewrite (wf_no_nil w Hwf) in Hk; discriminate].
      pose proof (wf_positive w Hwf _ _ Hk) as Hpos.
      pose proof (wf_counts w Hwf h) as Hh. unfold count_of in Hh.
      rewrite Hk in Hh. simpl in Hh. unfold holders, self_ref in Hh.
      rewrite Hs in Hh. destruct (decide (Some c = Some h)); [congruence|].
      destruct (lease_count_find (Some h) (leases w)) as [a Ha]; [lia|]. eauto.
    + pose proof (wf_counts w Hwf c) as Hh. unfold holders, self_ref in Hh.
      rewrite Hs in Hh. destruct (decide (Some c = Some c)); [|congruence].
      destruct (lease_count_find (Some c) (leases w)) as [a Ha]; [lia|]. eauto.
  - intros (a & h & Ha).
    destruct (lease_pins a h w Hwf Ha) as (Hreg & Hcnt & _).
    destruct (decide (h = c)) as [->|Hne].
    + right. pose proof (wf_counts w Hwf c) as Hh. unfold holders, self_ref in Hh.
      rewrite Hs in Hh. destruct (decide (Some c = Some c)); [|congruence].
      pose proof (lease_count_bound (Some c) a _ _ Ha eq_refl). lia.
    + left. apply (size_two_keys _ (Some h) (Some c)); [congruence|rewrite Hreg; eauto|].
      destruct (wf_held c w Hwf (wf_current_held c w Hs)) as (Hc & _). rewrite Hc. eauto.
Qed.

(** X3. On a well-formed open store [Close] fails with "cannot close
    database with n active snapshots" exactly when some lease handed out
    by [GetSnapshot] has not been released yet; and then it changes
    nothing. *)
Theorem Close_blocked_iff_lease_out (f : Fault) (w : World) :
  wf w -> closed (store w) = false ->
  ((exists n, snd (Close f w) = Some (ErrActiveSnapshots n)) <-> lease_out w)
  /\ (lease_out w -> fst (Close f w) = w).
Proof.
  intros Hwf Hopen. split.
  - rewrite (Close_active_iff f w Hopen). apply active_iff_lease_out; assumption.
  - intros Hout. apply (active_iff_lease_out w Hwf Hopen) in Hout.
    apply Close_guard in Hout. unfold Close. rewrite Hopen, Hout. reflexivity.
Qed.

Lemma Close_blocked_iff_lease_out_witness :
  ((exists n, snd (Close None leased_world) = Some (ErrActiveSnapshots n))
   <-> lease_out leased_world)
  /\ (lease_out leased_world -> fst (Close None leased_world) = leased_world).
Proof.
  exact (Close_blocked_iff_lease_out None leased_world wf_leased_world eq_refl).
Defined.

(** ** No snapshot is leaked *)

Lemma release_settled (k : SnapshotPtr) (h : nat) (w : World) :
  settled h w -> settled h (releaseSnapInternal k w).
Proof.
  unfold settled, releaseSnapInternal. destruct k as [x|]; [|auto].
  destruct (activeSnaps (store w) !! Some x) as [c|] eqn:Hx;
    [destruct (1 <? c)%Z|]; simpl.
  - intros [Hreg|Hrel]; [left|auto].
    rewrite lookup_insert. case_decide; eauto.
  - intros [Hreg|Hrel]; [|auto].
    destruct (decide (x = h)) as [->|Hne]; [auto|].
    left. rewrite lookup_delete_ne by congruence. exact Hreg.
  - intros [Hreg|Hrel]; [|auto].
    destruct (decide (x = h)) as [->|Hne]; [auto|].
    left. rewrite lookup_delete_ne by congruence. exact Hreg.
Qed.

Lemma release_next (k : SnapshotPtr) (w : World) :
  Engine.next_snapshot (engine (releaseSnapInternal k w))
  = Engine.next_snapshot (engine w).
Proof.
  unfold Engine.next_snapshot. rewrite (frame_snapshots _ _ (release_frame k w)).
  reflexivity.
Qed.

(** A call keeps what was settled settled, and settles what it creates. *)
Lemma exec_accounting (c : Call) (w w' : World) :
  exec c w = Returns w' ->
  (forall h, settled h w -> settled h w')
  /\ (forall h, (h < Engine.next_snapshot (engine w'))%nat ->
                (h < Engine.next_snapshot (engine w))%nat \/ settled h w').
Proof.
  destruct c as [f| |f| |a|f key value|f key|f key|fs pfx limit]; simpl.
  - intros [= <-]. unfold Close.
    destruct (closed (store w)); [auto|]. destruct (_ || _); [auto|].
    pose proof (fun h => release_settled (snap (store w)) h w) as Hkeep.
    pose proof (release_next (snap (store w)) w) as Hnext.
    remember (releaseSnapInternal (snap (store w)) w) as w1 eqn:Hw1. clear Hw1.
    simpl. destruct (db (store w1)).
    + unfold Engine.Close. simpl.
      destruct (ldb_closed (engine w1)); [|destruct f]; simpl;
        (split; [intros h Hh; apply Hkeep in Hh; exact Hh
                |intros h Hh; left; unfold Engine.next_snapshot in *; simpl in *; lia]).
    + simpl. split; [intros h Hh; apply Hkeep in Hh; exact Hh|].
      intros h Hh. left. unfold Engine.next_snapshot in *. simpl in *. lia.
  - intros [= <-]. auto.
  - unfold TakeSnapshot. destruct (closed (store w)); [intros [= <-]; auto|].
    destruct (db (store w)); [|discriminate]. unfold Engine.GetSnapshot.
    destruct (ldb_closed (engine w)); [intros [= <-]; auto|].
    destruct f as [ee|]; [intros [= <-]; auto|].
    simpl. intros [= <-].
    match goal with |- context [releaseSnapInternal ?k ?w0] =>
      pose proof (fun h => release_settled k h w0) as Hkeep;
      pose proof (release_next k w0) as Hnext;
      remember (releaseSnapInternal k w0) as w1 eqn:Hw1; clear Hw1 end.
    unfold Engine.next_snapshot in *. simpl in Hnext.
    rewrite length_app in Hnext. simpl in Hnext. split.
    + intros h Hh.
      assert (settled h w1) as [Hreg|Hrel] by (apply Hkeep; exact Hh).
      * left. simpl. rewrite lookup_insert. case_decide; eauto.
      * right. exact Hrel.
    + intros h Hh. simpl in Hh.
      destruct (decide (h = length (snapshots (engine w)))) as [->|Hne]; [|left; lia].
      right. left. simpl. rewrite lookup_insert_eq. eauto.
  - intros [= <-]. unfold GetSnapshot. destruct (closed (store w)); [auto|].
    simpl. split; [|auto]. intros h [Hreg|Hrel]; [left|right; exact Hrel].
    simpl. rewrite lookup_insert. case_decide; eauto.
  - intros [= <-]. unfold release_lease. destruct (leases w !! a) as [s|]; [|auto].
    pose proof (fun h => release_settled (snap_of s) h w) as Hkeep.
    pose proof (release_next (snap_of s) w) as Hnext.
    remember (releaseSnapInternal (snap_of s) w) as w1 eqn:Hw1. clear Hw1.
    split; [intros h Hh; apply Hkeep in Hh; exact Hh|].
    intros h Hh. left. simpl in Hh. lia.
  - unfold Put. destruct (closed (store w)); [intros [= <-]; auto|].
    destruct (db (store w)); [|discriminate]. unfold Engine.Put.
    destruct (ldb_closed (engine w)); [destruct w; intros [= <-]; auto|].
    destruct f; simpl; intros [= <-]; [destruct w; auto|]. auto.
  - destruct (Get f key w); [|discriminate]. intros [= <-]. auto.
  - unfold Delete. destruct (closed (store w)); [intros [= <-]; auto|].
    destruct (db (store w)); [|discriminate]. unfold Engine.Delete.
    destruct (ldb_closed (engine w)); [destruct w; intros [= <-]; auto|].
    destruct f; simpl; intros [= <-]; [destruct w; auto|]. auto.
  - destruct (Scan fs pfx limit w); [|discriminate]. intros [= <-]. auto.
Qed.

Lemma run_accounted (cs : list Call) (w w' : World) :
  run cs w = Returns w' -> accounted w -> accounted w'.
Proof.
  revert w. induction cs as [|c cs IH]; simpl; intros w.
  - intros [= <-]. auto.
  - destruct (exec c w) as [w1|] eqn:E; [|discriminate].
    intros Hrun Hacc. apply (IH w1 Hrun).
    destruct (exec_accounting c w w1 E) as [Hkeep Hnew].
    intros h Hh. destruct (Hnew h Hh) as [Hold|Hset]; auto.
Qed.

Lemma OpenDB_store (abs : option string) (fopen fsnap fclose : Fault)
    (disk : list entry) (w : World) (err : option Error) :
  OpenDB abs fopen fsnap fclose disk = Returns (Some w, err) ->
  exists absPath,
    abs = Some absPath /\ fopen = None /\ fsnap = None /\ err = None
    /\ w = opened absPath disk.
Proof.
  unfold OpenDB. destruct abs as [absPath|]; [|discriminate].
  destruct fopen; [discriminate|].
  destruct fsnap; simpl; [discriminate|]. intros [= <- <-]. eauto 6.
Qed.

Lemma accounted_opened (absPath : string) (disk : list entry) :
  accounted (opened absPath disk).
Proof.
  intros h Hh. unfold Engine.next_snapshot in Hh. simpl in Hh.
  assert (h = 0%nat) as -> by lia. left. simpl.
  rewrite lookup_singleton_eq. eauto.
Qed.

(** X4. A store is opened, any calls are made on it, and then [Close]
    succeeds. At that point the registry is empty and every snapshot the
    engine has ever created for the store has been released, each of them
    exactly once. *)
Theorem Close_leaves_no_snapshot
    (abs : option string) (fopen fsnap fclose f : Fault) (disk : list entry)
    (cs : list Call) (w w1 : World) :
  Table.ascending disk ->
  OpenDB abs fopen fsnap fclose disk = Returns (Some w, None) ->
  (Z.of_nat (length cs) < GoInt.max_int)%Z ->
  run cs w = Returns w1 ->
  snd (Close f w1) = None ->
  let w' := fst (Close f w1) in
  activeSnaps (store w') = ∅
  /\ NoDup (released (engine w'))
  /\ forall h, In h (released (engine w'))
               <-> (h < Engine.next_snapshot (engine w'))%nat.
Proof.
  intros Hdisk Hopen Hlen Hrun Hok.
  destruct (OpenDB_store _ _ _ _ _ _ _ Hopen) as (p & _ & _ & _ & _ & ->).
  pose proof (wf_opened p disk Hdisk) as Hwf.
  destruct (wf_run cs _ Hwf) as (w1' & Hrun' & Hwf1); [simpl; lia|].
  rewrite Hrun in Hrun'. injection Hrun' as <-.
  pose proof (run_accounted cs _ _ Hrun (accounted_opened p disk)) as Hacc1.
  pose proof (wf_Close f w1 Hwf1) as Hwf'.
  assert (exec (CallClose f) w1 = Returns (fst (Close f w1))) as Hex by reflexivity.
  destruct (exec_accounting _ _ _ Hex) as [Hkeep Hnew].
  assert (accounted (fst (Close f w1))) as Hacc'.
  { intros h Hh. destruct (Hnew h Hh) as [Hold|Hset]; auto. }
  assert (activeSnaps (store (fst (Close f w1))) = ∅) as Hempty.
  { clear Hex Hkeep Hnew Hacc' Hwf'. unfold Close in *.
    destruct (closed (store w1)) eqn:Hcl; [discriminate|].
    destruct ((1 <? size (activeSnaps (store w1)))%nat
              || (1 <? count_of (activeSnaps (store w1)) (snap (store w1)))%Z) eqn:Hg;
      [discriminate|].
    pose proof (proj1 (Close_guard_false (store w1)) Hg) as Hna.
    apply orb_false_iff in Hg as [Hsz _]. apply Nat.ltb_ge in Hsz.
    pose proof (release_current_last w1 Hna) as Hlast.
    destruct (snap (store w1)) as [c|] eqn:Hs;
      [|exfalso; apply (proj1 (wf_current w1 Hwf1)); assumption].
    assert (activeSnaps (store (releaseSnapInternal (Some c) w1)) = ∅) as Hm.
    { rewrite Hlast. simpl. apply map_size_empty_inv.
      destruct (wf_held c w1 Hwf1 (wf_current_held c w1 Hs)) as (Hc & _).
      rewrite map_size_delete_Some by (rewrite Hc; eauto). lia. }
    remember (releaseSnapInternal (Some c) w1) as wr eqn:Hwr. clear Hwr Hlast.
    simpl. destruct (db (store wr)); [|exact Hm].
    destruct (Engine.Close f (engine wr)) as [e' [ee|]]; exact Hm. }
  split; [exact Hempty|]. split; [apply (wf_released _ Hwf')|].
  intros h. split; [apply (wf_created _ Hwf')|].
  intros Hh. destruct (Hacc' h Hh) as [[c Hreg]|Hrel]; [|exact Hrel].
  rewrite Hempty, lookup_empty in Hreg. discriminate.
Qed.

Lemma Close_leaves_no_snapshot_witness :
  let w' := fst (Close None busy_world) in
  activeSnaps (store w') = ∅
  /\ NoDup (released (engine w'))
  /\ forall h, In h (released (engine w'))
               <-> (h < Engine.next_snapshot (engine w'))%nat.
Proof.
  apply (Close_leaves_no_snapshot (Some "/var/index"%string) None None None None
           sample_disk busy_calls sample_world busy_world).
  - exact sample_disk_ascending.
  - reflexivity.
  - simpl. unfold GoInt.max_int. lia.
  - vm_compute. reflexivity.
  - vm_compute. reflexivity.
Defined.

Example busy_world_closed :
  released (engine (fst (Close None busy_world))) = [2; 1; 0]%nat
  /\ Engine.next_snapshot (engine (fst (Close None busy_world))) = 3%nat.
Proof. vm_compute. auto. Qed.

(** ** A lease that is held *)

Lemma exec_lease_kept (c : Call) (a : nat) (s : Snap) (w w' : World) :
  exec c w = Returns w' -> c <> CallRelease a ->
  leases w !! a = Some s -> leases w' !! a = Some s.
Proof.
  intros Hex Hne Ha.
  destruct c as [f| |f| |a'|f key value|f key|f key|fs pfx limit]; simpl in Hex.
  - injection Hex as <-. rewrite Close_leases. exact Ha.
  - injection Hex as <-. exact Ha.
  - destruct (TakeSnapshot f w) as [[w1 err]|] eqn:E; [|discriminate].
    injection Hex as <-. rewrite (TakeSnapshot_leases _ _ _ _ E). exact Ha.
  - injection Hex as <-. unfold GetSnapshot. destruct (closed (store w)); [exact Ha|].
    simpl. apply lookup_app_l_Some. exact Ha.
  - injection Hex as <-. unfold release_lease.
    destruct (leases w !! a') as [s'|]; [|exact Ha]. simpl.
    rewrite (frame_leases _ _ (release_frame _ _)).
    rewrite list_lookup_insert_ne by congruence. exact Ha.
  - destruct (Put f key value w) as [[w1 err]|] eqn:E; [|discriminate].
    injection Hex as <-. apply Put_store in E as [-> _]. exact Ha.
  - destruct (Get f key w); [|discriminate]. injection Hex as <-. exact Ha.
  - destruct (Delete f key w) as [[w1 err]|] eqn:E; [|discriminate].
    injection Hex as <-. apply Delete_store in E as [-> _]. exact Ha.
  - destruct (Scan fs pfx limit w); [|discriminate]. injection Hex as <-. exact Ha.
Qed.

(** The engine never drops or rewrites what a snapshot froze. *)
Lemma exec_snapshots_grow (c : Call) (w w' : World) :
  exec c w = Returns w' ->
  exists more, snapshots (engine w') = snapshots (engine w) ++ more.
Proof.
  destruct c as [f| |f| |a|f key value|f key|f key|fs pfx limit]; simpl.
  - intros [= <-]. exists []. rewrite app_nil_r. unfold Close.
    destruct (closed (store w)); [reflexivity|]. destruct (_ || _); [reflexivity|].
    pose proof (frame_snapshots _ _ (release_frame (snap (store w)) w)) as F.
    simpl. destruct (db _); [|exact F]. unfold Engine.Close. simpl.
    destruct (ldb_closed _); [|destruct f]; exact F.
  - intros [= <-]. exists []. apply eq_sym, app_nil_r.
  - unfold TakeSnapshot. destruct (closed (store w));
      [intros [= <-]; exists []; apply eq_sym, app_nil_r|].
    destruct (db (store w)); [|discriminate]. unfold Engine.GetSnapshot.
    destruct (ldb_closed (engine w));
      [intros [= <-]; exists []; apply eq_sym, app_nil_r|].
    destruct f as [ee|]; [intros [= <-]; exists []; apply eq_sym, app_nil_r|].
    simpl. intros [= <-]. simpl.
    rewrite (frame_snapshots _ _ (release_frame _ _)). simpl. eauto.
  - intros [= <-]. exists []. rewrite app_nil_r. unfold GetSnapshot.
    destruct (closed (store w)); reflexivity.
  - intros [= <-]. exists []. rewrite app_nil_r. unfold release_lease.
    destruct (leases w !! a); [|reflexivity]. simpl.
    apply (frame_snapshots _ _ (release_frame _ _)).
  - unfold Put. destruct (closed (store w));
      [intros [= <-]; exists []; apply eq_sym, app_nil_r|].
    destruct (db (store w)); [|discriminate]. unfold Engine.Put.
    destruct (ldb_closed (engine w)); [|destruct f]; intros [= <-];
      exists []; apply eq_sym, app_nil_r.
  - destruct (Get f key w); [|discriminate]. intros [= <-].
    exists []. apply eq_sym, app_nil_r.
  - unfold Delete. destruct (closed (store w));
      [intros [= <-]; exists []; apply eq_sym, app_nil_r|].
    destruct (db (store w)); [|discriminate]. unfold Engine.Delete.
    destruct (ldb_closed (engine w)); [|destruct f]; intros [= <-];
      exists []; apply eq_sym, app_nil_r.
  - destruct (Scan fs pfx limit w); [|discriminate]. intros [= <-].
    exists []. apply eq_sym, app_nil_r.
Qed.

(** While a lease is out no call closes the store (and none reopens it). *)
Lemma exec_closed_kept (c : Call) (w w' : World) :
  wf w -> lease_out w -> exec c w = Returns w' ->
  closed (store w') = closed (store w).
Proof.
  intros Hwf Hout Hex.
  destruct (closed (store w)) eqn:Hcl; [eapply exec_closed; eauto|].
  destruct c as [f| |f| |a|f key value|f key|f key|fs pfx limit]; simpl in Hex.
  - injection Hex as <-.
    apply (active_iff_lease_out w Hwf Hcl), Close_guard in Hout.
    unfold Close. rewrite Hcl, Hout. exact Hcl.
  - injection Hex as <-. exact Hcl.
  - destruct (TakeSnapshot f w) as [[w1 err]|] eqn:E; [|discriminate].
    injection Hex as <-. unfold TakeSnapshot in E. rewrite Hcl in E.
    destruct (db (store w)); [|discriminate].
    destruct (Engine.GetSnapshot f (engine w)) as [[e' s'] [ee|]];
      injection E as <- _; [exact Hcl|].
    simpl. rewrite (frame_closed _ _ (release_frame _ _)). exact Hcl.
  - injection Hex as <-. unfold GetSnapshot. rewrite Hcl. exact Hcl.
  - injection Hex as <-. unfold release_lease. destruct (leases w !! a); [|exact Hcl].
    simpl. rewrite (frame_closed _ _ (release_frame _ _)). exact Hcl.
  - destruct (Put f key value w) as [[w1 err]|] eqn:E; [|discriminate].
    injection Hex as <-. apply Put_store in E as [_ ->]. exact Hcl.
  - destruct (Get f key w); [|discriminate]. injection Hex as <-. exact Hcl.
  - destruct (Delete f key w) as [[w1 err]|] eqn:E; [|discriminate].
    injection Hex as <-. apply Delete_store in E as [_ ->]. exact Hcl.
  - destruct (Scan fs pfx limit w); [|discriminate]. injection Hex as <-. exact Hcl.
Qed.

(** X5. A lease that is not released keeps pinning its snapshot whatever
    else is called - writes, new snapshots, other leases taken and
    released, attempts to close: the lease stays bound, its snapshot stays
    registered with a count of at least 1 and unreleased in the engine,
    the snapshot reads exactly as when the lease was taken, and an open
    store is still open (no [Close] can have succeeded). *)
Theorem held_lease_pins_snapshot (a h : nat) (cs : list Call) (w : World) :
  wf w ->
  (Z.of_nat (length (leases w)) + Z.of_nat (length cs) < GoInt.max_int)%Z ->
  leases w !! a = Some (mkSnap (Some h)) ->
  ~ In (CallRelease a) cs ->
  exists w',
    run cs w = Returns w'
    /\ leases w' !! a = Some (mkSnap (Some h))
    /\ (exists c, activeSnaps (store w') !! Some h = Some c /\ (1 <= c)%Z)
    /\ Engine.alive h (engine w')
    /\ (forall key, Engine.SnapshotGet h key (engine w')
                    = Engine.SnapshotGet h key (engine w))
    /\ closed (store w') = closed (store w).
Proof.
  revert w. induction cs as [|c cs IH]; simpl; intros w Hwf Hroom Ha Hnot.
  - exists w. destruct (lease_pins a h w Hwf Ha) as (Hreg & Hcnt & Halive).
    conj_split; auto. eexists. split; [exact Hreg|lia].
  - destruct (wf_exec c w Hwf) as (w1 & Hex & Hwf1); [lia|]. rewrite Hex.
    assert (c <> CallRelease a) as Hc by (intros ->; apply Hnot; auto).
    pose proof (exec_lease_kept c a _ w w1 Hex Hc Ha) as Ha1.
    destruct (IH w1 Hwf1) as (w' & Hrun & Ha' & Hreg' & Halive' & Hview & Hcl);
      [|exact Ha1|tauto|].
    { destruct (exec_leases c w w1 Hex) as [->|[[s ->]|[a' [_ ->]]]];
        rewrite ?length_app, ?length_insert; simpl; lia. }
    exists w'. conj_split; auto.
    + intros key. rewrite Hview.
      destruct (exec_snapshots_grow c w w1 Hex) as [more Hmore].
      destruct (lease_pins a h w Hwf Ha) as (_ & _ & [Hlt _]).
      unfold Engine.SnapshotGet, Engine.next_snapshot in *.
      rewrite Hmore, nth_error_app1 by exact Hlt. reflexivity.
    + rewrite Hcl. apply (exec_closed_kept c w w1 Hwf); [|exact Hex].
      exists a, h. exact Ha.
Qed.

Lemma held_lease_pins_snapshot_witness :
  exists w',
    run [CallTakeSnapshot None; CallPut None (bytes_of "user:4") (bytes_of "v4");
         CallClose None; CallTakeSnapshot None] leased_world = Returns w'
    /\ leases w' !! 0%nat = Some (mkSnap (Some 0%nat))
    /\ (exists c, activeSnaps (store w') !! Some 0%nat = Some c /\ (1 <= c)%Z)
    /\ Engine.alive 0 (engine w')
    /\ (forall key, Engine.SnapshotGet 0 key (engine w')
                    = Engine.SnapshotGet 0 key (engine leased_world))
    /\ closed (store w') = closed (store leased_world).
Proof.
  apply (held_lease_pins_snapshot 0 0
           [CallTakeSnapshot None; CallPut None (bytes_of "user:4") (bytes_of "v4");
            CallClose None; CallTakeSnapshot None] leased_world).
  - exact wf_leased_world.
  - simpl. unfold GoInt.max_int. lia.
  - reflexivity.
  - simpl. intros [H|[H|[H|[H|[]]]]]; discriminate.
Defined.

(** X6. Taking a lease and releasing it at once is a round trip: the [DB]
    struct (current snapshot, registry counts, flags) and the engine are
    exactly as before, nothing is released in the engine, and all that
    remains is one more [Snap], cleared. *)
Theorem lease_round_trip (w w1 : World) (a : option nat) (rel : World -> World) :
  wf w -> closed (store w) = false ->
  (Z.of_nat (length (leases w)) + 1 < GoInt.max_int)%Z ->
  GetSnapshot w = (w1, a, rel) ->
  store (rel w1) = store w
  /\ engine (rel w1) = engine w
  /\ leases (rel w1) = leases w ++ [mkSnap None].
Proof.
  intros Hwf Hopen Hroom. unfold GetSnapshot. rewrite Hopen. intros [= <- _ <-].
  destruct (snap (store w)) as [c|] eqn:Hs;
    [|exfalso; apply (proj1 (wf_current w Hwf)); assumption].
  destruct (wf_held c w Hwf (wf_current_held c w Hs)) as (Hreg & _ & Hmax).
  pose proof (holders_le c w) as Hle.
  assert (count_of (activeSnaps (store w)) (Some c) = Z.of_nat (holders c w)) as Hc
    by apply (wf_counts w Hwf).
  pose proof (wf_current_held c w Hs) as Hheld.
  rewrite Hc, int_add_one by (unfold GoInt.min_int; lia).
  unfold release_lease. simpl.
  rewrite lookup_app_r, Nat.sub_diag by lia. simpl.
  match goal with |- context [releaseSnapInternal (Some c) ?w0] =>
    rewrite (release_shared c (Z.of_nat (holders c w) + 1) w0);
      [|simpl; apply lookup_insert_eq|lia] end.
  simpl. rewrite int_sub_one by lia.
  rewrite insert_insert_eq.
  replace (Z.of_nat (holders c w) + 1 - 1)%Z with (Z.of_nat (holders c w)) by lia.
  rewrite insert_id by exact Hreg.
  split; [unfold set_activeSnaps; simpl; destruct (store w); reflexivity|].
  split; [reflexivity|].
  rewrite insert_app_r_alt, Nat.sub_diag by lia. reflexivity.
Qed.

Lemma lease_round_trip_witness :
  store (release_lease 0 leased_world) = store sample_world
  /\ engine (release_lease 0 leased_world) = engine sample_world
  /\ leases (release_lease 0 leased_world) = leases sample_world ++ [mkSnap None].
Proof.
  apply (lease_round_trip sample_world leased_world (Some 0%nat) (release_lease 0)
           wf_sample_world eq_refl).
  - simpl. unfold GoInt.max_int. lia.
  - reflexivity.
Defined.

(** ** A closed store *)

Lemma exec_closed_engine (c : Call) (w w' : World) :
  exec c w = Returns w' -> closed (store w) = true ->
  table (engine w') = table (engine w)
  /\ snapshots (engine w') = snapshots (engine w)
  /\ ldb_closed (engine w') = ldb_closed (engine w)
  /\ db (store w') = db (store w).
Proof.
  intros Hex Hcl. destruct (closed_refuses_all w Hcl) as [R1 R2 R3 R4 R5 R6 R7].
  destruct c as [f| |f| |a|f key value|f key|f key|fs pfx limit]; simpl in Hex;
    rewrite ?R1, ?R2, ?R3, ?R4, ?R5, ?R6, ?R7 in Hex; simpl in Hex;
    injection Hex as <-; auto.
  unfold release_lease. destruct (leases w !! a); [|auto].
  destruct (release_frame (snap_of s) w) as [F1 F2 F3 F4 F5 F6 F7 F8]. simpl. auto.
Qed.

(** X7. Once the store is closed it stays closed: every later call
    returns (none panics), no call reopens it or gives it a current
    snapshot, no write reaches the engine's table, no snapshot is created,
    and at every point all methods that can fail do fail with "database is
    closed". *)
Theorem closed_store_is_final (cs : list Call) (w : World) :
  closed (store w) = true ->
  exists w',
    run cs w = Returns w'
    /\ closed (store w') = true
    /\ snap (store w') = snap (store w)
    /\ table (engine w') = table (engine w)
    /\ snapshots (engine w') = snapshots (engine w)
    /\ refuses_all w'.
Proof.
  revert w. induction cs as [|c cs IH]; simpl; intros w Hcl.
  - exists w. conj_split; auto. apply closed_refuses_all. exact Hcl.
  - destruct (exec_closed_returns c w Hcl) as [w1 Hex]. rewrite Hex.
    destruct (exec_closed c w w1 Hex Hcl) as [Hcl1 Hs1].
    destruct (exec_closed_engine c w w1 Hex Hcl) as (Ht1 & Hsn1 & _ & _).
    destruct (IH w1 Hcl1) as (w' & Hrun & Hcl' & Hs' & Ht' & Hsn' & Href).
    exists w'. conj_split; auto; congruence.
Qed.

Lemma closed_store_is_final_witness :
  exists w',
    run [CallPut None (bytes_of "user:4") (bytes_of "v4"); CallTakeSnapshot None;
         CallGetSnapshot; CallClose None] (fst (Close None sample_world))
    = Returns w'
    /\ closed (store w') = true
    /\ snap (store w') = snap (store (fst (Close None sample_world)))
    /\ table (engine w') = table (engine (fst (Close None sample_world)))
    /\ snapshots (engine w') = snapshots (engine (fst (Close None sample_world)))
    /\ refuses_all w'.
Proof.
  apply (closed_store_is_final
           [CallPut None (bytes_of "user:4") (bytes_of "v4"); CallTakeSnapshot None;
            CallGetSnapshot; CallClose None] (fst (Close None sample_world))).
  reflexivity.
Defined.

(** ** [OpenDB] *)

(** X8. [OpenDB] never panics and returns either a store or an error,
    never both: "failed to get absolute path" when the path cannot be
    resolved, "failed to open leveldb" when the engine cannot be opened,
    and the error of the first [TakeSnapshot] when that fails. Otherwise
    the store is open under the resolved path, its engine holds what the
    directory held, snapshot 0 is current and registered with count 1 and
    reads what the directory held, no lease exists, and the world is
    well-formed. *)
Theorem OpenDB_outcomes (abs : option string) (fopen fsnap fclose : Fault)
    (disk : list entry) :
  Table.ascending disk ->
  match abs, fopen, fsnap with
  | None, _, _ =>
      OpenDB abs fopen fsnap fclose disk = Returns (None, Some ErrAbsPath)
  | Some _, Some e, _ =>
      OpenDB abs fopen fsnap fclose disk = Returns (None, Some (ErrOpenFailed e))
  | Some _, None, Some e =>
      OpenDB abs fopen fsnap fclose disk = Returns (None, Some (ErrSnapshotFailed e))
  | Some absPath, None, None =>
      exists w,
        OpenDB abs fopen fsnap fclose disk = Returns (Some w, None)
        /\ path (store w) = absPath
        /\ closed (store w) = false
        /\ snap (store w) = Some 0%nat
        /\ (forall k, activeSnaps (store w) !! k
                      = if decide (k = Some 0%nat) then Some 1%Z else None)
        /\ leases w = []
        /\ table (engine w) = disk
        /\ released (engine w) = []
        /\ (forall key, Engine.SnapshotGet 0 key (engine w) = Table.get key disk)
        /\ wf w
  end.
Proof.
  intros Hdisk. destruct abs as [absPath|]; [|reflexivity].
  destruct fopen as [e|]; [reflexivity|].
  destruct fsnap as [e|]; [reflexivity|].
  exists (opened absPath disk). conj_split; try reflexivity.
  - intros k. simpl. rewrite lookup_singleton.
    destruct (decide (Some 0%nat = k)), (decide (k = Some 0%nat)); congruence.
  - apply wf_opened. exact Hdisk.
Qed.

Lemma OpenDB_outcomes_witness :
  exists w,
    OpenDB (Some "/var/index"%string) None None None sample_disk = Returns (Some w, None)
    /\ path (store w) = "/var/index"%string
    /\ closed (store w) = false
    /\ snap (store w) = Some 0%nat
    /\ (forall k, activeSnaps (store w) !! k
                  = if decide (k = Some 0%nat) then Some 1%Z else None)
    /\ leases w = []
    /\ table (engine w) = sample_disk
    /\ released (engine w) = []
    /\ (forall key, Engine.SnapshotGet 0 key (engine w) = Table.get key sample_disk)
    /\ wf w.
Proof.
  exact (OpenDB_outcomes (Some "/var/index"%string) None None None sample_disk
           sample_disk_ascending).
Defined.

Lemma opened_store_invariant_witness :
  exists w',
    run busy_calls sample_world = Returns w'
    /\ (forall h, count_of (activeSnaps (store w')) (Some h) = Z.of_nat (holders h w'))
    /\ NoDup (released (engine w')).
Proof.
  apply (opened_store_invariant (Some "/var/index"%string) None None None
           sample_disk busy_calls sample_world sample_disk_ascending eq_refl).
  simpl. unfold GoInt.max_int. lia.
Defined.

(** ** [Scan] together with [Get] and with itself *)

Lemma get_Some_In (k v : bytes) (t : list entry) :
  Table.get k t = Some v -> In (k, v) t.
Proof.
  induction t as [|[k0 v0] t IH]; simpl; [discriminate|].
  destruct (bytes_compare k k0) eqn:E; auto.
  apply bytes_compare_eq in E. subst k0. intros [= ->]. auto.
Qed.

(** X9. With no failing [Next], an unlimited [Scan] of a well-formed open
    store returns exactly the pairs that [Get] returns for the keys with
    the prefix, and a [Scan] with a positive limit returns the first
    [limit] pairs of the unlimited one. *)
Theorem Scan_agrees_with_Get (fs : list Fault) (pfx : bytes) (w : World) :
  wf w -> closed (store w) = false ->
  (forall j, nth j fs None = None) ->
  exists all,
    Scan fs pfx 0 w = Returns (all, None)
    /\ (forall k v, In (k, v) all <->
                    has_prefix pfx k = true
                    /\ Get None k w = Returns (Some v, None))
    /\ forall limit, (0 < limit)%Z ->
         Scan fs pfx limit w = Returns (firstn (Z.to_nat limit) all, None).
Proof.
  intros Hwf Hopen Hq.
  exists (Table.slice (BytesPrefix pfx) (table (engine w))). conj_split.
  - rewrite (Scan_quiet fs pfx 0 w (length (Table.slice (BytesPrefix pfx)
                                                (table (engine w)))));
      [|assumption|assumption|reflexivity|auto].
    rewrite firstn_all. reflexivity.
  - intros k v. rewrite (slice_prefix_In pfx _ (k, v)). simpl.
    unfold Get. rewrite Hopen, (wf_engine_ref w Hwf Hopen). unfold Engine.Get.
    rewrite (wf_engine_open w Hwf Hopen). split.
    + intros [Hin Hp]. split; [exact Hp|].
      rewrite (get_In k v _ (wf_table w Hwf) Hin). reflexivity.
    + intros [Hp Hget]. split; [|exact Hp].
      destruct (Table.get k (table (engine w))) as [v'|] eqn:E; [|discriminate].
      injection Hget as ->. apply get_Some_In. exact E.
  - intros limit Hpos.
    set (matching := Table.slice (BytesPrefix pfx) (table (engine w))).
    rewrite (Scan_quiet fs pfx limit w (Nat.min (Z.to_nat limit) (length matching)));
      [|assumption|assumption| |auto].
    + fold matching.
      destruct (Nat.le_ge_cases (Z.to_nat limit) (length matching)) as [Hle|Hge].
      * rewrite Nat.min_l by exact Hle. reflexivity.
      * rewrite Nat.min_r, firstn_all, firstn_all2 by exact Hge. reflexivity.
    + fold matching. unfold scan_budget. apply Z.ltb_lt in Hpos. rewrite Hpos. simpl.
      rewrite Z.sub_0_r. reflexivity.
Qed.

Lemma Scan_agrees_with_Get_witness :
  exists all,
    Scan [] (bytes_of "user:") 0 sample_world = Returns (all, None)
    /\ (forall k v, In (k, v) all <->
                    has_prefix (bytes_of "user:") k = true
                    /\ Get None k sample_world = Returns (Some v, None))
    /\ forall limit, (0 < limit)%Z ->
         Scan [] (bytes_of "user:") limit sample_world
         = Returns (firstn (Z.to_nat limit) all, None).
Proof.
  apply (Scan_agrees_with_Get [] (bytes_of "user:") sample_world wf_sample_world eq_refl).
  intros j. destruct j; reflexivity.
Defined.

(** * The configuration and the demo run *)

(** ** Arithmetic of the counters *)

Lemma wrap_range (z : Z) : GoInt.in_range (GoInt.wrap z).
Proof.
  unfold GoInt.in_range, GoInt.wrap, GoInt.min_int, GoInt.max_int.
  pose proof (Z.mod_pos_bound (z + 2 ^ 63) (2 ^ 64) ltac:(lia)). lia.
Qed.

Lemma wrap_add_wrap (a b : Z) : GoInt.wrap (GoInt.wrap a + b) = GoInt.wrap (a + b).
Proof.
  unfold GoInt.wrap. f_equal.
  replace ((a + 2 ^ 63) mod 2 ^ 64 - 2 ^ 63 + b + 2 ^ 63)%Z
    with ((a + 2 ^ 63) mod 2 ^ 64 + b)%Z by lia.
  rewrite Zplus_mod_idemp_l. f_equal. lia.
Qed.

(** ** [Load] *)

Lemma search_loop_cons (stat : string -> bool) (path : string) (rest : list string)
    (sc : option string) :
  Conf.search_loop stat (path :: rest) sc =
  if stat path then Some path else Conf.search_loop stat rest (Some path).
Proof. reflexivity. Qed.

(** The loop over a list of candidates that is not empty stops at the first
    one that exists, and at the last one when none does. *)
Lemma search_loop_choice (stat : string -> bool) (search : list string)
    (sc : option string) :
  search <> [] ->
  exists before path after,
    search = before ++ path :: after /\
    Conf.search_loop stat search sc = Some path /\
    List.Forall (fun q => stat q = false) before /\
    (stat path = true \/ after = []).
Proof.
  revert sc. induction search as [|p rest IH]; intros sc Hne; [congruence|].
  rewrite search_loop_cons. destruct (stat p) eqn:Hp.
  - exists [], p, rest. auto.
  - destruct rest as [|q rest'].
    + exists [], p, []. auto.
    + destruct (IH (Some p)) as (before & path & after & Heq & Hl & Hb & Hc);
        [congruence|].
      exists (p :: before), path, after. rewrite Heq, <- Hl.
      conj_split; auto.
      rewrite Heq. reflexivity.
Qed.

(** X11. In server mode [Load] takes the first of "./server.local.yaml",
    "./server.yaml" and "server.yaml" under the root path that [os.Stat]
    finds, and the last of them when none is found. It reads that one file,
    falling back to empty contents, decodes it over a fresh [Conf] that holds
    only the default port, and installs the outcome as the configuration
    whether or not decoding failed; the decoder's error is what [Load]
    returns. What the package variables held before plays no part, and [Get]
    then hands out the installed configuration. *)
Theorem Load_reads_first_found (env : Conf.Env) (g : Conf.Globals) :
  Conf.IsServerMode env = true ->
  exists before path after,
    Conf.search_paths env = before ++ path :: after /\
    List.Forall (fun q => Conf.Stat env q = false) before /\
    (Conf.Stat env path = true \/ after = []) /\
    let fresh :=
      Conf.mkConf EmptyString (Conf.mkFilters (Conf.mkExclude false []) [])
                  (Conf.DefaultListenPort env) in
    let r := Conf.Unmarshal env (Conf.ReadFileWithDefault env path []) fresh in
    Conf.Load env g = Returns (Conf.mkGlobals (Some (fst r)) (Some path), snd r) /\
    Conf.Get env (Conf.mkGlobals (Some (fst r)) (Some path)) = Returns (Some (fst r)).
Proof.
  intros Hmode.
  destruct (search_loop_choice (Conf.Stat env) (Conf.search_paths env) (Conf.serverConf g))
    as (before & path & after & Heq & Hl & Hb & Hc); [discriminate|].
  exists before, path, after. conj_split; auto. cbv zeta. split.
  - unfold Conf.Load, Conf.checkMode. rewrite Hmode, Hl.
    destruct (Conf.Unmarshal env _ _) as [c err]. reflexivity.
  - unfold Conf.Get, Conf.checkMode. rewrite Hmode. reflexivity.
Qed.

Lemma Load_reads_first_found_witness :
  Conf.IsServerMode sample_conf_env = true /\
  exists c,
    Conf.Load sample_conf_env (Conf.mkGlobals None None) =
    Returns (Conf.mkGlobals (Some c) (Some "./server.yaml"%string), None).
Proof.
  split; [reflexivity|].
  destruct (Load_reads_first_found sample_conf_env (Conf.mkGlobals None None) eq_refl)
    as (before & path & after & _ & _ & _ & Hload & _).
  destruct (Conf.Load sample_conf_env (Conf.mkGlobals None None)) as [[g' err]|] eqn:E;
    [|discriminate].
  vm_compute in E. injection E as <- <-. eexists. reflexivity.
Defined.

(** ** The answers of [running.IsShuttingDown()] *)

Lemma quiet_tl (n : nat) (shut : list bool) :
  Indexer.quiet (S n) shut -> hd false shut = false /\ Indexer.quiet n (tl shut).
Proof.
  intros H. split.
  - specialize (H 0%nat ltac:(lia)). destruct shut; auto.
  - intros j Hj. specialize (H (S j) ltac:(lia)).
    destruct shut; simpl in *; auto. destruct j; auto.
Qed.

Lemma quiet_skipn (n m : nat) (shut : list bool) :
  Indexer.quiet (n + m) shut -> Indexer.quiet m (skipn n shut).
Proof.
  intros H j Hj. rewrite nth_skipn. apply H. lia.
Qed.

Lemma quiet_le (n m : nat) (shut : list bool) :
  (n <= m)%nat -> Indexer.quiet m shut -> Indexer.quiet n shut.
Proof. intros Hle H j Hj. apply H. lia. Qed.

Lemma skipn_tl {A : Type} (n : nat) (l : list A) : skipn n (tl l) = skipn (S n) l.
Proof. destruct l; simpl; [apply skipn_nil | reflexivity]. Qed.

(** ** The two loops of [demo] *)

Lemma filter_loop_quiet (env : Indexer.Env) (filter : Indexer.Filter) (files : list string) :
  forall shut acc,
    Indexer.quiet (length files) shut ->
    Indexer.filter_loop env filter shut files acc =
    (Some (acc ++ List.filter
                    (fun file => Indexer.Match env filter (Indexer.Base env file) false)
                    files),
     skipn (length files) shut).
Proof.
  induction files as [|file rest IH]; intros shut acc Hq.
  - simpl. rewrite app_nil_r. reflexivity.
  - apply quiet_tl in Hq as [Hhd Hq]. cbn [Indexer.filter_loop List.filter length].
    rewrite Hhd, <- skipn_tl.
    destruct (Indexer.Match env filter (Indexer.Base env file) false);
      rewrite IH by exact Hq; [rewrite <- app_assoc|]; reflexivity.
Qed.

Lemma concat_full {A : Type} (n : nat) (new : list (list A)) :
  List.Forall (fun b => length b = n) new ->
  length (concat new) = (n * length new)%nat.
Proof.
  induction 1 as [|b new Hb _ IH]; simpl; [lia|].
  rewrite length_app, IH, Hb. lia.
Qed.

Lemma successes_cons (env : Indexer.Env) (baseDir file : string) (rest : list string) :
  Indexer.successes env baseDir (file :: rest) =
  ((if snd (Indexer.Parse env file baseDir) then 0 else 1) +
   Indexer.successes env baseDir rest)%nat.
Proof.
  unfold Indexer.successes. cbn [List.filter].
  destruct (snd (Indexer.Parse env file baseDir)); reflexivity.
Qed.

Lemma failures_cons (env : Indexer.Env) (baseDir file : string) (rest : list string) :
  Indexer.failures env baseDir (file :: rest) =
  ((if snd (Indexer.Parse env file baseDir) then 1 else 0) +
   Indexer.failures env baseDir rest)%nat.
Proof.
  unfold Indexer.failures. cbn [List.filter].
  destruct (snd (Indexer.Parse env file baseDir)); reflexivity.
Qed.

(** One round of the second loop that is not stopped and whose parse gives
    a document or an error: the document joins the waiting ones, and the
    101st of them sends the whole batch off. *)
Lemma parse_loop_round (env : Indexer.Env) (baseDir : string) (shut : list bool)
    (file : string) (rest : list string) (docs : list (option Indexer.Document))
    (r : Indexer.Run) :
  hd false shut = false ->
  Indexer.parses env baseDir file ->
  (length docs <= 100)%nat ->
  exists batch docs' wc,
    Indexer.parse_loop env baseDir shut (file :: rest) docs r =
    Indexer.parse_loop env baseDir (tl shut) rest docs'
      (Indexer.mkRun (Indexer.saved r ++ batch)
         (if snd (Indexer.Parse env file baseDir) then Indexer.succ r
          else GoInt.add (Indexer.succ r) 1)
         (if snd (Indexer.Parse env file baseDir) then GoInt.add (Indexer.faied r) 1
          else Indexer.faied r)
         wc (Indexer.exit r)) /\
    concat batch ++ docs' = docs ++ [fst (Indexer.Parse env file baseDir)] /\
    List.Forall (fun b => length b = 101%nat) batch /\
    (length docs' <= 100)%nat.
Proof.
  intros Hhd Hok Hlen. unfold Indexer.parses in Hok.
  cbn [Indexer.parse_loop]. rewrite Hhd.
  destruct (Indexer.Parse env file baseDir) as [doc err] eqn:HP.
  assert (Hnew : length (docs ++ [doc]) = S (length docs))
    by (rewrite length_app; simpl; lia).
  destruct err; [|destruct doc as [d|]; [|congruence]]; cbn [fst snd];
    (destruct (100 <? length (docs ++ [_]))%nat eqn:Hfull;
     [ apply Nat.ltb_lt in Hfull;
       eexists [_], [], _; split; [reflexivity|];
       conj_split;
       [ simpl; rewrite !app_nil_r; reflexivity
       | constructor; [lia | constructor]
       | simpl; lia ]
     | apply Nat.ltb_ge in Hfull;
       eexists [], _, _; split; [rewrite app_nil_r; reflexivity|];
       conj_split; [ reflexivity | constructor | lia ] ]).
Qed.

(** The second loop when nothing stops it. *)
Lemma parse_loop_finishes (env : Indexer.Env) (baseDir : string) (files : list string) :
  forall shut docs r,
    Indexer.quiet (length files) shut ->
    List.Forall (Indexer.parses env baseDir) files ->
    (length docs <= 100)%nat ->
    GoInt.in_range (Indexer.succ r) ->
    GoInt.in_range (Indexer.faied r) ->
    exists full last wc,
      Indexer.parse_loop env baseDir shut files docs r =
      Returns (Indexer.mkRun
                 (Indexer.saved r ++ full ++ (if (0 <? length last)%nat then [last] else []))
                 (GoInt.wrap (Indexer.succ r + Z.of_nat (Indexer.successes env baseDir files)))
                 (GoInt.wrap (Indexer.faied r + Z.of_nat (Indexer.failures env baseDir files)))
                 wc Indexer.Finished) /\
      List.Forall (fun b => length b = 101%nat) full /\
      (length last <= 100)%nat /\
      concat full ++ last = docs ++ Indexer.parsed env baseDir files.
Proof.
  induction files as [|file rest IH]; intros shut docs r Hq Hok Hlen Hs Hf.
  - exists [], docs, (Indexer.wordCount r). conj_split; auto.
    + cbn [Indexer.parse_loop]. unfold Indexer.successes, Indexer.failures.
      cbn [List.filter length Z.of_nat]. rewrite !Z.add_0_r, !wrap_in_range by assumption.
      destruct (0 <? length docs)%nat; simpl; rewrite ?app_nil_r; reflexivity.
    + unfold Indexer.parsed. simpl. rewrite app_nil_r. reflexivity.
  - apply quiet_tl in Hq as [Hhd Hq]. inversion Hok as [|? ? Hfile Hrest]; subst.
    destruct (parse_loop_round env baseDir shut file rest docs r Hhd Hfile Hlen)
      as (batch & docs' & wc1 & Hround & Hcat & Hfull & Hlen').
    rewrite Hround. clear Hround.
    match goal with
    | |- context [Indexer.parse_loop _ _ _ _ _ ?r1] =>
        assert (Hs1 : GoInt.in_range (Indexer.succ r1))
          by (cbn [Indexer.succ]; destruct (snd (Indexer.Parse env file baseDir));
              [exact Hs | apply wrap_range]);
        assert (Hf1 : GoInt.in_range (Indexer.faied r1))
          by (cbn [Indexer.faied]; destruct (snd (Indexer.Parse env file baseDir));
              [apply wrap_range | exact Hf]);
        destruct (IH (tl shut) docs' r1 Hq Hrest Hlen' Hs1 Hf1)
          as (full & last & wc & Hrun & Hfull' & Hlast & Hcat')
    end.
    exists (batch ++ full), last, wc. conj_split.
    + rewrite Hrun. cbn [Indexer.saved Indexer.succ Indexer.faied].
      rewrite successes_cons, failures_cons, <- !app_assoc.
      f_equal. f_equal.
      * destruct (snd (Indexer.Parse env file baseDir)); unfold GoInt.add; rewrite ?wrap_add_wrap; f_equal; lia.
      * destruct (snd (Indexer.Parse env file baseDir)); unfold GoInt.add; rewrite ?wrap_add_wrap; f_equal; lia.
    + apply Forall_app. split; assumption.
    + exact Hlast.
    + rewrite concat_app, <- app_assoc, Hcat'.
      unfold Indexer.parsed. cbn [map]. rewrite app_assoc, Hcat, <- app_assoc. reflexivity.
Qed.

Lemma nth_tl {A : Type} (k : nat) (l : list A) (d : A) :
  nth k (tl l) d = nth (S k) l d.
Proof. destruct l; simpl; [destruct k; reflexivity | reflexivity]. Qed.

(** The second loop when round [k] finds the server shutting down. *)
Lemma parse_loop_stopped (env : Indexer.Env) (baseDir : string) (k : nat) :
  forall files shut docs r,
    (k < length files)%nat ->
    Indexer.quiet k shut ->
    nth k shut false = true ->
    List.Forall (Indexer.parses env baseDir) (firstn k files) ->
    (length docs <= 100)%nat ->
    exists full dropped s f wc,
      Indexer.parse_loop env baseDir shut files docs r =
      Returns (Indexer.mkRun (Indexer.saved r ++ full) s f wc Indexer.ShuttingDown) /\
      List.Forall (fun b => length b = 101%nat) full /\
      (length dropped <= 100)%nat /\
      concat full ++ dropped = docs ++ Indexer.parsed env baseDir (firstn k files).
Proof.
  induction k as [|k IH]; intros files shut docs r Hk Hq Hstop Hok Hlen;
    destruct files as [|file rest]; simpl in Hk; try lia.
  - exists [], docs, (Indexer.succ r), (Indexer.faied r), (Indexer.wordCount r).
    conj_split; auto.
    + cbn [Indexer.parse_loop].
      replace (hd false shut) with true by (destruct shut; exact (eq_sym Hstop)).
      rewrite app_nil_r. reflexivity.
    + unfold Indexer.parsed. simpl. rewrite app_nil_r. reflexivity.
  - apply quiet_tl in Hq as [Hhd Hq]. cbn [firstn] in Hok.
    inversion Hok as [|? ? Hfile Hrest]; subst.
    destruct (parse_loop_round env baseDir shut file rest docs r Hhd Hfile Hlen)
      as (batch & docs' & wc1 & Hround & Hcat & Hfull & Hlen').
    rewrite Hround. clear Hround.
    rewrite <- nth_tl in Hstop.
    match goal with
    | |- context [Indexer.parse_loop _ _ _ _ _ ?r1] =>
        destruct (IH rest (tl shut) docs' r1 ltac:(lia) Hq Hstop Hrest Hlen')
          as (full & dropped & s & f & wc & Hrun & Hfull' & Hdrop & Hcat')
    end.
    exists (batch ++ full), dropped, s, f, wc. conj_split.
    + rewrite Hrun. cbn [Indexer.saved]. rewrite <- app_assoc. reflexivity.
    + apply Forall_app. split; assumption.
    + exact Hdrop.
    + rewrite concat_app, <- app_assoc, Hcat'.
      unfold Indexer.parsed. cbn [firstn map].
      rewrite app_assoc, Hcat, <- app_assoc. reflexivity.
Qed.

(** [demo] up to its second loop, when the first loop is not stopped. *)
Lemma demo_reaches_parse_loop (cenv : Conf.Env) (g : Conf.Globals) (env : Indexer.Env)
    (conf : Conf.Conf) (shut : list bool) :
  Conf.IsServerMode cenv = true ->
  Conf.conf g = Some conf ->
  Conf.ForTest_Path conf <> EmptyString ->
  Indexer.quiet (length (Indexer.listed env conf)) shut ->
  Indexer.demo cenv g env shut =
  Indexer.parse_loop env (Conf.ForTest_Path conf)
    (skipn (length (Indexer.listed env conf)) shut)
    (Indexer.included env conf) [] (Indexer.mkRun [] 0 0 0 Indexer.Finished).
Proof.
  intros Hmode Hconf Hpath Hq.
  unfold Indexer.demo, Conf.Get, Conf.checkMode. rewrite Hmode, Hconf.
  apply String.eqb_neq in Hpath. rewrite Hpath.
  unfold Indexer.included. unfold Indexer.listed in *.
  destruct (Indexer.ListFiles env _ _) as [found err].
  rewrite filter_loop_quiet by exact Hq. reflexivity.
Qed.

Lemma batches_count (n full last : nat) :
  n = (101 * full + last)%nat -> (last <= 100)%nat ->
  full = (n / 101)%nat /\ last = (n mod 101)%nat.
Proof.
  intros Hn Hlast. split.
  - apply (Nat.div_unique n 101 full last); lia.
  - apply (Nat.mod_unique n 101 full last); lia.
Qed.

(** X12. A run of [demo] that is not told to shut down, over files that
    each parse to a document or to an error, saves what [Parse] handed back
    for every included file, in order and with the failed ones among them,
    in batches: [n / 101] batches of exactly 101 entries, then the remaining
    [n mod 101] entries as a last batch if there are any, [n] being the
    number of included files. Its counters end at the numbers of parses
    without and with an error. *)
Theorem demo_saves_all_parsed (cenv : Conf.Env) (g : Conf.Globals) (env : Indexer.Env)
    (conf : Conf.Conf) (shut : list bool) :
  Conf.IsServerMode cenv = true ->
  Conf.conf g = Some conf ->
  Conf.ForTest_Path conf <> EmptyString ->
  Indexer.quiet (length (Indexer.listed env conf) + length (Indexer.included env conf)) shut ->
  List.Forall (Indexer.parses env (Conf.ForTest_Path conf)) (Indexer.included env conf) ->
  exists run full last,
    Indexer.demo cenv g env shut = Returns run /\
    Indexer.exit run = Indexer.Finished /\
    Indexer.saved run = full ++ (if (0 <? length last)%nat then [last] else []) /\
    List.Forall (fun b => length b = 101%nat) full /\
    length full = (length (Indexer.included env conf) / 101)%nat /\
    length last = (length (Indexer.included env conf) mod 101)%nat /\
    concat (Indexer.saved run) =
      Indexer.parsed env (Conf.ForTest_Path conf) (Indexer.included env conf) /\
    Indexer.succ run =
      GoInt.wrap (Z.of_nat (Indexer.successes env (Conf.ForTest_Path conf)
                              (Indexer.included env conf))) /\
    Indexer.faied run =
      GoInt.wrap (Z.of_nat (Indexer.failures env (Conf.ForTest_Path conf)
                              (Indexer.included env conf))).
Proof.
  intros Hmode Hconf Hpath Hq Hok.
  rewrite (demo_reaches_parse_loop cenv g env conf shut Hmode Hconf Hpath)
    by (eapply quiet_le; [|exact Hq]; lia).
  apply quiet_skipn in Hq.
  destruct (parse_loop_finishes env (Conf.ForTest_Path conf) (Indexer.included env conf)
              _ [] (Indexer.mkRun [] 0 0 0 Indexer.Finished) Hq Hok)
    as (full & last & wc & Hrun & Hfull & Hlast & Hcat);
    [simpl; lia | vm_compute; split; discriminate | vm_compute; split; discriminate |].
  cbn [Indexer.saved Indexer.succ Indexer.faied app] in Hrun.
  rewrite !Z.add_0_l in Hrun. rewrite app_nil_l in Hcat.
  assert (Hcount : length (Indexer.included env conf)
                   = (101 * length full + length last)%nat).
  { rewrite <- (concat_full 101 full Hfull), <- length_app, Hcat.
    unfold Indexer.parsed. simpl. rewrite length_map. reflexivity. }
  destruct (batches_count _ _ _ Hcount Hlast) as [Hdiv Hmod].
  eexists _, full, last. split; [exact Hrun|].
  cbn [Indexer.exit Indexer.saved Indexer.succ Indexer.faied].
  conj_split; auto.
  rewrite concat_app, <- Hcat. simpl. f_equal.
  destruct last; simpl; rewrite ?app_nil_r; reflexivity.
Qed.

Lemma demo_saves_all_parsed_witness :
  exists run,
    Indexer.demo sample_conf_env sample_globals sample_tree [] = Returns run /\
    Indexer.saved run = [[Some (Indexer.mkDocument ["func"%string; "main"%string]); None]] /\
    Indexer.succ run = 1%Z /\ Indexer.faied run = 1%Z.
Proof.
  destruct (demo_saves_all_parsed sample_conf_env sample_globals sample_tree sample_conf [])
    as (run & full & last & Hrun & _);
    [ reflexivity | reflexivity | discriminate
    | intros j _; destruct j; reflexivity
    | repeat constructor; discriminate | ].
  exists run. split; [exact Hrun|].
  vm_compute in Hrun. injection Hrun as <-. repeat split.
Defined.

(** X13. When [demo] finds the server shutting down at round [k] of its
    second loop, it has saved [k / 101] batches of exactly 101 entries and
    nothing else: the [k mod 101] documents parsed since the last full batch
    are not saved. *)
Theorem demo_shutdown_drops_open_batch (cenv : Conf.Env) (g : Conf.Globals)
    (env : Indexer.Env) (conf : Conf.Conf) (shut : list bool) (k : nat) :
  Conf.IsServerMode cenv = true ->
  Conf.conf g = Some conf ->
  Conf.ForTest_Path conf <> EmptyString ->
  (k < length (Indexer.included env conf))%nat ->
  Indexer.quiet (length (Indexer.listed env conf) + k) shut ->
  nth (length (Indexer.listed env conf) + k) shut false = true ->
  List.Forall (Indexer.parses env (Conf.ForTest_Path conf))
              (firstn k (Indexer.included env conf)) ->
  exists run dropped,
    Indexer.demo cenv g env shut = Returns run /\
    Indexer.exit run = Indexer.ShuttingDown /\
    List.Forall (fun b => length b = 101%nat) (Indexer.saved run) /\
    length (Indexer.saved run) = (k / 101)%nat /\
    length dropped = (k mod 101)%nat /\
    concat (Indexer.saved run) ++ dropped =
      Indexer.parsed env (Conf.ForTest_Path conf) (firstn k (Indexer.included env conf)).
Proof.
  intros Hmode Hconf Hpath Hk Hq Hstop Hok.
  rewrite (demo_reaches_parse_loop cenv g env conf shut Hmode Hconf Hpath)
    by (eapply quiet_le; [|exact Hq]; lia).
  apply quiet_skipn in Hq. rewrite <- nth_skipn in Hstop.
  destruct (parse_loop_stopped env (Conf.ForTest_Path conf) k (Indexer.included env conf)
              _ [] (Indexer.mkRun [] 0 0 0 Indexer.Finished) Hk Hq Hstop Hok)
    as (full & dropped & s & f & wc & Hrun & Hfull & Hdrop & Hcat); [simpl; lia|].
  cbn [Indexer.saved app] in Hrun. rewrite app_nil_l in Hcat.
  assert (Hcount : k = (101 * length full + length dropped)%nat).
  { rewrite <- (concat_full 101 full Hfull), <- length_app, Hcat.
    unfold Indexer.parsed. simpl. rewrite length_map, length_firstn. lia. }
  destruct (batches_count _ _ _ Hcount Hdrop) as [Hdiv Hmod].
  eexists _, dropped. split; [exact Hrun|].
  cbn [Indexer.exit Indexer.saved]. conj_split; auto.
Qed.

Lemma demo_shutdown_drops_open_batch_witness :
  exists run,
    Indexer.demo sample_conf_env sample_globals sample_tree
                 [false; false; false; false; true] = Returns run /\
    Indexer.saved run = [] /\
    Indexer.parsed sample_tree "/src" (firstn 1 (Indexer.included sample_tree sample_conf))
      = [Some (Indexer.mkDocument ["func"%string; "main"%string])].
Proof.
  destruct (demo_shutdown_drops_open_batch sample_conf_env sample_globals sample_tree
              sample_conf [false; false; false; false; true] 1)
    as (run & dropped & Hrun & _);
    [ reflexivity | reflexivity | discriminate | vm_compute; lia
    | intros j Hj; do 4 (destruct j as [|j]; [reflexivity|]); vm_compute in Hj; lia
    | reflexivity
    | repeat constructor; discriminate | ].
  exists run. split; [exact Hrun|].
  vm_compute in Hrun. injection Hrun as <-. split; reflexivity.
Defined.
